(** * kb_engine_playground: the ingestion pipeline's chunking, re-split and
      batch driver, embedded in Rocq.

    Sources embedded here:
    - [src/ingestion/store.py]: [_EXT_TO_LANGUAGE], [get_language_from_metadata],
      [get_text_splitter], [get_text_splitter_for_language],
      [get_embedding_model], [get_vector_store];
    - [src/ingestion/pipeline.py]: [_chunk_documents_with_language_awareness],
      [_resplit_oversize_chunks], [EMBED_BATCH_SIZE], [run_pipeline];
    - [src/ingestion/loaders.py]: [_make_github_file_filter],
      [load_documents_for_source], [load_all_documents].
    The classes of the libraries that the code calls are collaborators of
    the model, except [Document] and [RecursiveCharacterTextSplitter], whose
    behaviour the statements about metadata and about the splitting step
    depend on: they are modelled after the library.

    Modelling conventions.
    - A Python [str] is a list of characters; characters are 8-bit code points
      (the Latin-1 range), with Python's own whitespace and lower-case tables
      on that range.
    - A Python [int] is a [Z]; sequence lengths are [nat] and are injected
      into [Z] where the code compares them with an [int].
    - Python objects that the code shares by reference (the [metadata] dict of
      a [Document]) live in an explicit heap; a [Document] holds the location
      of its metadata dict.
    - Exceptions are an explicit result type; functions that allocate or call
      a collaborator pass the state explicitly. *)

From Stdlib Require Import ZArith Ascii String Lia.
From stdpp Require Import base option list gmap strings.

Open Scope Z_scope.

(* ===================================================================== *)
(** * Python built-ins used by the sources                                *)
(* ===================================================================== *)

Module Py.

(** ** Strings *)

Abbreviation str := (list ascii).

(** A string literal of the source. *)
Definition lit (s : string) : str := list_ascii_of_string s.

Definition len {A} (l : list A) : Z := Z.of_nat (length l).

(** [str.isspace] on one character: the code points U+0009..U+000D,
    U+001C..U+0020, U+0085 and U+00A0. *)
Definition isspace (c : ascii) : bool :=
  let n := N_of_ascii c in
  (((9 <=? n) && (n <=? 13)) || ((28 <=? n) && (n <=? 32))
   || (n =? 133) || (n =? 160))%N.

Fixpoint lstrip (s : str) : str :=
  match s with
  | [] => []
  | c :: s' => if isspace c then lstrip s' else s
  end.

Definition rstrip (s : str) : str := reverse (lstrip (reverse s)).

(** [s.strip()] *)
Definition strip (s : str) : str := rstrip (lstrip s).

(** Truth value of a string: non-empty. *)
Definition truthy (s : str) : bool :=
  match s with [] => false | _ :: _ => true end.

(** [str.lower] on one character: A..Z and the Latin-1 capitals
    U+00C0..U+00DE (without the multiplication sign U+00D7). *)
Definition lower_char (c : ascii) : ascii :=
  let n := N_of_ascii c in
  if (((65 <=? n) && (n <=? 90))
      || ((192 <=? n) && (n <=? 222) && negb (n =? 215)))%N
  then ascii_of_N (n + 32) else c.

Definition lower (s : str) : str := map lower_char s.

(** [sep in s] for a one-character [sep]. *)
Definition contains (sep : ascii) (s : str) : bool := bool_decide (sep ∈ s).

(** [s.split(sep)] for a one-character [sep]: all fields, never empty. *)
Fixpoint split (sep : ascii) (s : str) : list str :=
  match s with
  | [] => [[]]
  | c :: s' =>
      if bool_decide (c = sep) then [] :: split sep s'
      else match split sep s' with
           | f :: fs => (c :: f) :: fs
           | [] => [[c]]
           end
  end.

(** [sep.join(fields)] for a one-character [sep]. *)
Fixpoint join (sep : ascii) (fields : list str) : str :=
  match fields with
  | [] => []
  | [f] => f
  | f :: fs => f ++ sep :: join sep fs
  end.

(** [s.rsplit(sep, 1)]: cut once, at the last [sep]. *)
Definition rsplit1 (sep : ascii) (s : str) : list str :=
  match reverse (split sep s) with
  | [] | [_] => [s]
  | after :: before => [join sep (reverse before); after]
  end.

(** [l[0]] and [l[-1]] on a list of strings that is never empty here
    ([split] and [rsplit1] return at least one field). *)
Definition first (l : list str) : str := hd [] l.
Definition last (l : list str) : str := List.last l [].

(** ** Exceptions *)

(** The exceptions of the model: [ValueError], [AttributeError] and
    [AssertionError] are raised by the modelled code itself (the second by
    a method call on a value that has no such method, the last only by the
    invariant check of [run_pipeline]); [CollaboratorError] stands for
    whatever exception a library or an external service raises, with its
    text. *)
Inductive exn : Type :=
| ValueError (msg : string)
| AttributeError (msg : string)
| AssertionError (count : nat) (max_chars : Z) (indices : list nat)
| CollaboratorError (msg : string).

(** What a library call or an external service answers. *)
Inductive reply (A : Type) : Type :=
| Returns (a : A)
| Fails (msg : string).
Arguments Returns {A} a.
Arguments Fails {A} msg.

Inductive res (A : Type) : Type :=
| Ok (a : A)
| Raise (e : exn).
Arguments Ok {A} a.
Arguments Raise {A} e.

Global Instance exn_eq_dec : EqDecision exn.
Proof. solve_decision. Defined.

Global Instance res_eq_dec {A} `{EqDecision A} : EqDecision (res A).
Proof. solve_decision. Defined.

(** ** [range] and slices *)

(** The iteration of [range(start, stop, step)] for [step <> 0]: yield [i]
    while it is before [stop] in the direction of [step]. *)
Fixpoint range_loop (fuel : nat) (i stop step : Z) : list Z :=
  match fuel with
  | O => []
  | S fuel' =>
      if (if 0 <? step then i <? stop else stop <? i)
      then i :: range_loop fuel' (i + step) stop step
      else []
  end.

(** [range(start, stop, step)]; a zero step raises [ValueError]. *)
Definition range (start stop step : Z) : res (list Z) :=
  if step =? 0 then Raise (ValueError "range() arg 3 must not be zero")
  else Ok (range_loop (Z.to_nat (Z.abs (stop - start))) start stop step).

(** A slice bound [i] on a sequence of length [n]: negative bounds count
    from the end, and every bound is clamped to [0..n]. *)
Definition slice_bound (n : nat) (i : Z) : nat :=
  if i <? 0 then Z.to_nat (Z.max 0 (i + Z.of_nat n))
  else Nat.min (Z.to_nat i) n.

(** [l[lo:hi]] *)
Definition slice {A} (l : list A) (lo hi : Z) : list A :=
  let a := slice_bound (length l) lo in
  let b := slice_bound (length l) hi in
  take (b - a) (drop a l).

End Py.

Import Py.

(* ===================================================================== *)
(** * Data model: metadata dicts, the heap and Documents                  *)
(* ===================================================================== *)

(** Values of the metadata fields the pipeline reads. A dict can hold any
    value: [None], a string, or a value of another type; an [int] stands
    for the values that have no string methods (numbers, lists, dicts). *)
Inductive pyval : Type :=
| PyNone
| PyStr (s : str)
| PyInt (n : Z).

Global Instance pyval_eq_dec : EqDecision pyval.
Proof. solve_decision. Defined.

(** The truth value of a value: [None], the empty string and [0] are
    false. *)
Definition truth (v : pyval) : bool :=
  match v with
  | PyNone => false
  | PyStr s => truthy s
  | PyInt n => negb (n =? 0)
  end.

(** [x or "default"] with a string literal on the right. *)
Definition py_or (x : pyval) (default : str) : pyval :=
  if truth x then x else PyStr default.

(** [d.get(key)] *)
Definition dict_get (d : gmap str pyval) (key : str) : pyval :=
  default PyNone (d !! key).

(** [x.strip()]: a method of strings; the attribute lookup raises on a
    value of another type. *)
Definition strip_method (x : pyval) : res str :=
  match x with
  | PyStr s => Ok (strip s)
  | PyInt _ => Raise (AttributeError "'int' object has no attribute 'strip'")
  | PyNone =>
      Raise (AttributeError "'NoneType' object has no attribute 'strip'")
  end.

(** A metadata dict. *)
Abbreviation pydict := (gmap str pyval).

(** The heap of metadata dicts: a location is an index; allocation appends. *)
Abbreviation loc := nat.
Abbreviation heap := (list pydict).

Definition alloc (d : pydict) (h : heap) : loc * heap := (length h, h ++ [d]).

(** [langchain_core.documents.Document]: text and a reference to its
    metadata dict. *)
Record Document : Type := mkDocument {
  page_content : str;
  metadata : loc
}.

Global Instance Document_eq_dec : EqDecision Document.
Proof. solve_decision. Defined.

(** The metadata dict a document refers to. *)
Definition metadata_of (h : heap) (d : Document) : option pydict :=
  h !! metadata d.

(** [d.metadata[k] = v]: update in place the dict that [d] refers to. *)
Definition metadata_setitem (d : Document) (k : str) (v : pyval) (h : heap)
  : heap :=
  alter (fun m : pydict => <[k := v]> m) (metadata d) h.

(** The [Document(page_content=..., metadata=...)] call stores the text; what
    it does with the dict it is given is the library's business, and is the
    parameter [hold] of the model: from the location passed in and the heap,
    the location the new document holds and the heap afterwards. The code
    of the repository passes [doc.metadata] itself and copies nothing. *)
Definition new_Document (hold : loc -> heap -> loc * heap)
    (piece : str) (m : loc) (h : heap)
  : Document * heap :=
  let '(l, h') := hold m h in
  (mkDocument piece l, h').

(** The two behaviours a constructor can have: *)

(** - keep the reference it was given (a plain attribute assignment); *)
Definition by_reference (m : loc) (h : heap) : loc * heap := (m, h).

(** - store a copy of the dict. This is the constructor of
      [langchain_core.documents.Document]: the class is a validating model,
      and the validation of its [metadata] field builds a new dict with the
      pairs of the dict it is given. *)
Definition by_copy (m : loc) (h : heap) : loc * heap :=
  alloc (default ∅ (h !! m)) h.

(* ===================================================================== *)
(** * pipeline.py: the oversize re-split                                   *)
(* ===================================================================== *)

Section Resplit.

(** What the library's [Document] constructor does with its [metadata]
    argument. *)
Variable hold : loc -> heap -> loc * heap.

(** The inner loop, lines 73-76:
    [for start in range(0, len(content), max_chars): ...] *)
Fixpoint resplit_slices (doc : Document) (content : str) (max_chars : Z)
    (starts : list Z) (result : list Document) (h : heap)
  : list Document * heap :=
  match starts with
  | [] => (result, h)
  | start :: starts' =>
      let piece := slice content start (start + max_chars) in
      if truthy (strip piece)
      then
        let '(d, h') := new_Document hold piece (metadata doc) h in
        resplit_slices doc content max_chars starts' (result ++ [d]) h'
      else resplit_slices doc content max_chars starts' result h
  end.

(** The outer loop, lines 67-76: [for doc in chunks: ...] *)
Fixpoint resplit_loop (chunks : list Document) (max_chars : Z)
    (result : list Document) (h : heap)
  : res (list Document) * heap :=
  match chunks with
  | [] => (Ok result, h)
  | doc :: chunks' =>
      let content := page_content doc in
      if len content <=? max_chars
      then resplit_loop chunks' max_chars (result ++ [doc]) h
      else
        match range 0 (len content) max_chars with
        | Raise e => (Raise e, h)
        | Ok starts =>
            let '(result', h') :=
              resplit_slices doc content max_chars starts result h in
            resplit_loop chunks' max_chars result' h'
        end
  end.

Definition _resplit_oversize_chunks (chunks : list Document) (max_chars : Z)
    (h : heap)
  : res (list Document) * heap :=
  resplit_loop chunks max_chars [] h.

End Resplit.

(* ===================================================================== *)
(** * store.py: the language classifier and the splitters                 *)
(* ===================================================================== *)

(** The members of [langchain_text_splitters.Language] the repository
    uses. *)
Inductive Language : Type :=
| MARKDOWN
| RST.

Global Instance Language_eq_dec : EqDecision Language.
Proof. solve_decision. Defined.

Definition _EXT_TO_LANGUAGE : gmap str Language :=
  <[lit ".md" := MARKDOWN]>
    (<[lit ".markdown" := MARKDOWN]> (<[lit ".rst" := RST]> ∅)).

(** [metadata.get(key) or ""]: the value of the field when it is there and
    true, the empty string otherwise. *)
Definition get_or_empty (metadata : pydict) (key : str) : pyval :=
  py_or (dict_get metadata key) [].

(** Lines 88-93. Both [strip] calls are on whatever [get(...) or ""] gives,
    so a true value without a [strip] method raises [AttributeError]. *)
Definition get_language_from_metadata (metadata : pydict)
  : res (option Language) :=
  match strip_method (get_or_empty metadata (lit "file_extension")) with
  | Raise e => Raise e
  | Ok stripped =>
      let ext := lower stripped in
      let derived :=
        if negb (truthy ext) then
          match strip_method (get_or_empty metadata (lit "source")) with
          | Raise e => Raise e
          | Ok source =>
              Ok (if contains "." source
                  then "."%char
                       :: lower (first (split "?" (first (split "/"
                                            (last (rsplit1 "." source))))))
                  else ext)
          end
        else Ok ext in
      match derived with
      | Raise e => Raise e
      | Ok ext => Ok (if truthy ext then _EXT_TO_LANGUAGE !! ext else None)
      end
  end.

Definition newline : ascii := "010"%char.

(** A configured [RecursiveCharacterTextSplitter]: built from an explicit
    separator list, or by [from_language]. *)
Inductive Splitter : Type :=
| RecursiveCharacterTextSplitter
    (chunk_size chunk_overlap : Z) (separators : list str)
| from_language (language : Language) (chunk_size chunk_overlap : Z).

Section Store.

(** [EMBED_MODEL_MAX_CHARS = int(os.getenv("EMBED_MAX_CHARS", "500"))] *)
Variable EMBED_MODEL_MAX_CHARS : Z.

Definition get_text_splitter (chunk_size chunk_overlap : option Z)
  : Splitter :=
  let size := default EMBED_MODEL_MAX_CHARS chunk_size in
  let overlap := default (Z.max 50 (size / 10)) chunk_overlap in
  RecursiveCharacterTextSplitter size overlap
    [[newline; newline]; [newline]; lit " "; lit ""].

Definition get_text_splitter_for_language (language : option Language)
    (chunk_size chunk_overlap : option Z) : Splitter :=
  let size := default EMBED_MODEL_MAX_CHARS chunk_size in
  let overlap := default (Z.max 50 (size / 10)) chunk_overlap in
  match language with
  | Some l => from_language l size overlap
  | None => get_text_splitter (Some size) (Some overlap)
  end.

End Store.

(* ===================================================================== *)
(** * pipeline.py: language-aware chunking                                *)
(* ===================================================================== *)

(** A key of [by_lang]: a [Language] or the string ["default"]. *)
Inductive lang_key : Type :=
| KeyLanguage (l : Language)
| KeyDefault.

Global Instance lang_key_eq_dec : EqDecision lang_key.
Proof. solve_decision. Defined.

(** [by_lang.setdefault(key, []).append(d)] on an insertion-ordered dict. *)
Fixpoint setdefault_append (key : lang_key) (d : Document)
    (by_lang : list (lang_key * list Document))
  : list (lang_key * list Document) :=
  match by_lang with
  | [] => [(key, [d])]
  | (k, group) :: rest =>
      if decide (k = key) then (k, group ++ [d]) :: rest
      else (k, group) :: setdefault_append key d rest
  end.

(** The dict a location holds. *)
Definition deref (h : heap) (l : loc) : pydict := default ∅ (h !! l).

Section Chunking.

Variable EMBED_MODEL_MAX_CHARS : Z.

(** [splitter.split_documents(group)] of the library. *)
Variable split_documents :
  Splitter -> list Document -> heap -> reply (list Document) * heap.

(** Lines 41-44. An exception of the classifier ends the loop. *)
Fixpoint group_by_language (docs : list Document) (h : heap)
    (by_lang : list (lang_key * list Document))
  : res (list (lang_key * list Document)) :=
  match docs with
  | [] => Ok by_lang
  | d :: docs' =>
      match get_language_from_metadata (deref h (metadata d)) with
      | Raise e => Raise e
      | Ok lang =>
          let key := match lang with
                     | Some l => KeyLanguage l
                     | None => KeyDefault
                     end in
          group_by_language docs' h (setdefault_append key d by_lang)
      end
  end.

(** Lines 45-53. *)
Fixpoint split_groups (groups : list (lang_key * list Document))
    (chunk_size chunk_overlap : Z) (chunks : list Document) (h : heap)
  : res (list Document) * heap :=
  match groups with
  | [] => (Ok chunks, h)
  | (key, group) :: groups' =>
      let splitter :=
        match key with
        | KeyLanguage l =>
            get_text_splitter_for_language EMBED_MODEL_MAX_CHARS
              (Some l) (Some chunk_size) (Some chunk_overlap)
        | KeyDefault =>
            get_text_splitter EMBED_MODEL_MAX_CHARS
              (Some chunk_size) (Some chunk_overlap)
        end in
      match split_documents splitter group h with
      | (Fails msg, h') => (Raise (CollaboratorError msg), h')
      | (Returns cs, h') =>
          split_groups groups' chunk_size chunk_overlap (chunks ++ cs) h'
      end
  end.

Definition _chunk_documents_with_language_awareness (docs : list Document)
    (chunk_size chunk_overlap : Z) (h : heap)
  : res (list Document) * heap :=
  match group_by_language docs h [] with
  | Raise e => (Raise e, h)
  | Ok by_lang => split_groups by_lang chunk_size chunk_overlap [] h
  end.

End Chunking.

(* ===================================================================== *)
(** * pipeline.py: [run_pipeline]                                          *)
(* ===================================================================== *)

Definition EMBED_BATCH_SIZE : Z := 50.

(** The lines [run_pipeline] prints, by their content. *)
Inductive message : Type :=
| MsgBanner
| MsgChunking (size overlap max_chars : Z)
| MsgLoading (config_path : string)
| MsgLoaded (n : Z)
| MsgNoDocuments
| MsgSplit (n : Z)
| MsgResplit (n_before n_after max_chars : Z)
| MsgEmbedding (batch_size num_batches : Z)
| MsgBatchFailed (batch_num num_batches : Z) (e : string)
| MsgBatchDone (batch_num num_batches done total : Z)
| MsgStored.

(** What a run does that can be observed, in order: lines on the two output
    streams and the calls of [vector_store.add_documents]. The heartbeat
    thread of [_heartbeat_while] prints by the clock and is left out. *)
Inductive event : Type :=
| Stdout (m : message)
| Stderr (m : message)
| AddDocuments (batch : list Document).

(** The call events of a trace. *)
Definition calls (trace : list event) : list (list Document) :=
  omap (fun ev => match ev with AddDocuments b => Some b | _ => None end)
       trace.

(** [[i for i, d in enumerate(chunks) if len(d.page_content) > max_chars]] *)
Fixpoint oversize_from (i : nat) (chunks : list Document) (max_chars : Z)
  : list nat :=
  match chunks with
  | [] => []
  | d :: chunks' =>
      if max_chars <? len (page_content d)
      then i :: oversize_from (S i) chunks' max_chars
      else oversize_from (S i) chunks' max_chars
  end.

Definition oversize_indices (chunks : list Document) (max_chars : Z)
  : list nat :=
  oversize_from 0 chunks max_chars.

Section Pipeline.

(** The state of the services outside the process (model server, database),
    and the handles the libraries give to them. *)
Variable World : Type.
Variable Embeddings : Type.
Variable VectorStore : Type.

Variable EMBED_MODEL_MAX_CHARS : Z.

(** [os.getenv] *)
Variable getenv : str -> option str.

(** The libraries and collaborators. *)
Variable hold : loc -> heap -> loc * heap.
Variable split_documents :
  Splitter -> list Document -> heap -> reply (list Document) * heap.
Variable load_all_documents :
  string -> heap -> World -> reply (list Document) * heap * World.
Variable OpenAIEmbeddings : str -> World -> reply Embeddings * World.
Variable OllamaEmbeddings :
  str -> str -> Z -> World -> reply Embeddings * World.
Variable PGVector :
  str -> Embeddings -> str -> bool -> bool -> World
  -> reply VectorStore * World.
Variable add_documents :
  VectorStore -> list Document -> heap -> World -> reply unit * heap * World.

Record state : Type := mkState {
  st_heap : heap;
  st_world : World;
  st_trace : list event
}.

(** Computations of the pipeline: they change the state and may raise. *)
Definition M (A : Type) : Type := state -> res A * state.

Definition ret {A} (a : A) : M A := fun s => (Ok a, s).

Definition raise {A} (e : exn) : M A := fun s => (Raise e, s).

Definition bind {A B} (m : M A) (k : A -> M B) : M B :=
  fun s =>
    match m s with
    | (Ok a, s') => k a s'
    | (Raise e, s') => (Raise e, s')
    end.

Notation "'let*' x ':=' m 'in' k" := (bind m (fun x => k))
  (at level 10, x name, m at level 100, k at level 200, only parsing).

Definition emit (ev : event) : M unit :=
  fun s => (Ok tt, mkState (st_heap s) (st_world s) (st_trace s ++ [ev])).

Definition print (m : message) : M unit := emit (Stdout m).
Definition print_stderr (m : message) : M unit := emit (Stderr m).

(** A result computed without the state. *)
Definition lift {A} (r : res A) : M A := fun s => (r, s).

(** A computation on the heap alone. *)
Definition on_heap {A} (f : heap -> res A * heap) : M A :=
  fun s =>
    let '(r, h) := f (st_heap s) in
    (r, mkState h (st_world s) (st_trace s)).

(** A call of a service: its answer, kept as a value. *)
Definition call {A} (f : World -> reply A * World) : M (reply A) :=
  fun s =>
    let '(r, w) := f (st_world s) in
    (Ok r, mkState (st_heap s) w (st_trace s)).

Definition call_heap {A} (f : heap -> World -> reply A * heap * World)
  : M (reply A) :=
  fun s =>
    let '(r, h, w) := f (st_heap s) (st_world s) in
    (Ok r, mkState h w (st_trace s)).

(** An exception of a collaborator, passed on. *)
Definition returned {A} (r : reply A) : M A :=
  match r with
  | Returns a => ret a
  | Fails msg => raise (CollaboratorError msg)
  end.

(** [os.getenv(name) or default] *)
Definition getenv_or (name default : str) : str :=
  match getenv name with
  | Some v => if truthy v then v else default
  | None => default
  end.

(** store.py, [get_embedding_model] *)
Definition get_embedding_model : M Embeddings :=
  let provider := lower (strip (getenv_or (lit "EMBEDDING_PROVIDER")
                                          (lit "ollama"))) in
  let model := getenv_or (lit "EMBEDDING_MODEL") (lit "mxbai-embed-large") in
  if bool_decide (provider = lit "openai") then
    let* r := call (OpenAIEmbeddings model) in returned r
  else if bool_decide (provider = lit "ollama") then
    let base_url := getenv_or (lit "OLLAMA_BASE_URL")
                              (lit "http://localhost:11434") in
    let* r := call (OllamaEmbeddings model base_url 300) in returned r
  else raise (ValueError "Unsupported EMBEDDING_PROVIDER").

(** store.py, [get_vector_store] *)
Definition get_vector_store (connection_string : option str)
    (collection_name : str) (embedding : option Embeddings)
  : M VectorStore :=
  let conn :=
    match connection_string with
    | Some c => if truthy c then Some c else getenv (lit "DATABASE_URL")
    | None => getenv (lit "DATABASE_URL")
    end in
  match conn with
  | None | Some [] =>
      raise (ValueError "DATABASE_URL or connection_string required")
  | Some c =>
      let* emb := match embedding with
                  | Some e => ret e
                  | None => get_embedding_model
                  end in
      let* r := call (PGVector c emb collection_name true false) in
      returned r
  end.

(** The body of the batch loop, lines 161-178, over the offsets that
    [range] yields. *)
Fixpoint store_batches (vector_store : VectorStore)
    (chunks : list Document) (total num_batches : Z) (starts : list Z)
  : M unit :=
  match starts with
  | [] => ret tt
  | i :: starts' =>
      let batch := slice chunks i (i + EMBED_BATCH_SIZE) in
      let batch_num := i / EMBED_BATCH_SIZE + 1 in
      let* _ := emit (AddDocuments batch) in
      let* r := call_heap (add_documents vector_store batch) in
      match r with
      | Fails e =>
          let* _ := print_stderr (MsgBatchFailed batch_num num_batches e) in
          raise (CollaboratorError e)
      | Returns _ =>
          let done := Z.min (i + EMBED_BATCH_SIZE) total in
          let* _ := print (MsgBatchDone batch_num num_batches done total) in
          store_batches vector_store chunks total num_batches starts'
      end
  end.

(** Lines 154-179: embed and store in batches. *)
Definition embed_and_store (vector_store : VectorStore)
    (chunks : list Document) : M unit :=
  let total := len chunks in
  let num_batches := (total + EMBED_BATCH_SIZE - 1) / EMBED_BATCH_SIZE in
  let* _ := print (MsgEmbedding EMBED_BATCH_SIZE num_batches) in
  let* starts := lift (range 0 total EMBED_BATCH_SIZE) in
  let* _ := store_batches vector_store chunks total num_batches starts in
  print MsgStored.

Definition run_pipeline (config_path : string)
    (chunk_size chunk_overlap : option Z) (collection_name : str)
  : M unit :=
  let max_chars := EMBED_MODEL_MAX_CHARS in
  let size := default max_chars chunk_size in
  let overlap := default (Z.max 50 (size / 10)) chunk_overlap in
  let* _ := print MsgBanner in
  let* _ := print (MsgChunking size overlap max_chars) in
  let* _ := print (MsgLoading config_path) in
  let* loaded := call_heap (load_all_documents config_path) in
  let* docs := returned loaded in
  let* _ := print (MsgLoaded (len docs)) in
  match docs with
  | [] => print MsgNoDocuments
  | _ :: _ =>
      let* chunks :=
        on_heap (_chunk_documents_with_language_awareness
                   EMBED_MODEL_MAX_CHARS split_documents docs size overlap) in
      let* _ := print (MsgSplit (len chunks)) in
      let n_before := len chunks in
      let* chunks := on_heap (_resplit_oversize_chunks hold chunks max_chars) in
      let* _ :=
        if bool_decide (len chunks <> n_before)
        then print (MsgResplit n_before (len chunks) max_chars)
        else ret tt in
      let oversize := oversize_indices chunks max_chars in
      match oversize with
      | _ :: _ =>
          raise (AssertionError (length oversize) max_chars (take 5 oversize))
      | [] =>
          let* embedding := get_embedding_model in
          let* vector_store :=
            get_vector_store None collection_name (Some embedding) in
          embed_and_store vector_store chunks
      end
  end.

End Pipeline.

Arguments mkState {World} st_heap st_world st_trace.
Arguments st_heap {World} s.
Arguments st_world {World} s.
Arguments st_trace {World} s.
Arguments ret {World A} a s.
Arguments raise {World A} e s.
Arguments bind {World A B} m k s.
Arguments emit {World} ev s.
Arguments print {World} m s.
Arguments print_stderr {World} m s.
Arguments lift {World A} r s.
Arguments on_heap {World A} f s.
Arguments call {World A} f s.
Arguments call_heap {World A} f s.
Arguments returned {World A} r.

(* ===================================================================== *)
(** * Definitions used by the statements                                   *)
(* ===================================================================== *)

(** A string made of whitespace only (the empty string included). *)
Definition blank (s : str) : bool := forallb isspace s.

(** The characters of a string that are not whitespace, and their number. *)
Definition nonspace (s : str) : str := filter (fun c => isspace c = false) s.
Definition nonspace_count (s : str) : nat := length (nonspace s).

(** [ceil(a / b)] as the sources compute it: [(a + b - 1) // b]. *)
Definition ceil_div (a b : Z) : Z := (a + b - 1) / b.

(** The offsets [0, step, 2*step, ...], [ceil(stop / step)] of them. *)
Definition offsets (stop step : Z) : list Z :=
  (fun k : nat => Z.of_nat k * step) <$> seq 0 (Z.to_nat (ceil_div stop step)).

(** The slices the inner loop cuts at the given offsets (line 74). *)
Definition cut (content : str) (max_chars : Z) (starts : list Z) : list str :=
  (fun start => slice content start (start + max_chars)) <$> starts.

(** The slices that pass the test [if piece.strip()] (line 75). *)
Definition kept (pieces : list str) : list str :=
  filter (fun p => truthy (strip p) = true) pieces.

(** One [Document(page_content=piece, metadata=m)] call per piece, in
    order. *)
Fixpoint new_Documents (hold : loc -> heap -> loc * heap)
    (pieces : list str) (m : loc) (h : heap) : list Document * heap :=
  match pieces with
  | [] => ([], h)
  | piece :: pieces' =>
      let '(d, h1) := new_Document hold piece m h in
      let '(ds, h2) := new_Documents hold pieces' m h1 in
      (d :: ds, h2)
  end.

(** What the re-split step puts in place of one chunk: the chunk itself
    when it is within the limit, the documents of its kept slices
    otherwise. *)
Definition resplit_chunk (hold : loc -> heap -> loc * heap)
    (max_chars : Z) (doc : Document) (h : heap)
  : res (list Document) * heap :=
  if len (page_content doc) <=? max_chars then (Ok [doc], h)
  else
    match range 0 (len (page_content doc)) max_chars with
    | Raise e => (Raise e, h)
    | Ok starts =>
        let '(ds, h') :=
          new_Documents hold (kept (cut (page_content doc) max_chars starts))
            (metadata doc) h in
        (Ok ds, h')
    end.

(** Flat-map of a per-element function that allocates and may raise. *)
Fixpoint flat_mapM {A B} (f : A -> heap -> res (list B) * heap)
    (l : list A) (h : heap) : res (list B) * heap :=
  match l with
  | [] => (Ok [], h)
  | a :: l' =>
      match f a h with
      | (Raise e, h1) => (Raise e, h1)
      | (Ok bs, h1) =>
          match flat_mapM f l' h1 with
          | (Raise e, h2) => (Raise e, h2)
          | (Ok cs, h2) => (Ok (bs ++ cs), h2)
          end
      end
  end.

(** The texts of a chunk sequence. *)
Definition texts (chunks : list Document) : list str :=
  page_content <$> chunks.

(** The texts that replace one text, for a positive limit. *)
Definition replacement (max_chars : Z) (content : str) : list str :=
  if len content <=? max_chars then [content]
  else kept (cut content max_chars (offsets (len content) max_chars)).

(** Within the limit. *)
Definition compliant (max_chars : Z) (d : Document) : Prop :=
  len (page_content d) <= max_chars.

(** The chunks a run of the re-split step returned; none when it raised. *)
Definition returned_chunks (run : res (list Document) * heap)
  : list Document :=
  match run.1 with
  | Ok r => r
  | Raise _ => []
  end.

(** Chunks used as concrete inputs below: a text of twelve characters with
    a blank stretch and a short text, both with the same metadata dict. *)
Definition sample_heap : heap :=
  [ {[ lit "source" := PyStr (lit "docs/guide.md") ]} ].
Definition sample_long : Document := mkDocument (lit "abcd    efgh") 0%nat.
Definition sample_short : Document := mkDocument (lit "xyz") 0%nat.

(** The same chunks over a heap whose one dict is empty, and the re-split
    of the short chunk followed by the long one with a limit of 4. *)
Definition plain_heap : heap := [∅].
Definition sample_run : res (list Document) * heap :=
  _resplit_oversize_chunks by_copy ([sample_short] ++ sample_long :: []) 4
    plain_heap.

(** The batches of a chunk sequence: consecutive slices of
    [EMBED_BATCH_SIZE] chunks, [ceil(n / EMBED_BATCH_SIZE)] of them. *)
Definition batches (chunks : list Document) : list (list Document) :=
  (fun k : nat =>
     slice chunks (Z.of_nat k * EMBED_BATCH_SIZE)
       (Z.of_nat k * EMBED_BATCH_SIZE + EMBED_BATCH_SIZE))
    <$> seq 0 (Z.to_nat (ceil_div (len chunks) EMBED_BATCH_SIZE)).

(** Storing batches in order, from the batch numbered [k + 1], and stopping
    at the first failure: the events, the failure if there is one, and the
    heap and the services afterwards. *)
Fixpoint store_in_order {World : Type}
    (add : list Document -> heap -> World -> reply unit * heap * World)
    (bs : list (list Document)) (k : nat) (num_batches total : Z)
    (h : heap) (w : World)
  : list event * option string * heap * World :=
  match bs with
  | [] => ([], None, h, w)
  | b :: bs' =>
      match add b h w with
      | (Fails e, h1, w1) =>
          ([AddDocuments b;
            Stderr (MsgBatchFailed (Z.of_nat k + 1) num_batches e)],
           Some e, h1, w1)
      | (Returns _, h1, w1) =>
          let '(evs, failure, h2, w2) :=
            store_in_order add bs' (S k) num_batches total h1 w1 in
          (AddDocuments b
           :: Stdout (MsgBatchDone (Z.of_nat k + 1) num_batches
                        (Z.min ((Z.of_nat k + 1) * EMBED_BATCH_SIZE) total)
                        total)
           :: evs, failure, h2, w2)
      end
  end.

(** The state after calling the store on each of the given batches, whatever
    the calls answer. *)
Fixpoint replay {World : Type}
    (add : list Document -> heap -> World -> reply unit * heap * World)
    (bs : list (list Document)) (h : heap) (w : World) : heap * World :=
  match bs with
  | [] => (h, w)
  | b :: bs' => let '(_, h1, w1) := add b h w in replay add bs' h1 w1
  end.

(** The part of [s] before the first [c]; all of [s] when there is none. *)
Fixpoint upto (c : ascii) (s : str) : str :=
  match s with
  | [] => []
  | x :: s' => if bool_decide (x = c) then [] else x :: upto c s'
  end.

(** The part of [s] after the last [c]; all of [s] when there is none. *)
Definition after_last (c : ascii) (s : str) : str :=
  reverse (upto c (reverse s)).

(** How a field reads under [get(key) or ""]: a string as its text; an
    absent field, [None] and [0] as the empty string; a number other than
    [0] as no string at all. *)
Definition read_text (metadata : pydict) (key : str) : option str :=
  match metadata !! key with
  | None | Some PyNone => Some []
  | Some (PyStr s) => Some s
  | Some (PyInt n) => if decide (n = 0) then Some [] else None
  end.

(** The extension derived from the text of the [source] field: none
    without a ['.'] in the stripped text; else the part after the last
    ['.'], cut at the first ['/'] and then at the first ['?'], in lower
    case, behind a ['.']. *)
Definition derived_extension (source_text : str) : str :=
  let source := strip source_text in
  if decide ("."%char ∈ source)
  then "."%char :: lower (upto "?" (upto "/" (after_last "." source)))
  else [].

(** The extension derived from the [source] field of a dict. *)
Definition source_extension (metadata : pydict) : str :=
  derived_extension (default [] (read_text metadata (lit "source"))).

(** The table, in words: [.md] and [.markdown] are Markdown, [.rst] is
    RestructuredText, and nothing else has a language. *)
Definition language_of (ext : str) : option Language :=
  if decide (ext = lit ".md" \/ ext = lit ".markdown") then Some MARKDOWN
  else if decide (ext = lit ".rst") then Some RST
  else None.

(** The extension that is looked up, in the words of the specification:
    the [file_extension] field when it is present and not empty, the
    extension derived from [source] otherwise. *)
Definition extension_as_specified (metadata : pydict) : str :=
  match metadata !! lit "file_extension" with
  | Some (PyStr (c :: fe)) => lower (strip (c :: fe))
  | _ => derived_extension (default [] (read_text metadata (lit "source")))
  end.

(** The exception of [strip] on an [int]. *)
Definition no_strip : exn :=
  AttributeError "'int' object has no attribute 'strip'".

(** A document whose [file_extension] is a single space and whose [source]
    ends in [.md]; and one whose [file_extension] is the number 5. *)
Definition blank_extension_metadata : pydict :=
  <[lit "file_extension" := PyStr (lit " ")]>
    (<[lit "source" := PyStr (lit "README.md")]> ∅).
Definition number_extension_metadata : pydict :=
  {[ lit "file_extension" := PyInt 5 ]}.

(** What every [Document] constructor does with the dict it is given: the
    new document holds a dict with the pairs of that dict, and the dicts
    that exist stay as they are. *)
Record stores_pairs (hold : loc -> heap -> loc * heap) : Prop := {
  hold_valid : forall m h,
    (m < length h)%nat -> ((hold m h).1 < length (hold m h).2)%nat;
  hold_frame : forall m h l0,
    (l0 < length h)%nat -> (hold m h).2 !! l0 = h !! l0;
  hold_pairs : forall m h,
    (m < length h)%nat -> (hold m h).2 !! (hold m h).1 = h !! m
}.

(** A constructor that stores a dict of its own. *)
Definition stores_copy (hold : loc -> heap -> loc * heap) : Prop :=
  forall m h, (length h <= (hold m h).1)%nat.

(** Any change in place of the dict that [d] refers to (setting or deleting
    keys, [update], [clear]): [f] is what it does to the dict.
    [metadata_setitem d k v] is [metadata_mutate d (insert k v)]. *)
Definition metadata_mutate (d : Document) (f : pydict -> pydict) (h : heap)
  : heap :=
  alter f (metadata d) h.

(** The two slices of [sample_long] at a limit of 4, as a copying
    constructor builds them over [sample_heap]: the first free locations
    are 1 and 2. *)
Definition sample_slice1 : Document := mkDocument (lit "abcd") 1%nat.
Definition sample_slice2 : Document := mkDocument (lit "efgh") 2%nat.

(* ===================================================================== *)
(** * The splitter of the library                                          *)
(* ===================================================================== *)

(** [langchain_text_splitters.RecursiveCharacterTextSplitter], the library
    class that [get_text_splitter] and [get_text_splitter_for_language]
    configure and whose [split_documents] the pipeline calls in its
    splitting step. The module follows the library's methods by name. *)
Module LangChain.

(** The regular expressions of the separator tables. *)
Inductive regex : Type :=
| Chr (c : ascii)
| AnyChar
| Cat (r1 r2 : regex)
| Rep (r : regex) (lo : nat) (hi : option nat).

(** A separator: a literal string (the empty string included) or a
    pattern. *)
Inductive separator : Type :=
| Literal (s : str)
| Pattern (r : regex).

(** The lengths of the repetitions of a pattern at the start of [s]: [k]
    counts the repetitions so far, [step] gives the lengths of one. *)
Fixpoint rep_lengths (step : str -> list nat) (fuel k lo : nat)
    (hi : option nat) (s : str) : list nat :=
  let here := if (lo <=? k)%nat then [0%nat] else [] in
  match fuel with
  | O => here
  | S fuel' =>
      let more :=
        if match hi with Some n => (k <? n)%nat | None => true end
        then
          n1 ← filter (fun n => (0 < n)%nat) (step s);
          (fun n2 => (n1 + n2)%nat)
            <$> rep_lengths step fuel' (S k) lo hi (drop n1 s)
        else [] in
      more ++ here
  end.

(** The lengths of the matches of a pattern at the start of [s]. *)
Fixpoint match_lengths (r : regex) (s : str) : list nat :=
  match r with
  | Chr c =>
      match s with
      | x :: _ => if bool_decide (x = c) then [1%nat] else []
      | [] => []
      end
  | AnyChar =>
      match s with
      | x :: _ => if bool_decide (x = newline) then [] else [1%nat]
      | [] => []
      end
  | Cat r1 r2 =>
      n1 ← match_lengths r1 s;
      (fun n2 => (n1 + n2)%nat) <$> match_lengths r2 (drop n1 s)
  | Rep r1 lo hi =>
      rep_lengths (match_lengths r1) (length s) 0 lo hi s
  end.

Fixpoint literal (s : str) : regex :=
  match s with
  | [] => Rep (Chr "000") 0 (Some 0%nat)
  | [c] => Chr c
  | c :: s' => Cat (Chr c) (literal s')
  end.

Definition regex_of (sep : separator) : regex :=
  match sep with
  | Literal s => literal s
  | Pattern r => r
  end.

(** The match at the start of [s]: the longest one. The patterns of the
    tables have at most one match at a position. *)
Definition match_here (r : regex) (s : str) : option nat :=
  match match_lengths r s with
  | [] => None
  | n :: ns => Some (foldr Nat.max n ns)
  end.

(** [re.search(pattern, text)]: is there a match anywhere. *)
Fixpoint search (r : regex) (s : str) : bool :=
  match match_here r s with
  | Some _ => true
  | None =>
      match s with
      | [] => false
      | _ :: s' => search r s'
      end
  end.

(** [re.split("(pattern)", text)] for a pattern that matches no empty
    string: the texts between the matches with the matches between them,
    [[t0; m1; t1; m2; t2; ...]]. [acc] is the text since the last match, in
    reverse. *)
Fixpoint re_split (r : regex) (fuel : nat) (acc : str) (s : str)
  : list str :=
  match fuel with
  | O => [reverse acc ++ s]
  | S fuel' =>
      match s with
      | [] => [reverse acc]
      | x :: s' =>
          match match_here r s with
          | Some (S n) =>
              reverse acc :: take (S n) s
              :: re_split r fuel' [] (drop (S n) s)
          | Some O | None => re_split r fuel' (x :: acc) s'
          end
      end
  end.

(** [[_splits[i] + _splits[i + 1] for i in range(1, len(_splits), 2)]] *)
Fixpoint pair_up (splits : list str) : list str :=
  match splits with
  | m :: t :: rest => (m ++ t) :: pair_up rest
  | [m] => []
  | [] => []
  end.

(** [_split_text_with_regex(text, separator, keep_separator=True)] *)
Definition _split_text_with_regex (text : str) (sep : separator)
  : list str :=
  let splits :=
    match sep with
    | Literal [] => (fun c => [c]) <$> text
    | _ =>
        match re_split (regex_of sep) (length text) [] text with
        | [] => []
        | t0 :: rest => t0 :: pair_up rest
        end
    end in
  filter (fun s => s <> []) splits.

(** [Language.MARKDOWN] and [Language.RST] in
    [get_separators_for_language]. *)
Definition plus (c : ascii) : regex := Rep (Chr c) 1 None.

Definition markdown_separators : list separator :=
  [ Pattern (Cat (Chr newline)
               (Cat (Rep (Chr "#") 1 (Some 6%nat)) (Chr " ")));
    Literal (lit "```" ++ [newline]);
    Pattern (Cat (Chr newline)
               (Cat (Chr "*") (Cat (Chr "*") (Cat (plus "*") (Chr newline)))));
    Pattern (Cat (Chr newline)
               (Cat (Chr "-") (Cat (Chr "-") (Cat (plus "-") (Chr newline)))));
    Pattern (Cat (Chr newline)
               (Cat (Chr "_") (Cat (Chr "_") (Cat (plus "_") (Chr newline)))));
    Literal [newline; newline];
    Literal [newline];
    Literal (lit " ");
    Literal [] ].

Definition rst_separators : list separator :=
  [ Pattern (Cat (Chr newline) (Cat (plus "=") (Chr newline)));
    Pattern (Cat (Chr newline) (Cat (plus "-") (Chr newline)));
    Pattern (Cat (Chr newline) (Cat (plus "*") (Chr newline)));
    Pattern (Cat (Chr newline)
               (Cat (Chr newline)
                  (Cat AnyChar
                     (Cat AnyChar
                        (Cat (Rep (Chr " ") 0 None)
                           (Cat (Chr newline) (Chr newline)))))));
    Literal [newline; newline];
    Literal [newline];
    Literal (lit " ");
    Literal [] ].

Definition separators_of (sp : Splitter) : list separator :=
  match sp with
  | RecursiveCharacterTextSplitter _ _ seps => Literal <$> seps
  | from_language MARKDOWN _ _ => markdown_separators
  | from_language RST _ _ => rst_separators
  end.

Definition chunk_size_of (sp : Splitter) : Z :=
  match sp with
  | RecursiveCharacterTextSplitter size _ _ | from_language _ size _ => size
  end.

Definition chunk_overlap_of (sp : Splitter) : Z :=
  match sp with
  | RecursiveCharacterTextSplitter _ overlap _
  | from_language _ _ overlap => overlap
  end.

(** [_join_docs] with an empty separator (the separators are kept in the
    pieces): join, strip, [None] for nothing left. *)
Definition _join_docs (docs : list str) : option str :=
  let text := strip (concat docs) in
  match text with [] => None | _ => Some text end.

Definition append_doc (docs : list str) (doc : option str) : list str :=
  match doc with Some d => docs ++ [d] | None => docs end.

(** The [while] loop of [_merge_splits]: drop pieces from the front while
    more than the overlap is left, or the next piece does not fit. *)
Fixpoint pop_front (chunk_size chunk_overlap next_len : Z)
    (current_doc : list str) (total : Z) : list str * Z :=
  match current_doc with
  | [] => ([], total)
  | d :: rest =>
      if (chunk_overlap <? total)
         || ((chunk_size <? total + next_len) && (0 <? total))
      then pop_front chunk_size chunk_overlap next_len rest (total - len d)
      else (current_doc, total)
  end.

(** [_merge_splits(splits, "")] *)
Fixpoint merge_loop (chunk_size chunk_overlap : Z) (splits : list str)
    (docs current_doc : list str) (total : Z) : list str :=
  match splits with
  | [] => append_doc docs (_join_docs current_doc)
  | d :: splits' =>
      let '(docs, current_doc, total) :=
        if chunk_size <? total + len d then
          match current_doc with
          | [] => (docs, current_doc, total)
          | _ :: _ =>
              let docs := append_doc docs (_join_docs current_doc) in
              let '(cur, tot) :=
                pop_front chunk_size chunk_overlap (len d) current_doc total in
              (docs, cur, tot)
          end
        else (docs, current_doc, total) in
      merge_loop chunk_size chunk_overlap splits' docs
        (current_doc ++ [d]) (total + len d)
  end.

Definition _merge_splits (chunk_size chunk_overlap : Z) (splits : list str)
  : list str :=
  merge_loop chunk_size chunk_overlap splits [] [] 0.

(** The loop over the pieces in [_split_text]: short pieces are collected
    and merged; a long piece is split further with the separators that are
    left, or taken as it is when none is left. *)
Fixpoint split_pieces (chunk_size chunk_overlap : Z)
    (further : option (str -> list str)) (splits : list str)
    (good final : list str) : list str :=
  match splits with
  | [] =>
      match good with
      | [] => final
      | _ :: _ => final ++ _merge_splits chunk_size chunk_overlap good
      end
  | s :: splits' =>
      if len s <? chunk_size
      then split_pieces chunk_size chunk_overlap further splits'
             (good ++ [s]) final
      else
        let final :=
          match good with
          | [] => final
          | _ :: _ => final ++ _merge_splits chunk_size chunk_overlap good
          end in
        let final :=
          match further with
          | None => final ++ [s]
          | Some f => final ++ f s
          end in
        split_pieces chunk_size chunk_overlap further splits' [] final
  end.

(** [_split_text(text, separators)]: the first separator that is empty or
    that occurs in the text is used, the last one when there is none; long
    pieces go on with the separators after it. *)
Fixpoint _split_text (chunk_size chunk_overlap : Z)
    (separators : list separator) (text : str) : list str :=
  match separators with
  | [] => [text]
  | sep :: rest =>
      let use (further : option (str -> list str)) :=
        split_pieces chunk_size chunk_overlap further
          (_split_text_with_regex text sep) [] [] in
      match sep with
      | Literal [] => use None
      | _ =>
          if search (regex_of sep) text then
            match rest with
            | [] => use None
            | _ :: _ => use (Some (_split_text chunk_size chunk_overlap rest))
            end
          else
            match rest with
            | [] => use None
            | _ :: _ => _split_text chunk_size chunk_overlap rest text
            end
      end
  end.

(** [split_text] after the checks of the constructor. *)
Definition split_text (sp : Splitter) (text : str) : reply (list str) :=
  let size := chunk_size_of sp in
  let overlap := chunk_overlap_of sp in
  if size <=? 0 then Fails "chunk_size must be > 0"
  else if overlap <? 0 then Fails "chunk_overlap must be >= 0"
  else if size <? overlap
       then Fails "Got a larger chunk overlap than chunk size"
  else Returns (_split_text size overlap (separators_of sp) text).

(** [create_documents]: every chunk gets a deep copy of the metadata of its
    document. *)
Fixpoint create_documents (hold : loc -> heap -> loc * heap)
    (chunks : list str) (m : loc) (h : heap) : list Document * heap :=
  match chunks with
  | [] => ([], h)
  | chunk :: chunks' =>
      let '(l, h1) := alloc (deref h m) h in
      let '(d, h2) := new_Document hold chunk l h1 in
      let '(ds, h3) := create_documents hold chunks' m h2 in
      (d :: ds, h3)
  end.

Fixpoint split_documents (hold : loc -> heap -> loc * heap) (sp : Splitter)
    (documents : list Document) (h : heap)
  : reply (list Document) * heap :=
  match documents with
  | [] =>
      match split_text sp [] with
      | Fails msg => (Fails msg, h)
      | Returns _ => (Returns [], h)
      end
  | doc :: documents' =>
      match split_text sp (page_content doc) with
      | Fails msg => (Fails msg, h)
      | Returns chunks =>
          let '(ds, h1) := create_documents hold chunks (metadata doc) h in
          match split_documents hold sp documents' h1 with
          | (Fails msg, h2) => (Fails msg, h2)
          | (Returns ds', h2) => (Returns (ds ++ ds'), h2)
          end
      end
  end.

End LangChain.

(** A pattern that cannot match without a character [c] with [P c]: such a
    character stands in it outside every repetition that may be empty. *)
Fixpoint needs (P : ascii -> bool) (r : LangChain.regex) : bool :=
  match r with
  | LangChain.Chr c => P c
  | LangChain.AnyChar => false
  | LangChain.Cat r1 r2 => needs P r1 || needs P r2
  | LangChain.Rep r1 lo _ => (0 <? lo)%nat && needs P r1
  end.

(** [list(text)]: the characters of a text, each as a string. *)
Definition singles (text : str) : list str := (fun c => [c]) <$> text.

(** The scenario of C4: one document with [file_extension=".md"] and a text
    of 1200 characters without whitespace. *)
Definition scenario_heap : heap :=
  [ {[ lit "file_extension" := PyStr (lit ".md") ]} ].
Definition scenario_doc : Document :=
  mkDocument (replicate 1200 "x"%char) 0%nat.

(** The scenario through the splitting step, with the library's splitter
    and either constructor: [chunk_size = MAX_CHARS = 500] and the overlap
    [max(50, 500 // 10)] that [run_pipeline] derives. *)
Definition scenario_step2 (hold : loc -> heap -> loc * heap)
  : res (list Document) * heap :=
  _chunk_documents_with_language_awareness 500
    (LangChain.split_documents hold) [scenario_doc]
    500 (Z.max 50 (500 / 10)) scenario_heap.

(** A run from [s] does not end in the [AssertionError] of the invariant
    check. *)
Definition safe {World A} (m : M World A) (s : state World) : Prop :=
  forall count max_chars indices,
    (m s).1 <> Raise (AssertionError count max_chars indices).

(** A batch the store may be given: 1 to [EMBED_BATCH_SIZE] chunks, each
    within the limit. *)
Definition batch_ok (max_chars : Z) (b : list Document) : Prop :=
  0 < len b <= EMBED_BATCH_SIZE
  /\ Forall (fun d => len (page_content d) <= max_chars) b.

(** A run from [s] only adds events to the trace, and the store calls among
    them are on batches that are [batch_ok]. *)
Definition stores_ok {World A} (max_chars : Z) (m : M World A)
    (s : state World) : Prop :=
  exists evs,
    st_trace (m s).2 = st_trace s ++ evs
    /\ Forall (batch_ok max_chars) (calls evs).

(** The key under which the chunking step files a document, when the
    classifier returns. *)
Definition language_key (h : heap) (d : Document) : res lang_key :=
  match get_language_from_metadata (deref h (metadata d)) with
  | Raise e => Raise e
  | Ok (Some l) => Ok (KeyLanguage l)
  | Ok None => Ok KeyDefault
  end.


(** What the grouping loop keeps true: the keys are distinct, and the group
    of a key holds, in order, the documents seen so far that have it. *)
Definition grouped (h : heap) (seen : list Document)
    (by_lang : list (lang_key * list Document)) : Prop :=
  NoDup (fst <$> by_lang)
  /\ (forall k g, (k, g) ∈ by_lang ->
        g <> [] /\ g = filter (fun d => language_key h d = Ok k) seen)
  /\ (forall d, d ∈ seen ->
        exists k, language_key h d = Ok k /\ k ∈ fst <$> by_lang).

(* ===================================================================== *)
(** * loaders.py: the GitHub file filter and the source loaders            *)
(* ===================================================================== *)

(** [s.startswith(prefix)] and [s.endswith(suffix)] *)
Definition startswith (s prefix : str) : bool :=
  bool_decide (prefix `prefix_of` s).
Definition endswith (s suffix : str) : bool :=
  bool_decide (suffix `suffix_of` s).

(** [s.rstrip(c)] for one character [c]. *)
Fixpoint lstrip_char (c : ascii) (s : str) : str :=
  match s with
  | [] => []
  | x :: s' => if bool_decide (x = c) then lstrip_char c s' else s
  end.
Definition rstrip_char (c : ascii) (s : str) : str :=
  reverse (lstrip_char c (reverse s)).

(** The test of [_filter] on one include path [p], lines 59-65. *)
Definition include_match (path p : str) : bool :=
  if bool_decide (path = p) then true
  else if endswith p (lit "/") || contains "/" (rstrip_char "/" p)
       then startswith path (rstrip_char "/" p ++ lit "/")
       else startswith path p.

(** The loop [for p in include_paths], lines 58-66. *)
Fixpoint include_loop (path : str) (include_paths : list str) : bool :=
  match include_paths with
  | [] => false
  | p :: ps => if include_match path p then true else include_loop path ps
  end.

(** [_make_github_file_filter(extensions, include_paths)]: the [_filter]
    it returns. *)
Definition _make_github_file_filter (extensions : list str)
    (include_paths : option (list str)) : str -> bool :=
  fun path =>
    if negb (existsb (endswith path) extensions) then false
    else
      match include_paths with
      | None | Some [] => true
      | Some (p :: ps) => include_loop path (p :: ps)
      end.

(** One entry of [sources] in the configuration: each key is absent
    ([None]) or holds a value; [id] and [branch] are read with a default, so
    a key that is present with a null value is kept apart from an absent
    one. The [type] is stripped and lower-cased by the code and can be any
    value; the other fields are handed to the libraries as they are. *)
Record source_config : Type := mkSource {
  cfg_id : option pyval;
  cfg_type : option pyval;
  cfg_url : option str;
  cfg_urls : option (list str);
  cfg_repo : option str;
  cfg_branch : option pyval;
  cfg_include_paths : option (list str);
  cfg_file_extensions : option (list str);
  cfg_access_token : option str
}.

(** [x or default] on an optional string. *)
Definition str_or (x : option str) (default : str) : str :=
  match x with
  | Some (c :: v) => c :: v
  | Some [] | None => default
  end.

(** [x or []] on an optional list of strings. *)
Definition list_or_empty (x : option (list str)) : list str :=
  match x with Some l => l | None => [] end.

(** [for d in docs: d.metadata[key] = value] *)
Fixpoint set_all (docs : list Document) (key : str) (value : pyval)
    (h : heap) : heap :=
  match docs with
  | [] => h
  | d :: docs' => set_all docs' key value (metadata_setitem d key value h)
  end.

(** Lines 125-129: the [file_extension] a GitHub document gets from its
    [source]. The [strip] call raises on a true [source] without that method;
    the documents before it keep what they were given. *)
Fixpoint set_file_extensions (docs : list Document) (h : heap)
  : res unit * heap :=
  match docs with
  | [] => (Ok tt, h)
  | d :: docs' =>
      match strip_method (get_or_empty (deref h (metadata d)) (lit "source"))
      with
      | Raise e => (Raise e, h)
      | Ok src =>
          let h1 :=
            if contains "." src
            then metadata_setitem d (lit "file_extension")
                   (PyStr ("."%char
                           :: lower (first (split "?" (first (split "/"
                                       (last (rsplit1 "." src)))))))) h
            else h in
          set_file_extensions docs' h1
      end
  end.

(** The five loader types. *)
Definition loader_types : list str :=
  [lit "url"; lit "urls"; lit "pdf_url"; lit "pdf_urls"; lit "github_repo"].

Section Loaders.

Variable World : Type.

(** [os.environ.get] *)
Variable environ : str -> option str.

(** The libraries: [WebBaseLoader(url_or_urls).load()], the download and
    [PyPDFLoader] of [_load_pdf_from_url], and [GithubFileLoader] with its
    file filter. *)
Variable WebBaseLoader :
  str + list str -> heap -> World -> reply (list Document) * heap * World.
Variable _load_pdf_from_url :
  str -> heap -> World -> reply (list Document) * heap * World.
Variable GithubFileLoader :
  str -> pyval -> option str -> (str -> bool) -> heap -> World
  -> reply (list Document) * heap * World.

(** [load_config(config_path)]: the [sources] of the YAML file. *)
Variable load_config :
  string -> World -> reply (list source_config) * World.

Definition loaded (r : reply (list Document) * heap * World)
  : res (list Document) * heap * World :=
  match r with
  | (Returns docs, h, w) => (Ok docs, h, w)
  | (Fails msg, h, w) => (Raise (CollaboratorError msg), h, w)
  end.

(** Lines 102-107: [for url in urls: ...] *)
Fixpoint load_pdf_urls (urls : list str) (docs : list Document)
    (h : heap) (w : World) : res (list Document) * heap * World :=
  match urls with
  | [] => (Ok docs, h, w)
  | url :: urls' =>
      match _load_pdf_from_url url h w with
      | (Fails msg, h1, w1) => (Raise (CollaboratorError msg), h1, w1)
      | (Returns part, h1, w1) =>
          load_pdf_urls urls' (docs ++ part)
            (set_all part (lit "source_url") (PyStr url) h1) w1
      end
  end.

(** Lines 79-135: the branches on the loader type and the [source_id]
    loop. The messages of the [ValueError]s are kept without the source id
    and the type that the code interpolates into them. *)
Definition load_documents_of_type (loader_type : str)
    (source : source_config) (h : heap) (w : World)
  : res (list Document) * heap * World :=
  let source_id := default (PyStr (lit "unknown")) (cfg_id source) in
  let result :=
    if bool_decide (loader_type = lit "url") then
      match cfg_url source with
      | None | Some [] => (Raise (ValueError "type=url requires 'url'"), h, w)
      | Some url => loaded (WebBaseLoader (inl url) h w)
      end
    else if bool_decide (loader_type = lit "urls") then
      match list_or_empty (cfg_urls source) with
      | [] => (Raise (ValueError "type=urls requires 'urls' list"), h, w)
      | urls => loaded (WebBaseLoader (inr urls) h w)
      end
    else if bool_decide (loader_type = lit "pdf_url") then
      match cfg_url source with
      | None | Some [] =>
          (Raise (ValueError "type=pdf_url requires 'url'"), h, w)
      | Some url =>
          match loaded (_load_pdf_from_url url h w) with
          | (Ok docs, h1, w1) =>
              (Ok docs, set_all docs (lit "source_url") (PyStr url) h1, w1)
          | failed => failed
          end
      end
    else if bool_decide (loader_type = lit "pdf_urls") then
      match list_or_empty (cfg_urls source) with
      | [] => (Raise (ValueError "type=pdf_urls requires 'urls' list"), h, w)
      | urls => load_pdf_urls urls [] h w
      end
    else if bool_decide (loader_type = lit "github_repo") then
      match cfg_repo source with
      | None | Some [] =>
          (Raise (ValueError "type=github_repo requires 'repo'"), h, w)
      | Some repo =>
          let branch := default (PyStr (lit "main")) (cfg_branch source) in
          let include_paths := list_or_empty (cfg_include_paths source) in
          let extensions :=
            match list_or_empty (cfg_file_extensions source) with
            | [] => [lit ".md"; lit ".rst"; lit ".txt"]
            | exts => exts
            end in
          let file_filter :=
            _make_github_file_filter extensions
              match include_paths with [] => None | ps => Some ps end in
          let access_token :=
            match cfg_access_token source with
            | Some (c :: t) => Some (c :: t)
            | Some [] | None => environ (lit "GITHUB_PERSONAL_ACCESS_TOKEN")
            end in
          match loaded (GithubFileLoader repo branch access_token file_filter
                          h w) with
          | (Ok docs, h1, w1) =>
              match set_file_extensions docs h1 with
              | (Ok _, h2) => (Ok docs, h2, w1)
              | (Raise e, h2) => (Raise e, h2, w1)
              end
          | failed => failed
          end
      end
    else (Raise (ValueError "unsupported type"), h, w) in
  match result with
  | (Ok docs, h1, w1) =>
      (Ok docs, set_all docs (lit "source_id") source_id h1, w1)
  | failed => failed
  end.

(** Line 77 reads the type with [(source.get("type") or "url")], strips and
    lower-cases it; the [strip] call raises on a true value that is no
    string. *)
Definition load_documents_for_source (source : source_config)
    (h : heap) (w : World) : res (list Document) * heap * World :=
  match strip_method (py_or (default PyNone (cfg_type source)) (lit "url"))
  with
  | Raise e => (Raise e, h, w)
  | Ok stripped => load_documents_of_type (lower stripped) source h w
  end.

(** Lines 141-145: [for source in sources: ...] *)
Fixpoint load_sources (sources : list source_config)
    (all_docs : list Document) (h : heap) (w : World)
  : res (list Document) * heap * World :=
  match sources with
  | [] => (Ok all_docs, h, w)
  | source :: sources' =>
      match load_documents_for_source source h w with
      | (Ok docs, h1, w1) => load_sources sources' (all_docs ++ docs) h1 w1
      | failed => failed
      end
  end.

Definition load_all_documents (config_path : string) (h : heap) (w : World)
  : res (list Document) * heap * World :=
  match load_config config_path w with
  | (Fails msg, w1) => (Raise (CollaboratorError msg), h, w1)
  | (Returns sources, w1) => load_sources sources [] h w1
  end.

End Loaders.

(** The loader type of a source, as [load_documents_for_source] reads it:
    the [type] field, ["url"] when it is absent or empty, stripped and in
    lower case. *)
Definition loader_type_of (source : source_config) : res str :=
  match strip_method (py_or (default PyNone (cfg_type source)) (lit "url"))
  with
  | Raise e => Raise e
  | Ok stripped => Ok (lower stripped)
  end.

(** A loader type that is not supported, or for which the source lacks
    the field it needs. *)
Definition missing_for (t : str) (source : source_config) : Prop :=
  t ∉ loader_types
  \/ ((t = lit "url" \/ t = lit "pdf_url")
      /\ str_or (cfg_url source) [] = [])
  \/ ((t = lit "urls" \/ t = lit "pdf_urls")
      /\ list_or_empty (cfg_urls source) = [])
  \/ (t = lit "github_repo" /\ str_or (cfg_repo source) [] = []).

(** A source whose type is a string that names no supported type, or that
    lacks the field that its type needs. *)
Definition invalid_source (source : source_config) : Prop :=
  exists t, loader_type_of source = Ok t /\ missing_for t source.

(** Sample sources, and loaders that return one document on the first dict
    of the heap: a source with an id and nothing else, a web page, and a
    GitHub repository whose type is spelled with blanks and capitals. *)
Definition source_without_url : source_config :=
  mkSource (Some (PyStr (lit "docs"))) None None None None None None None None.
Definition web_source : source_config :=
  mkSource (Some (PyStr (lit "site"))) (Some (PyStr (lit "url")))
    (Some (lit "http://example.org/")) None None None None None None.
Definition github_source : source_config :=
  mkSource None (Some (PyStr (lit " GitHub_Repo "))) None None
    (Some (lit "o/r"))
    None (Some [lit "docs/"]) None None.
Definition readme_heap : heap :=
  [ {[ lit "source" := PyStr (lit "https://github.com/o/r/README.MD") ]} ].
Definition readme : Document := mkDocument (lit "text") 0%nat.
Definition no_environ : str -> option str := fun _ => None.
Definition sample_web_loader
  : str + list str -> heap -> unit -> reply (list Document) * heap * unit :=
  fun _ h w => (Returns [readme], h, w).
Definition sample_pdf_loader
  : str -> heap -> unit -> reply (list Document) * heap * unit :=
  fun _ h w => (Returns [readme], h, w).
Definition sample_github_loader
  : str -> pyval -> option str -> (str -> bool) -> heap -> unit
    -> reply (list Document) * heap * unit :=
  fun _ _ _ _ h w => (Returns [readme], h, w).
Definition sample_config (sources : list source_config)
  : string -> unit -> reply (list source_config) * unit :=
  fun _ w => (Returns sources, w).
Definition sample_load (source : source_config) (h : heap)
  : res (list Document) * heap * unit :=
  load_documents_for_source unit no_environ sample_web_loader
    sample_pdf_loader sample_github_loader source h tt.

(* ===================================================================== *)
(** * Theory                                                              *)
(* ===================================================================== *)

(** ** Strings: whitespace *)

Lemma lstrip_nil_blank (s : str) : lstrip s = [] <-> blank s = true.
Proof.
  induction s as [|c s IH]; simpl; [done|].
  destruct (isspace c); simpl; [exact IH|]. split; discriminate.
Qed.

Lemma lstrip_blank_or_head (s : str) :
  (lstrip s = [] /\ blank s = true)
  \/ (exists c t, lstrip s = c :: t /\ isspace c = false /\ blank s = false).
Proof.
  induction s as [|c s IH]; simpl; [by left|].
  destruct (isspace c) eqn:Hc; simpl; [exact IH|].
  right. by exists c, s.
Qed.

Lemma blank_app (s t : str) : blank (s ++ t) = blank s && blank t.
Proof. apply forallb_app. Qed.

Lemma blank_reverse (s : str) : blank (reverse s) = blank s.
Proof.
  induction s as [|c s IH]; [done|].
  rewrite reverse_cons, blank_app, IH. simpl.
  rewrite andb_true_r. apply andb_comm.
Qed.

(** [strip] leaves nothing exactly on the blank strings. *)
Lemma strip_nil_blank (s : str) : strip s = [] <-> blank s = true.
Proof.
  unfold strip, rstrip.
  destruct (lstrip_blank_or_head s) as [[E B]|(c & t & E & Hc & B)]; rewrite E.
  - by rewrite B.
  - rewrite B. split; [|discriminate]. intros H.
    apply (f_equal reverse) in H. rewrite reverse_involutive in H.
    simpl in H. apply lstrip_nil_blank in H.
    rewrite blank_reverse in H. simpl in H. by rewrite Hc in H.
Qed.

Lemma truthy_strip (s : str) : truthy (strip s) = negb (blank s).
Proof.
  destruct (blank s) eqn:B.
  - apply strip_nil_blank in B. by rewrite B.
  - destruct (strip s) eqn:E; [|done].
    apply strip_nil_blank in E. congruence.
Qed.

Lemma blank_Forall (s : str) : blank s = true <-> Forall (fun c => isspace c = true) s.
Proof.
  unfold blank. rewrite forallb_forall, Forall_forall.
  split; intros H c Hc; apply H; by apply list_elem_of_In.
Qed.

Lemma blank_false_exists (s : str) :
  blank s = false <-> exists c, c ∈ s /\ isspace c = false.
Proof.
  induction s as [|c s IH]; simpl.
  - split; [discriminate|]. intros (c & Hc & _). by apply elem_of_nil in Hc.
  - destruct (isspace c) eqn:Hc; simpl.
    + rewrite IH. split.
      * intros (x & Hx & Hs). exists x. split; [by right|done].
      * intros (x & Hx & Hs). apply elem_of_cons in Hx as [->|Hx]; [congruence|].
        by exists x.
    + split; [|done]. intros _. exists c. split; [by left|done].
Qed.

Lemma nonspace_blank (s : str) : blank s = true -> nonspace s = [].
Proof.
  unfold nonspace. induction s as [|c s IH]; [done|].
  intros H. simpl in H. apply andb_true_iff in H as [Hc Hs].
  rewrite filter_cons_False by congruence. by apply IH.
Qed.

Lemma nonspace_app (s t : str) : nonspace (s ++ t) = nonspace s ++ nonspace t.
Proof. apply filter_app. Qed.

(** ** [range] with a positive step and fixed-width slices *)

Lemma ceil_div_bounds (a b : Z) :
  0 < b -> b * ceil_div a b - b < a <= b * ceil_div a b.
Proof.
  intros Hb. unfold ceil_div.
  pose proof (Z.mul_div_le (a + b - 1) b Hb).
  pose proof (Z.mul_succ_div_gt (a + b - 1) b Hb). lia.
Qed.

Lemma ceil_div_nonpos (a b : Z) : 0 < b -> a <= 0 -> ceil_div a b <= 0.
Proof. intros Hb Ha. pose proof (ceil_div_bounds a b Hb). nia. Qed.

Lemma ceil_div_pos (a b : Z) : 0 < b -> 0 < a -> 0 < ceil_div a b.
Proof. intros Hb Ha. pose proof (ceil_div_bounds a b Hb). nia. Qed.

Lemma ceil_div_step (a b : Z) : 0 < b -> ceil_div a b = ceil_div (a - b) b + 1.
Proof.
  intros Hb. unfold ceil_div.
  replace (a + b - 1) with (a - b + b - 1 + 1 * b) by lia.
  rewrite Z.div_add by lia. done.
Qed.

Lemma range_loop_multiples (fuel : nat) (i stop step : Z) :
  0 < step -> stop - i <= Z.of_nat fuel ->
  range_loop fuel i stop step
  = (fun k : nat => i + Z.of_nat k * step)
      <$> seq 0 (Z.to_nat (ceil_div (stop - i) step)).
Proof.
  intros Hs. revert i. induction fuel as [|fuel IH]; intros i Hf.
  - pose proof (ceil_div_nonpos (stop - i) step Hs). simpl.
    replace (Z.to_nat _) with 0%nat by lia. done.
  - simpl. destruct (Z.ltb_spec 0 step) as [_|]; [|lia].
    destruct (Z.ltb_spec i stop) as [Hlt|Hge].
    + rewrite IH by lia.
      rewrite (ceil_div_step (stop - i) step Hs).
      replace (stop - i - step) with (stop - (i + step)) by lia.
      assert (0 <= ceil_div (stop - (i + step)) step).
      { pose proof (ceil_div_bounds (stop - (i + step)) step Hs). nia. }
      rewrite Z2Nat.inj_add by lia. rewrite Nat.add_1_r. simpl.
      f_equal; [lia|].
      rewrite <- fmap_S_seq, <- list_fmap_compose.
      apply list_fmap_ext. intros _ k _. simpl. lia.
    + pose proof (ceil_div_nonpos (stop - i) step Hs).
      replace (Z.to_nat _) with 0%nat by lia. done.
Qed.

(** [range(0, stop, step)] for a positive step. *)
Lemma range_positive_step (stop step : Z) :
  0 < step -> 0 <= stop -> range 0 stop step = Ok (offsets stop step).
Proof.
  intros Hs Hstop. unfold range, offsets.
  destruct (Z.eqb_spec step 0) as [|_]; [lia|].
  rewrite range_loop_multiples by lia.
  rewrite Z.sub_0_r. do 2 f_equal.
Qed.

(** [range(0, stop, step)] for a negative step is empty. *)
Lemma range_negative_step (stop step : Z) :
  step < 0 -> 0 <= stop -> range 0 stop step = Ok [].
Proof.
  intros Hs Hstop. unfold range.
  destruct (Z.eqb_spec step 0) as [|_]; [lia|].
  destruct (Z.to_nat _) as [|fuel]; [done|]. simpl.
  destruct (Z.ltb_spec 0 step); [lia|].
  destruct (Z.ltb_spec stop 0); [lia|done].
Qed.

Lemma range_zero_step (stop : Z) :
  range 0 stop 0 = Raise (ValueError "range() arg 3 must not be zero").
Proof. done. Qed.

Lemma length_offsets (stop step : Z) :
  length (offsets stop step) = Z.to_nat (ceil_div stop step).
Proof. unfold offsets. by rewrite length_fmap, length_seq. Qed.

Lemma slice_nonneg {A} (l : list A) (a b : Z) :
  0 <= a <= b ->
  slice l a b = take (Z.to_nat b - Z.to_nat a) (drop (Z.to_nat a) l).
Proof.
  intros Hab. unfold slice, slice_bound.
  destruct (Z.ltb_spec a 0); [lia|]. destruct (Z.ltb_spec b 0); [lia|].
  destruct (Nat.le_gt_cases (Z.to_nat a) (length l)) as [Ha|Ha].
  - rewrite (Nat.min_l _ _ Ha).
    destruct (Nat.le_gt_cases (Z.to_nat b) (length l)) as [Hb|Hb].
    + by rewrite (Nat.min_l _ _ Hb).
    + rewrite Nat.min_r by lia.
      rewrite !take_ge; [done| |]; rewrite length_drop; lia.
  - rewrite !drop_ge by lia. by rewrite !take_nil.
Qed.

(** The slice the inner loop cuts at the [k]-th offset. *)
Lemma slice_at_offset {A} (l : list A) (k : nat) (m : Z) :
  0 < m ->
  slice l (Z.of_nat k * m) (Z.of_nat k * m + m)
  = take (Z.to_nat m) (drop (k * Z.to_nat m) l).
Proof.
  intros Hm. rewrite slice_nonneg by nia. f_equal; [nia|f_equal; nia].
Qed.

Lemma concat_fixed_width {A} (m n : nat) (l : list A) :
  (length l <= n * m)%nat ->
  concat ((fun k : nat => take m (drop (k * m) l)) <$> seq 0 n) = l.
Proof.
  revert l. induction n as [|n IH]; intros l Hl.
  - destruct l; [done|simpl in Hl; lia].
  - simpl. rewrite drop_0. rewrite <- fmap_S_seq, <- list_fmap_compose.
    transitivity (take m l ++ drop m l); [|apply take_drop]. f_equal.
    rewrite <- (IH (drop m l)) by (rewrite length_drop; lia).
    f_equal. apply list_fmap_ext. intros _ k _. simpl.
    by rewrite drop_drop.
Qed.

(** ** The re-split step as a per-chunk replacement *)

Section ResplitTheory.

Variable hold : loc -> heap -> loc * heap.

Lemma resplit_slices_new_Documents doc content max_chars starts result h :
  resplit_slices hold doc content max_chars starts result h
  = let '(ds, h') :=
      new_Documents hold (kept (cut content max_chars starts)) (metadata doc) h
    in (result ++ ds, h').
Proof.
  revert result h. induction starts as [|start starts IH]; intros result h.
  - simpl. by rewrite app_nil_r.
  - cbn [resplit_slices]. unfold kept, cut in *. rewrite fmap_cons.
    destruct (truthy (strip _)) eqn:Ht.
    + rewrite filter_cons_True by done. cbn [new_Documents].
      destruct (new_Document hold _ _ h) as [d h1].
      rewrite IH. destruct (new_Documents _ _ _ h1) as [ds h2].
      by rewrite <- app_assoc.
    + rewrite filter_cons_False by congruence. apply IH.
Qed.

Lemma resplit_loop_flat_mapM chunks max_chars result h :
  resplit_loop hold chunks max_chars result h
  = match flat_mapM (resplit_chunk hold max_chars) chunks h with
    | (Ok r, h') => (Ok (result ++ r), h')
    | (Raise e, h') => (Raise e, h')
    end.
Proof.
  revert result h. induction chunks as [|doc chunks IH]; intros result h.
  - simpl. by rewrite app_nil_r.
  - simpl. unfold resplit_chunk.
    destruct (len (page_content doc) <=? max_chars).
    + rewrite IH. destruct (flat_mapM _ chunks h) as [[r|e] h']; [|done].
      by rewrite <- app_assoc.
    + destruct (range 0 _ max_chars) as [starts|e]; [|done].
      rewrite resplit_slices_new_Documents.
      destruct (new_Documents _ _ _ h) as [ds h1]. rewrite IH.
      destruct (flat_mapM _ chunks h1) as [[r|e] h']; [|done].
      by rewrite <- app_assoc.
Qed.

(** The source function is the flat-map of [resplit_chunk]. *)
Lemma resplit_flat_mapM chunks max_chars h :
  _resplit_oversize_chunks hold chunks max_chars h
  = flat_mapM (resplit_chunk hold max_chars) chunks h.
Proof.
  unfold _resplit_oversize_chunks. rewrite resplit_loop_flat_mapM.
  by destruct (flat_mapM _ chunks h) as [[r|e] h'].
Qed.

Lemma new_Documents_texts pieces m h :
  texts (new_Documents hold pieces m h).1 = pieces.
Proof.
  revert h. induction pieces as [|p pieces IH]; intros h; [done|].
  simpl. unfold new_Document. destruct (hold m h) as [l h1].
  specialize (IH h1). destruct (new_Documents hold pieces m h1) as [ds h2].
  simpl in *. by rewrite IH.
Qed.

Lemma length_new_Documents pieces m h :
  length (new_Documents hold pieces m h).1 = length pieces.
Proof.
  rewrite <- (new_Documents_texts pieces m h) at 2.
  unfold texts. by rewrite length_fmap.
Qed.

(** For a positive limit the replacement of a chunk never raises, and its
    texts are [replacement]. *)
Lemma resplit_chunk_positive max_chars doc h :
  0 < max_chars ->
  exists ds h', resplit_chunk hold max_chars doc h = (Ok ds, h')
    /\ texts ds = replacement max_chars (page_content doc).
Proof.
  intros Hm. unfold resplit_chunk, replacement.
  destruct (len (page_content doc) <=? max_chars); [by eauto|].
  rewrite range_positive_step by (unfold len; lia).
  pose proof (new_Documents_texts
    (kept (cut (page_content doc) max_chars
       (offsets (len (page_content doc)) max_chars))) (metadata doc) h) as Ht.
  destruct (new_Documents _ _ _ h) as [ds h']. by eauto.
Qed.

Lemma Forall_cut_len content max_chars starts :
  0 < max_chars ->
  Forall (fun start => 0 <= start) starts ->
  Forall (fun p => len p <= max_chars) (cut content max_chars starts).
Proof.
  intros Hm Hs. unfold cut. rewrite Forall_fmap.
  eapply Forall_impl; [exact Hs|]. intros start Hstart. simpl in *.
  rewrite slice_nonneg by lia. unfold len. rewrite length_take. lia.
Qed.

Lemma Forall_offsets_nonneg stop step :
  0 < step -> Forall (fun start => 0 <= start) (offsets stop step).
Proof.
  intros Hs. unfold offsets. rewrite Forall_fmap. apply Forall_forall.
  intros k _. simpl. apply Z.mul_nonneg_nonneg; lia.
Qed.

Lemma Forall_kept (P : str -> Prop) pieces :
  Forall P pieces -> Forall P (kept pieces).
Proof.
  unfold kept. rewrite !Forall_forall. intros H p Hp.
  apply list_elem_of_filter in Hp as [_ Hp]. by apply H.
Qed.

Lemma replacement_len max_chars content :
  0 < max_chars ->
  Forall (fun p => len p <= max_chars) (replacement max_chars content).
Proof.
  intros Hm. unfold replacement.
  destruct (Z.leb_spec (len content) max_chars) as [Hle|Hgt].
  - by apply Forall_singleton.
  - apply Forall_kept, Forall_cut_len; [done|].
    by apply Forall_offsets_nonneg.
Qed.

(** Whatever the limit, what replaces a chunk is within the limit. *)
Lemma resplit_chunk_compliant max_chars doc h ds h' :
  resplit_chunk hold max_chars doc h = (Ok ds, h') ->
  Forall (compliant max_chars) ds.
Proof.
  destruct (Z.lt_trichotomy max_chars 0) as [Hneg|[->|Hpos]].
  - unfold resplit_chunk.
    destruct (Z.leb_spec (len (page_content doc)) max_chars) as [Hle|Hgt].
    + unfold len in Hle. lia.
    + rewrite range_negative_step by (unfold len; lia).
      simpl. intros [= <- <-]. constructor.
  - unfold resplit_chunk.
    destruct (Z.leb_spec (len (page_content doc)) 0) as [Hle|Hgt].
    + intros [= <- <-]. by apply Forall_singleton.
    + by rewrite range_zero_step.
  - destruct (resplit_chunk_positive max_chars doc h Hpos)
      as (ds0 & h0 & E & Ht).
    rewrite E. intros [= <- <-].
    pose proof (replacement_len max_chars (page_content doc) Hpos) as Hl.
    rewrite <- Ht in Hl. unfold texts in Hl. by rewrite Forall_fmap in Hl.
Qed.

Lemma flat_mapM_app {A B} (f : A -> heap -> res (list B) * heap) l1 l2 h :
  flat_mapM f (l1 ++ l2) h
  = match flat_mapM f l1 h with
    | (Raise e, h1) => (Raise e, h1)
    | (Ok r1, h1) =>
        match flat_mapM f l2 h1 with
        | (Raise e, h2) => (Raise e, h2)
        | (Ok r2, h2) => (Ok (r1 ++ r2), h2)
        end
    end.
Proof.
  revert h. induction l1 as [|a l1 IH]; intros h; simpl.
  - by destruct (flat_mapM f l2 h) as [[r|e] h2].
  - destruct (f a h) as [[bs|e] h1]; [|done]. rewrite IH.
    destruct (flat_mapM f l1 h1) as [[r1|e] h2]; [|done].
    destruct (flat_mapM f l2 h2) as [[r2|e] h3]; [|done].
    by rewrite app_assoc.
Qed.

Lemma flat_mapM_Forall {A B} (f : A -> heap -> res (list B) * heap)
    (P : B -> Prop) l h r h' :
  (forall a h bs h1, f a h = (Ok bs, h1) -> Forall P bs) ->
  flat_mapM f l h = (Ok r, h') -> Forall P r.
Proof.
  intros Hf. revert h r h'. induction l as [|a l IH]; intros h r h'; simpl.
  - intros [= <- <-]. constructor.
  - destruct (f a h) as [[bs|e] h1] eqn:Ea; [|done].
    destruct (flat_mapM f l h1) as [[cs|e] h2] eqn:El; [|done].
    intros [= <- <-]. apply Forall_app. split; eauto.
Qed.

(** Whatever the limit, a result of the re-split step is within the limit. *)
Lemma resplit_compliant chunks max_chars h r h' :
  _resplit_oversize_chunks hold chunks max_chars h = (Ok r, h') ->
  Forall (compliant max_chars) r.
Proof.
  rewrite resplit_flat_mapM. apply flat_mapM_Forall.
  intros doc h0 ds h1. apply resplit_chunk_compliant.
Qed.

(** For a positive limit the re-split step returns, and the texts of its
    result are the replacements of the input texts, in order. *)
Lemma resplit_positive chunks max_chars h :
  0 < max_chars ->
  exists r h', _resplit_oversize_chunks hold chunks max_chars h = (Ok r, h')
    /\ texts r = texts chunks ≫= replacement max_chars.
Proof.
  intros Hm. rewrite resplit_flat_mapM. revert h.
  induction chunks as [|doc chunks IH]; intros h.
  - by exists [], h.
  - cbn [flat_mapM].
    destruct (resplit_chunk_positive max_chars doc h Hm) as (ds & h1 & -> & Ht).
    destruct (IH h1) as (r & h2 & -> & Hr).
    exists (ds ++ r), h2. split; [done|].
    unfold texts in *. rewrite fmap_app, Ht, Hr, fmap_cons.
    rewrite bind_cons. reflexivity.
Qed.

(** A sequence within the limit is returned as it is. *)
Lemma resplit_identity chunks max_chars h :
  Forall (compliant max_chars) chunks ->
  _resplit_oversize_chunks hold chunks max_chars h = (Ok chunks, h).
Proof.
  intros Hc. rewrite resplit_flat_mapM. revert h.
  induction Hc as [|doc chunks Hd _ IH]; intros h; [done|].
  simpl. unfold resplit_chunk.
  destruct (Z.leb_spec (len (page_content doc)) max_chars);
    [|unfold compliant in Hd; lia].
  by rewrite IH.
Qed.

(** The result on a sequence around one chunk: the results on what comes
    before, on the chunk and on what comes after, in that order. *)
Lemma resplit_decompose pre doc post max_chars h r h' :
  _resplit_oversize_chunks hold (pre ++ doc :: post) max_chars h = (Ok r, h') ->
  exists r_pre r_doc r_post h1 h2,
    _resplit_oversize_chunks hold pre max_chars h = (Ok r_pre, h1)
    /\ resplit_chunk hold max_chars doc h1 = (Ok r_doc, h2)
    /\ _resplit_oversize_chunks hold post max_chars h2 = (Ok r_post, h')
    /\ r = r_pre ++ r_doc ++ r_post.
Proof.
  setoid_rewrite resplit_flat_mapM. rewrite flat_mapM_app. cbn [flat_mapM].
  destruct (flat_mapM _ pre h) as [[r_pre|e] h1]; [|done].
  destruct (resplit_chunk hold max_chars doc h1) as [[r_doc|e] h2] eqn:E2;
    [|done].
  destruct (flat_mapM _ post h2) as [[r_post|e] h3] eqn:E3; [|done].
  intros [= <- <-]. by exists r_pre, r_doc, r_post, h1, h2.
Qed.

(** What replaces a chunk over the limit: the documents of the kept slices
    cut at the offsets of [range]. *)
Lemma resplit_chunk_oversize max_chars doc h ds h' :
  max_chars < len (page_content doc) ->
  resplit_chunk hold max_chars doc h = (Ok ds, h') ->
  exists starts,
    range 0 (len (page_content doc)) max_chars = Ok starts
    /\ texts ds = kept (cut (page_content doc) max_chars starts).
Proof.
  intros Hgt. unfold resplit_chunk.
  destruct (Z.leb_spec (len (page_content doc)) max_chars); [lia|].
  destruct (range 0 _ max_chars) as [starts|e]; [|done].
  pose proof (new_Documents_texts
    (kept (cut (page_content doc) max_chars starts)) (metadata doc) h) as Ht.
  destruct (new_Documents _ _ _ h) as [ds0 h0].
  intros [= <- <-]. by exists starts.
Qed.

Lemma resplit_chunk_within max_chars doc h :
  len (page_content doc) <= max_chars ->
  resplit_chunk hold max_chars doc h = (Ok [doc], h).
Proof.
  intros Hle. unfold resplit_chunk.
  by destruct (Z.leb_spec (len (page_content doc)) max_chars); [|lia].
Qed.

End ResplitTheory.

(** ** Fixed-width slices of a text *)

Lemma kept_nonblank (pieces : list str) :
  kept pieces = filter (fun p => blank p = false) pieces.
Proof.
  unfold kept. apply list_filter_iff. intros p.
  rewrite truthy_strip. by destruct (blank p).
Qed.

Lemma length_cut content max_chars starts :
  length (cut content max_chars starts) = length starts.
Proof. unfold cut. by rewrite length_fmap. Qed.

(** The [k]-th slice at the offsets [0, m, 2m, ...]. *)
Lemma cut_offsets_lookup content max_chars (k : nat) p :
  0 < max_chars ->
  cut content max_chars (offsets (len content) max_chars) !! k = Some p ->
  Z.of_nat k < ceil_div (len content) max_chars
  /\ p = take (Z.to_nat max_chars) (drop (k * Z.to_nat max_chars) content).
Proof.
  intros Hm. unfold cut, offsets. rewrite <- list_fmap_compose.
  rewrite list_lookup_fmap. intros Hk.
  destruct (seq 0 _ !! k) as [j|] eqn:Hj; [|done].
  apply lookup_seq in Hj as [-> Hlt]. simpl in Hk.
  injection Hk as <-. split; [lia|]. by apply slice_at_offset.
Qed.

Lemma concat_cut_offsets content max_chars :
  0 < max_chars ->
  concat (cut content max_chars (offsets (len content) max_chars)) = content.
Proof.
  intros Hm. unfold cut, offsets. rewrite <- list_fmap_compose.
  rewrite <- (concat_fixed_width (Z.to_nat max_chars)
               (Z.to_nat (ceil_div (len content) max_chars)) content) at 2.
  - f_equal. apply list_fmap_ext. intros _ k _. simpl.
    by apply slice_at_offset.
  - pose proof (ceil_div_bounds (len content) max_chars Hm).
    unfold len in *. nia.
Qed.

Lemma nonspace_concat_kept (pieces : list str) :
  nonspace (concat (kept pieces)) = nonspace (concat pieces).
Proof.
  rewrite kept_nonblank.
  induction pieces as [|p pieces IH]; [done|].
  simpl concat at 2. rewrite nonspace_app.
  destruct (blank p) eqn:B.
  - rewrite filter_cons_False by congruence.
    by rewrite (nonspace_blank p B).
  - rewrite filter_cons_True by done. simpl concat.
    by rewrite nonspace_app, IH.
Qed.

Lemma nonspace_count_concat (pieces : list str) :
  nonspace_count (concat pieces) = sum_list (nonspace_count <$> pieces).
Proof.
  unfold nonspace_count. induction pieces as [|p pieces IH]; [done|].
  simpl. by rewrite nonspace_app, length_app, IH.
Qed.

(* ===================================================================== *)
(** * The re-split step: losslessness, identity, drops, order             *)
(* ===================================================================== *)

(** C3. For a positive limit [max_chars] and a chunk of length
    [L > max_chars] anywhere in the sequence, the re-split step replaces
    the chunk by slices cut at the offsets [0, max_chars, 2*max_chars, ...]:
    [n = ceil(L / max_chars)] slices before any drop, each of exactly
    [max_chars] characters except the last, which has between 1 and
    [max_chars]; the slices concatenate to the original text; the slices
    kept are the slices that are not blank, so the kept slices concatenate
    to the original text up to the dropped blank slices, and their
    non-whitespace characters number as many as the original chunk's. *)
Theorem resplit_lossless (hold : loc -> heap -> loc * heap)
    (pre post : list Document) (doc : Document) (max_chars : Z) (h : heap) :
  0 < max_chars ->
  max_chars < len (page_content doc) ->
  let content := page_content doc in
  let n := ceil_div (len content) max_chars in
  let starts := (fun k : nat => Z.of_nat k * max_chars) <$> seq 0 (Z.to_nat n) in
  let slices := cut content max_chars starts in
  max_chars * (n - 1) < len content <= max_chars * n
  /\ range 0 (len content) max_chars = Ok starts
  /\ len slices = n
  /\ (forall (k : nat) p, slices !! k = Some p ->
        if decide (Z.of_nat k + 1 < n) then len p = max_chars
        else 0 < len p <= max_chars)
  /\ concat slices = content
  /\ exists r_pre r_doc r_post h1 h2 h3,
       _resplit_oversize_chunks hold pre max_chars h = (Ok r_pre, h1)
       /\ _resplit_oversize_chunks hold [doc] max_chars h1 = (Ok r_doc, h2)
       /\ _resplit_oversize_chunks hold post max_chars h2 = (Ok r_post, h3)
       /\ _resplit_oversize_chunks hold (pre ++ doc :: post) max_chars h
          = (Ok (r_pre ++ r_doc ++ r_post), h3)
       /\ texts r_doc = filter (fun p => blank p = false) slices
       /\ nonspace (concat (texts r_doc)) = nonspace content
       /\ sum_list (nonspace_count <$> texts r_doc) = nonspace_count content.
Proof.
  intros Hm Hgt content n starts slices.
  pose proof (ceil_div_bounds (len content) max_chars Hm) as Hn.
  fold n in Hn.
  assert (Hpos : 0 < n) by (apply ceil_div_pos; unfold content; lia).
  assert (Hrange : range 0 (len content) max_chars = Ok starts).
  { apply range_positive_step; [done|unfold len; lia]. }
  assert (Hstarts : starts = offsets (len content) max_chars) by done.
  split; [lia|]. split; [done|]. split.
  { unfold slices, len. rewrite length_cut. unfold starts.
    rewrite length_fmap, length_seq. lia. }
  split.
  { intros k p Hk. unfold slices in Hk. rewrite Hstarts in Hk.
    apply cut_offsets_lookup in Hk as [Hlt ->]; [|done]. fold n in Hlt.
    unfold len in *. rewrite length_take, length_drop.
    case_decide; nia. }
  split.
  { unfold slices. rewrite Hstarts. by apply concat_cut_offsets. }
  destruct (resplit_positive hold (pre ++ doc :: post) max_chars h Hm)
    as (r & h3 & Hr & _).
  destruct (resplit_decompose hold pre doc post max_chars h r h3 Hr)
    as (r_pre & r_doc & r_post & h1 & h2 & Hpre & Hdoc & Hpost & ->).
  exists r_pre, r_doc, r_post, h1, h2, h3.
  destruct (resplit_chunk_oversize hold max_chars doc h1 r_doc h2 Hgt Hdoc)
    as (starts' & Hrange' & Ht).
  fold content in Hrange', Ht. rewrite Hrange in Hrange'.
  injection Hrange' as <-. fold slices in Ht.
  repeat split; try done.
  - rewrite resplit_flat_mapM. cbn [flat_mapM]. rewrite Hdoc.
    by rewrite app_nil_r.
  - by rewrite Ht, kept_nonblank.
  - rewrite Ht, nonspace_concat_kept. unfold slices. rewrite Hstarts.
    by rewrite concat_cut_offsets.
  - rewrite <- nonspace_count_concat. unfold nonspace_count.
    rewrite Ht, nonspace_concat_kept. unfold slices. rewrite Hstarts.
    by rewrite concat_cut_offsets.
Qed.

Lemma resplit_lossless_witness :
  0 < 4 /\ 4 < len (page_content sample_long)
  /\ exists r h',
       _resplit_oversize_chunks by_copy ([sample_short] ++ sample_long :: [])
         4 sample_heap = (Ok r, h')
       /\ texts r = [lit "xyz"; lit "abcd"; lit "efgh"].
Proof.
  assert (H1 : 0 < 4) by lia.
  assert (H2 : 4 < len (page_content sample_long)) by (vm_compute; reflexivity).
  split; [exact H1|]. split; [exact H2|].
  destruct (resplit_lossless by_copy [sample_short] [] sample_long 4
              sample_heap H1 H2)
    as (_ & _ & _ & _ & _ & r_pre & r_doc & r_post & h1 & h2 & h3
        & _ & _ & _ & Hall & _).
  exists (r_pre ++ r_doc ++ r_post), h3. split; [exact Hall|].
  assert (Hv : returned_chunks
                 (_resplit_oversize_chunks by_copy
                    ([sample_short] ++ sample_long :: []) 4 sample_heap)
               = [mkDocument (lit "xyz") 0; mkDocument (lit "abcd") 1;
                  mkDocument (lit "efgh") 2]%nat)
    by (vm_compute; reflexivity).
  rewrite Hall in Hv. unfold returned_chunks in Hv. simpl in Hv.
  rewrite Hv. reflexivity.
Defined.

(** C6. The re-split step is the identity on a sequence that is already
    within the limit: it returns the same chunks in the same order and leaves
    the heap as it was; and applying the step to its own result changes
    nothing, so applying it twice is applying it once (a run that raises
    raises the same way). *)
Theorem resplit_idempotent (hold : loc -> heap -> loc * heap)
    (chunks : list Document) (max_chars : Z) (h : heap) :
  (Forall (fun d => len (page_content d) <= max_chars) chunks ->
   _resplit_oversize_chunks hold chunks max_chars h = (Ok chunks, h))
  /\ match _resplit_oversize_chunks hold chunks max_chars h with
     | (Ok r, h') => _resplit_oversize_chunks hold r max_chars h'
     | (Raise e, h') => (Raise e, h')
     end
     = _resplit_oversize_chunks hold chunks max_chars h.
Proof.
  split.
  - apply resplit_identity.
  - destruct (_resplit_oversize_chunks hold chunks max_chars h)
      as [[r|e] h'] eqn:E; [|done].
    apply resplit_identity. by eapply resplit_compliant.
Qed.

Lemma resplit_idempotent_witness :
  Forall (fun d => len (page_content d) <= 12) [sample_short; sample_long]
  /\ _resplit_oversize_chunks by_copy [sample_short; sample_long] 12
       sample_heap
     = (Ok [sample_short; sample_long], sample_heap).
Proof.
  assert (H : Forall (fun d => len (page_content d) <= 12)
                [sample_short; sample_long]).
  { repeat constructor; vm_compute; discriminate. }
  split; [exact H|].
  exact (proj1 (resplit_idempotent by_copy [sample_short; sample_long] 12
                  sample_heap) H).
Defined.

(** C7. In a result of the re-split step, around any chunk of the input:
    a chunk within the limit is in the result as it is (even when it is
    blank); for a chunk over the limit, the texts put in its place are the
    slices cut at the offsets of [range], without exactly those slices that
    [strip] empties; [strip] empties a slice exactly when all its characters
    are whitespace; so a slice with a character that is not whitespace is
    always in the result. *)
Theorem resplit_drops_only_blank (hold : loc -> heap -> loc * heap)
    (pre post : list Document) (doc : Document) (max_chars : Z)
    (h : heap) (r : list Document) (h' : heap) :
  _resplit_oversize_chunks hold (pre ++ doc :: post) max_chars h = (Ok r, h') ->
  exists r_pre r_doc r_post h1 h2,
    r = r_pre ++ r_doc ++ r_post
    /\ _resplit_oversize_chunks hold pre max_chars h = (Ok r_pre, h1)
    /\ _resplit_oversize_chunks hold post max_chars h2 = (Ok r_post, h')
    /\ (len (page_content doc) <= max_chars -> r_doc = [doc] /\ doc ∈ r)
    /\ (max_chars < len (page_content doc) ->
        exists starts,
          range 0 (len (page_content doc)) max_chars = Ok starts
          /\ let slices := cut (page_content doc) max_chars starts in
             texts r_doc = filter (fun p => strip p <> []) slices
             /\ (forall p, strip p = [] <-> Forall (fun c => isspace c = true) p)
             /\ (forall p c, p ∈ slices -> c ∈ p -> isspace c = false ->
                   p ∈ texts r_doc /\ p ∈ texts r)).
Proof.
  intros Hr.
  destruct (resplit_decompose hold pre doc post max_chars h r h' Hr)
    as (r_pre & r_doc & r_post & h1 & h2 & Hpre & Hdoc & Hpost & ->).
  exists r_pre, r_doc, r_post, h1, h2.
  split; [done|]. split; [done|]. split; [done|]. split.
  - intros Hle. rewrite resplit_chunk_within in Hdoc by done.
    injection Hdoc as <- <-. split; [done|].
    rewrite !elem_of_app. right. left. by left.
  - intros Hgt.
    destruct (resplit_chunk_oversize hold max_chars doc h1 r_doc h2 Hgt Hdoc)
      as (starts & Hrange & Ht).
    exists starts. split; [done|]. simpl.
    assert (Hstrip : forall p : str,
              strip p = [] <-> Forall (fun c => isspace c = true) p).
    { intros p. by rewrite strip_nil_blank, blank_Forall. }
    assert (Hkept : forall pieces,
              kept pieces = filter (fun p => strip p <> []) pieces).
    { intros pieces. unfold kept. apply list_filter_iff. intros p.
      by destruct (strip p). }
    split; [by rewrite Ht, Hkept|]. split; [exact Hstrip|].
    intros p c Hp Hc Hns.
    assert (Hin : p ∈ texts r_doc).
    { rewrite Ht, Hkept. apply list_elem_of_filter. split; [|done].
      rewrite Hstrip, Forall_forall. intros Hall.
      specialize (Hall c Hc). congruence. }
    split; [done|]. unfold texts in *. rewrite !fmap_app, !elem_of_app.
    by right; left.
Qed.

Lemma resplit_drops_only_blank_witness :
  sample_run = (Ok (returned_chunks sample_run), sample_run.2)
  /\ sample_short ∈ returned_chunks sample_run.
Proof.
  assert (E : sample_run = (Ok (returned_chunks sample_run), sample_run.2))
    by (vm_compute; reflexivity).
  split; [exact E|].
  destruct (resplit_drops_only_blank by_copy [sample_short] [] sample_long 4
              plain_heap (returned_chunks sample_run) sample_run.2 E)
    as (r_pre & r_doc & r_post & h1 & h2 & Hr & Hpre & _).
  rewrite Hr. apply elem_of_app. left.
  assert (Hv : returned_chunks
                 (_resplit_oversize_chunks by_copy [sample_short] 4 plain_heap)
               = [sample_short]) by (vm_compute; reflexivity).
  rewrite Hpre in Hv. unfold returned_chunks in Hv. simpl in Hv.
  rewrite Hv. by left.
Defined.

Lemma offsets_increasing (stop step : Z) (i j : nat) (a b : Z) :
  0 < step ->
  offsets stop step !! i = Some a -> offsets stop step !! j = Some b ->
  (i < j)%nat -> a < b.
Proof.
  intros Hs. unfold offsets. rewrite !list_lookup_fmap.
  destruct (seq 0 _ !! i) as [i'|] eqn:Hi; [|done].
  destruct (seq 0 _ !! j) as [j'|] eqn:Hj; [|done].
  apply lookup_seq in Hi as [-> _]. apply lookup_seq in Hj as [-> _].
  simpl. intros [= <-] [= <-] Hij. nia.
Qed.

(** C10. The re-split step is the flat-map, in input order, of a per-chunk
    replacement: a chunk within the limit is replaced by itself; a chunk
    over a positive limit by the documents of its kept slices, cut at
    strictly increasing offsets and kept in that order. So the texts of the
    result are the replacements of the input texts one after the other, and
    material of two input chunks keeps its relative order. *)
Theorem resplit_order_preserving (hold : loc -> heap -> loc * heap)
    (chunks : list Document) (max_chars : Z) (h : heap) :
  _resplit_oversize_chunks hold chunks max_chars h
  = flat_mapM (resplit_chunk hold max_chars) chunks h
  /\ (forall doc h0,
        len (page_content doc) <= max_chars ->
        resplit_chunk hold max_chars doc h0 = (Ok [doc], h0))
  /\ (forall doc h0,
        0 < max_chars -> max_chars < len (page_content doc) ->
        let starts := offsets (len (page_content doc)) max_chars in
        exists ds h1,
          resplit_chunk hold max_chars doc h0 = (Ok ds, h1)
          /\ texts ds
             = filter (fun p => blank p = false)
                 ((fun start => slice (page_content doc) start
                                  (start + max_chars)) <$> starts)
          /\ forall (i j : nat) a b,
               starts !! i = Some a -> starts !! j = Some b ->
               (i < j)%nat -> a < b)
  /\ (0 < max_chars ->
      exists r h',
        _resplit_oversize_chunks hold chunks max_chars h = (Ok r, h')
        /\ texts r = texts chunks ≫= replacement max_chars).
Proof.
  split; [apply resplit_flat_mapM|]. split; [apply resplit_chunk_within|].
  split; [|apply resplit_positive].
  intros doc h0 Hm Hgt starts.
  destruct (resplit_chunk_positive hold max_chars doc h0 Hm)
    as (ds & h1 & Hdoc & Ht).
  exists ds, h1. split; [done|]. split.
  - rewrite Ht. unfold replacement.
    destruct (Z.leb_spec (len (page_content doc)) max_chars); [lia|].
    by rewrite kept_nonblank.
  - intros i j a b. by apply offsets_increasing.
Qed.

Lemma resplit_order_preserving_witness :
  0 < 4
  /\ exists r h',
       _resplit_oversize_chunks by_copy [sample_long; sample_short] 4
         sample_heap = (Ok r, h')
       /\ texts r = [lit "abcd"; lit "efgh"; lit "xyz"].
Proof.
  assert (H : 0 < 4) by lia. split; [exact H|].
  destruct (proj2 (proj2 (proj2
              (resplit_order_preserving by_copy [sample_long; sample_short]
                 4 sample_heap))) H) as (r & h' & Hr & Ht).
  exists r, h'. split; [exact Hr|]. rewrite Ht. vm_compute. reflexivity.
Defined.

(* ===================================================================== *)
(** * [run_pipeline]: the invariant check, the batch driver, empty input  *)
(* ===================================================================== *)

Lemma oversize_from_compliant (i : nat) (chunks : list Document) (max_chars : Z) :
  Forall (compliant max_chars) chunks -> oversize_from i chunks max_chars = [].
Proof.
  intros H. revert i. induction H as [|d chunks Hd _ IH]; intros i; [done|].
  simpl. unfold compliant in Hd.
  destruct (Z.ltb_spec max_chars (len (page_content d))); [lia|]. apply IH.
Qed.

(** The re-split step raises nothing but the [ValueError] of [range]. *)
Lemma resplit_raises hold chunks max_chars h e h' :
  _resplit_oversize_chunks hold chunks max_chars h = (Raise e, h') ->
  e = ValueError "range() arg 3 must not be zero".
Proof.
  rewrite resplit_flat_mapM. revert h.
  induction chunks as [|doc chunks IH]; intros h; [done|].
  cbn [flat_mapM].
  destruct (resplit_chunk hold max_chars doc h) as [[ds|e1] h1] eqn:Ed.
  - destruct (flat_mapM _ chunks h1) as [[r|e2] h2] eqn:Er; [done|].
    intros [= <- <-]. by eapply IH.
  - intros [= <- <-]. unfold resplit_chunk in Ed.
    destruct (len (page_content doc) <=? max_chars); [done|].
    unfold range in Ed. destruct (max_chars =? 0).
    + by injection Ed as <- _.
    + by destruct (new_Documents _ _ _ h).
Qed.

Lemma strip_method_raises (x : pyval) (e : exn) :
  strip_method x = Raise e -> exists msg, e = AttributeError msg.
Proof. destruct x; simpl; intros [= <-]; by eexists. Qed.

(** The classifier raises nothing but the [AttributeError] of a [strip]
    call. *)
Lemma get_language_raises (metadata : pydict) (e : exn) :
  get_language_from_metadata metadata = Raise e ->
  exists msg, e = AttributeError msg.
Proof.
  unfold get_language_from_metadata.
  destruct (strip_method (get_or_empty metadata (lit "file_extension")))
    as [stripped|e1] eqn:E1.
  - destruct (negb (truthy (lower stripped))); [|done].
    destruct (strip_method (get_or_empty metadata (lit "source")))
      as [source|e2] eqn:E2; [done|].
    intros [= <-]. by eapply strip_method_raises.
  - intros [= <-]. by eapply strip_method_raises.
Qed.

Lemma group_by_language_raises (docs : list Document) (h : heap)
    (by_lang : list (lang_key * list Document)) (e : exn) :
  group_by_language docs h by_lang = Raise e ->
  exists msg, e = AttributeError msg.
Proof.
  revert by_lang. induction docs as [|d docs IH]; intros by_lang; [done|].
  simpl.
  destruct (get_language_from_metadata (deref h (metadata d)))
    as [lang|e0] eqn:E.
  - apply IH.
  - intros [= <-]. by eapply get_language_raises.
Qed.

Section ChunkingTheory.

Variable EMBED_MODEL_MAX_CHARS : Z.
Variable split_documents :
  Splitter -> list Document -> heap -> reply (list Document) * heap.

(** Chunking raises nothing but what the splitter of the library raises. *)
Lemma split_groups_raises groups size overlap chunks h e h' :
  split_groups EMBED_MODEL_MAX_CHARS split_documents groups size overlap
    chunks h = (Raise e, h') ->
  exists msg, e = CollaboratorError msg.
Proof.
  revert chunks h. induction groups as [|[key group] groups IH];
    intros chunks h; [done|].
  simpl. destruct (split_documents _ group h) as [[cs|msg] h1].
  - apply IH.
  - intros [= <- <-]. by exists msg.
Qed.

Lemma chunk_documents_nil size overlap h :
  _chunk_documents_with_language_awareness EMBED_MODEL_MAX_CHARS
    split_documents [] size overlap h = (Ok [], h).
Proof. done. Qed.

(** The chunking step raises what the classifier or the splitter raised. *)
Lemma chunk_documents_raises docs size overlap h e h' :
  _chunk_documents_with_language_awareness EMBED_MODEL_MAX_CHARS
    split_documents docs size overlap h = (Raise e, h') ->
  (exists msg, e = AttributeError msg) \/ (exists msg, e = CollaboratorError msg).
Proof.
  unfold _chunk_documents_with_language_awareness.
  destruct (group_by_language docs h []) as [by_lang|e0] eqn:E.
  - intros He. right. by eapply split_groups_raises.
  - intros [= <- <-]. left. by eapply group_by_language_raises.
Qed.

End ChunkingTheory.

Section PipelineTheory.

Variable World : Type.
Variable Embeddings : Type.
Variable VectorStore : Type.
Variable EMBED_MODEL_MAX_CHARS : Z.
Variable getenv : str -> option str.
Variable hold : loc -> heap -> loc * heap.
Variable split_documents :
  Splitter -> list Document -> heap -> reply (list Document) * heap.
Variable load_all_documents :
  string -> heap -> World -> reply (list Document) * heap * World.
Variable OpenAIEmbeddings : str -> World -> reply Embeddings * World.
Variable OllamaEmbeddings :
  str -> str -> Z -> World -> reply Embeddings * World.
Variable PGVector :
  str -> Embeddings -> str -> bool -> bool -> World
  -> reply VectorStore * World.
Variable add_documents :
  VectorStore -> list Document -> heap -> World -> reply unit * heap * World.

#[local] Abbreviation state := (state World).
#[local] Abbreviation M := (M World).

Lemma safe_bind {A B} (m : M A) (k : A -> M B) s :
  safe m s ->
  (forall a s', m s = (Ok a, s') -> safe (k a) s') ->
  safe (bind m k) s.
Proof.
  unfold safe, bind. intros Hm Hk c mc idx.
  destruct (m s) as [[a|e] s'] eqn:E.
  - by apply Hk.
  - simpl. intros [= ->]. by apply (Hm c mc idx).
Qed.

Lemma safe_ret {A} (a : A) (s : state) : safe (ret a) s.
Proof. by intros c mc idx. Qed.

Lemma safe_emit ev (s : state) : safe (emit ev) s.
Proof. by intros c mc idx. Qed.

Lemma safe_call {A} (f : World -> reply A * World) s : safe (call f) s.
Proof. intros c mc idx. unfold call. by destruct (f (st_world s)). Qed.

Lemma safe_call_heap {A} (f : heap -> World -> reply A * heap * World) s :
  safe (call_heap f) s.
Proof.
  intros c mc idx. unfold call_heap.
  by destruct (f (st_heap s) (st_world s)) as [[r h] w].
Qed.

Lemma safe_returned {A} (r : reply A) (s : state) : safe (returned r) s.
Proof. intros c mc idx. by destruct r. Qed.

Lemma safe_raise_ValueError {A} msg (s : state) :
  safe (raise (A:=A) (ValueError msg)) s.
Proof. by intros c mc idx. Qed.

Lemma safe_raise_CollaboratorError {A} msg (s : state) :
  safe (raise (A:=A) (CollaboratorError msg)) s.
Proof. by intros c mc idx. Qed.

Lemma safe_get_embedding_model s :
  safe (get_embedding_model World Embeddings getenv OpenAIEmbeddings
          OllamaEmbeddings) s.
Proof.
  unfold get_embedding_model.
  repeat case_bool_decide;
    try (apply safe_bind; [apply safe_call|intros; apply safe_returned]).
  apply safe_raise_ValueError.
Qed.

Lemma safe_get_vector_store conn name emb s :
  safe (get_vector_store World Embeddings VectorStore getenv OpenAIEmbeddings
          OllamaEmbeddings PGVector conn name emb) s.
Proof.
  unfold get_vector_store.
  repeat case_match; try apply safe_raise_ValueError;
    (apply safe_bind;
     [first [apply safe_ret|apply safe_get_embedding_model]
     |intros; apply safe_bind; [apply safe_call|intros; apply safe_returned]]).
Qed.

Lemma safe_store_batches vs chunks total num_batches starts s :
  safe (store_batches World VectorStore add_documents vs chunks total
          num_batches starts) s.
Proof.
  revert s. induction starts as [|i starts IH]; intros s; [apply safe_ret|].
  cbn [store_batches].
  apply safe_bind; [apply safe_emit|]. intros _ s1 _.
  apply safe_bind; [apply safe_call_heap|]. intros [u|msg] s2 _.
  - apply safe_bind; [apply safe_emit|]. intros _ s3 _. apply IH.
  - apply safe_bind; [apply safe_emit|]. intros _ s3 _.
    apply safe_raise_CollaboratorError.
Qed.

Lemma range_batches (total : Z) :
  0 <= total ->
  range 0 total EMBED_BATCH_SIZE = Ok (offsets total EMBED_BATCH_SIZE).
Proof. intros H. by apply range_positive_step. Qed.

Lemma safe_embed_and_store vs chunks s :
  safe (embed_and_store World VectorStore add_documents vs chunks) s.
Proof.
  unfold embed_and_store.
  apply safe_bind; [apply safe_emit|]. intros _ s1 _.
  apply safe_bind.
  { rewrite range_batches by (unfold len; lia). by intros c mc idx. }
  intros starts s2 _.
  apply safe_bind; [apply safe_store_batches|]. intros _ s3 _.
  apply safe_emit.
Qed.

Lemma safe_on_heap {A} (f : heap -> res A * heap) (s : state) :
  (forall e h', f (st_heap s) = (Raise e, h') ->
     forall c mc idx, e <> AssertionError c mc idx) ->
  safe (on_heap f) s.
Proof.
  intros Hf c mc idx. unfold on_heap.
  destruct (f (st_heap s)) as [[a|e] h'] eqn:E; [done|].
  simpl. intros [= ->]. by eapply Hf.
Qed.

Lemma on_heap_Ok {A} (f : heap -> res A * heap) (s : state) a s' :
  on_heap f s = (Ok a, s') ->
  exists h', f (st_heap s) = (Ok a, h').
Proof.
  unfold on_heap. destruct (f (st_heap s)) as [r h'].
  intros [= -> <-]. by exists h'.
Qed.

(** The invariant check of [run_pipeline] never fires. *)
Lemma safe_run_pipeline config_path chunk_size chunk_overlap name s :
  safe (run_pipeline World Embeddings VectorStore EMBED_MODEL_MAX_CHARS getenv
          hold split_documents load_all_documents OpenAIEmbeddings
          OllamaEmbeddings PGVector add_documents
          config_path chunk_size chunk_overlap name) s.
Proof.
  unfold run_pipeline.
  apply safe_bind; [apply safe_emit|]. intros _ s1 _.
  apply safe_bind; [apply safe_emit|]. intros _ s2 _.
  apply safe_bind; [apply safe_emit|]. intros _ s3 _.
  apply safe_bind; [apply safe_call_heap|]. intros loaded s4 _.
  apply safe_bind; [apply safe_returned|]. intros docs s5 _.
  apply safe_bind; [apply safe_emit|]. intros _ s6 _.
  destruct docs as [|d docs]; [apply safe_emit|].
  apply safe_bind.
  { apply safe_on_heap. intros e h' He c mc idx ->.
    apply chunk_documents_raises in He as [[msg He]|[msg He]];
      discriminate. }
  intros chunks s7 _.
  apply safe_bind; [apply safe_emit|]. intros _ s8 _.
  apply safe_bind.
  { apply safe_on_heap. intros e h' He c mc idx ->.
    apply resplit_raises in He. discriminate. }
  intros chunks' s9 Hre. apply on_heap_Ok in Hre as [h' Hre].
  apply resplit_compliant in Hre.
  apply safe_bind.
  { case_bool_decide; [apply safe_emit|apply safe_ret]. }
  intros _ s10 _. unfold oversize_indices.
  rewrite oversize_from_compliant by done.
  apply safe_bind; [apply safe_get_embedding_model|]. intros emb s11 _.
  apply safe_bind; [apply safe_get_vector_store|]. intros vs s12 _.
  apply safe_embed_and_store.
Qed.

End PipelineTheory.

(** C1. For every chunk sequence and every limit [max_chars > 0], the
    re-split step returns, and every chunk of its result has a text of at
    most [max_chars] characters; so the list of oversize indices that the
    invariant check of [run_pipeline] computes is empty, and no run of
    [run_pipeline], whatever the collaborators do, ends in the
    [AssertionError] of that check. *)
Theorem resplit_size_invariant
    (World Embeddings VectorStore : Type) (max_chars : Z)
    (getenv : str -> option str) (hold : loc -> heap -> loc * heap)
    (split_documents :
       Splitter -> list Document -> heap -> reply (list Document) * heap)
    (load_all_documents :
       string -> heap -> World -> reply (list Document) * heap * World)
    (OpenAIEmbeddings : str -> World -> reply Embeddings * World)
    (OllamaEmbeddings : str -> str -> Z -> World -> reply Embeddings * World)
    (PGVector :
       str -> Embeddings -> str -> bool -> bool -> World
       -> reply VectorStore * World)
    (add_documents :
       VectorStore -> list Document -> heap -> World
       -> reply unit * heap * World) :
  0 < max_chars ->
  (forall chunks h,
     exists r h',
       _resplit_oversize_chunks hold chunks max_chars h = (Ok r, h')
       /\ Forall (fun d => len (page_content d) <= max_chars) r
       /\ oversize_indices r max_chars = [])
  /\ (forall config_path chunk_size chunk_overlap collection_name s
        count limit indices,
        (run_pipeline World Embeddings VectorStore max_chars getenv hold
           split_documents load_all_documents OpenAIEmbeddings
           OllamaEmbeddings PGVector add_documents
           config_path chunk_size chunk_overlap collection_name s).1
        <> Raise (AssertionError count limit indices)).
Proof.
  intros Hm. split.
  - intros chunks h.
    destruct (resplit_positive hold chunks max_chars h Hm) as (r & h' & Hr & _).
    exists r, h'. split; [done|].
    pose proof (resplit_compliant hold chunks max_chars h r h' Hr) as Hc.
    split; [exact Hc|]. by apply oversize_from_compliant.
  - intros config_path chunk_size chunk_overlap collection_name s.
    apply safe_run_pipeline.
Qed.

Lemma resplit_size_invariant_witness :
  0 < 4
  /\ exists r h',
       _resplit_oversize_chunks by_copy [sample_long; sample_short] 4
         sample_heap = (Ok r, h')
       /\ Forall (fun d => len (page_content d) <= 4) r
       /\ oversize_indices r 4 = [].
Proof.
  assert (H : 0 < 4) by lia. split; [exact H|].
  exact (proj1
    (resplit_size_invariant unit unit unit 4 (fun _ => None) by_copy
       (fun _ docs h => (Returns docs, h))
       (fun _ h w => (Returns [], h, w))
       (fun _ w => (Fails "offline", w))
       (fun _ _ _ w => (Fails "offline", w))
       (fun _ _ _ _ _ w => (Fails "offline", w))
       (fun _ _ h w => (Returns tt, h, w)) H)
    [sample_long; sample_short] sample_heap).
Defined.

(** ** The batch driver *)

Lemma calls_app (t1 t2 : list event) : calls (t1 ++ t2) = calls t1 ++ calls t2.
Proof. unfold calls. apply omap_app. Qed.

Section DriverTheory.

Variable World : Type.
Variable VectorStore : Type.
Variable add_documents :
  VectorStore -> list Document -> heap -> World -> reply unit * heap * World.

(** The loop of the source does what [store_in_order] says. *)
Lemma store_batches_in_order vs chunks total num_batches (m j : nat)
    (s : state World) :
  store_batches World VectorStore add_documents vs chunks total num_batches
    ((fun k : nat => Z.of_nat k * EMBED_BATCH_SIZE) <$> seq j m) s
  = let '(evs, failure, h', w') :=
      store_in_order (add_documents vs)
        ((fun k : nat =>
            slice chunks (Z.of_nat k * EMBED_BATCH_SIZE)
              (Z.of_nat k * EMBED_BATCH_SIZE + EMBED_BATCH_SIZE))
           <$> seq j m)
        j num_batches total (st_heap s) (st_world s) in
    (match failure with
     | None => Ok tt
     | Some e => Raise (CollaboratorError e)
     end,
     mkState h' w' (st_trace s ++ evs)).
Proof.
  revert j s. induction m as [|m IH]; intros j s.
  - simpl. rewrite app_nil_r. by destruct s.
  - cbn [seq fmap list_fmap store_batches store_in_order].
    unfold bind at 1. cbn [emit st_heap st_world st_trace].
    unfold bind at 1. unfold call_heap at 1. cbn [st_heap st_world st_trace].
    destruct (add_documents vs _ (st_heap s) (st_world s)) as [[[u|e] h1] w1].
    + unfold bind at 1. unfold print at 1. cbn [emit st_heap st_world st_trace].
      specialize (IH (S j)
        (mkState h1 w1
           ((st_trace s ++ [AddDocuments
               (slice chunks (Z.of_nat j * EMBED_BATCH_SIZE)
                  (Z.of_nat j * EMBED_BATCH_SIZE + EMBED_BATCH_SIZE))])
            ++ [Stdout (MsgBatchDone
                  (Z.of_nat j * EMBED_BATCH_SIZE / EMBED_BATCH_SIZE + 1)
                  num_batches
                  (Z.min (Z.of_nat j * EMBED_BATCH_SIZE + EMBED_BATCH_SIZE)
                     total) total)]))).
      cbn [st_heap st_world st_trace] in IH.
      change (list_fmap nat Z ?f ?l) with (f <$> l).
      change (list_fmap nat (list Document) ?f ?l) with (f <$> l).
      rewrite IH.
      destruct (store_in_order _ _ (S j) num_batches total h1 w1)
        as [[[evs failure] h2] w2].
      rewrite Z.div_mul by done.
      replace ((Z.of_nat j + 1) * EMBED_BATCH_SIZE)
        with (Z.of_nat j * EMBED_BATCH_SIZE + EMBED_BATCH_SIZE)
        by (unfold EMBED_BATCH_SIZE; lia).
      by rewrite <- !app_assoc.
    + unfold bind at 1. unfold print_stderr at 1.
      cbn [emit st_heap st_world st_trace]. unfold raise.
      rewrite Z.div_mul by done. by rewrite <- !app_assoc.
Qed.

(** What [store_in_order] leaves in the trace: the calls are a prefix of the
    batches, each batch once and in order; without a failure all batches
    were called and nothing went to the error stream; with a failure the
    last call is the failing batch, and the last event is its error line. *)
Lemma store_in_order_calls (add : list Document -> heap -> World
                                  -> reply unit * heap * World)
    bs k num_batches total h w evs failure h' w' :
  store_in_order add bs k num_batches total h w = (evs, failure, h', w') ->
  let n := length (calls evs) in
  calls evs = take n bs
  /\ match failure with
     | None =>
         n = length bs
         /\ forall m, Stderr m ∉ evs
     | Some e =>
         (0 < n)%nat /\ (n <= length bs)%nat
         /\ (exists evs0 b,
               bs !! (n - 1)%nat = Some b
               /\ evs = evs0 ++ [AddDocuments b;
                     Stderr (MsgBatchFailed (Z.of_nat k + Z.of_nat n)
                               num_batches e)]
               /\ forall m, Stderr m ∉ evs0)
     end.
Proof.
  revert k h w evs failure h' w'.
  induction bs as [|b bs IH]; intros k h w evs failure h' w'.
  - simpl. intros [= <- <- <- <-]. simpl. split; [done|]. split; [done|].
    intros m Hm. by apply elem_of_nil in Hm.
  - cbn [store_in_order]. destruct (add b h w) as [[[u|e] h1] w1].
    + destruct (store_in_order add bs (S k) num_batches total h1 w1)
        as [[[evs1 f1] h2] w2] eqn:E.
      intros [= <- <- <- <-].
      destruct (IH _ _ _ _ _ _ _ E) as [Hcalls Hf].
      cbn [calls omap list_omap length take]. fold (calls evs1).
      split; [by rewrite Hcalls at 1|].
      destruct f1 as [e|].
      * destruct Hf as (Hpos & Hle & evs0 & b0 & Hb0 & Hevs & Hno).
        split; [lia|]. split; [simpl; lia|].
        exists (AddDocuments b :: Stdout (MsgBatchDone (Z.of_nat k + 1)
                  num_batches
                  (Z.min ((Z.of_nat k + 1) * EMBED_BATCH_SIZE) total) total)
                :: evs0), b0.
        split.
        { rewrite Nat.sub_succ, Nat.sub_0_r.
          destruct (length (calls evs1)) as [|n'] eqn:En; [lia|].
          simpl. by rewrite Nat.sub_succ, Nat.sub_0_r in Hb0. }
        split.
        { rewrite <- !app_comm_cons. do 2 f_equal.
          etransitivity; [exact Hevs|]. do 5 f_equal. lia. }
        intros m Hm. apply elem_of_cons in Hm as [Hm|Hm]; [done|].
        apply elem_of_cons in Hm as [Hm|Hm]; [done|]. by apply (Hno m).
      * destruct Hf as [Hn Hno]. split; [simpl; lia|].
        intros m Hm. apply elem_of_cons in Hm as [Hm|Hm]; [done|].
        apply elem_of_cons in Hm as [Hm|Hm]; [done|]. by apply (Hno m).
    + intros [= <- <- <- <-]. simpl. split; [done|].
      split; [lia|]. split; [lia|].
      exists [], b. split; [done|]. split.
      { reflexivity. }
      intros m Hm. by apply elem_of_nil in Hm.
Qed.

End DriverTheory.

Lemma store_in_order_replay {World : Type}
    (add : list Document -> heap -> World -> reply unit * heap * World)
    bs k num_batches total h w evs failure h' w' :
  store_in_order add bs k num_batches total h w = (evs, failure, h', w') ->
  replay add (take (length (calls evs)) bs) h w = (h', w').
Proof.
  revert k h w evs failure h' w'.
  induction bs as [|b bs IH]; intros k h w evs failure h' w'.
  - simpl. by intros [= <- <- <- <-].
  - cbn [store_in_order]. destruct (add b h w) as [[[u|e] h1] w1] eqn:Eb.
    + destruct (store_in_order add bs (S k) num_batches total h1 w1)
        as [[[evs1 f1] h2] w2] eqn:E.
      intros [= <- <- <- <-].
      cbn [calls omap list_omap length take replay]. rewrite Eb.
      by eapply IH.
    + intros [= <- <- <- <-]. simpl. by rewrite Eb.
Qed.

Lemma length_fixed_width {A} (l : list A) (m : Z) (k : nat) :
  0 < m -> Z.of_nat k < ceil_div (len l) m ->
  0 < len (take (Z.to_nat m) (drop (k * Z.to_nat m) l)) <= m.
Proof.
  intros Hm Hk. pose proof (ceil_div_bounds (len l) m Hm).
  unfold len in *. rewrite length_take, length_drop. nia.
Qed.

Lemma batches_partition (chunks : list Document) :
  concat (batches chunks) = chunks
  /\ len (batches chunks) = ceil_div (len chunks) EMBED_BATCH_SIZE
  /\ Forall (fun b => 0 < len b <= EMBED_BATCH_SIZE) (batches chunks).
Proof.
  assert (H50 : 0 < EMBED_BATCH_SIZE) by done.
  pose proof (ceil_div_bounds (len chunks) EMBED_BATCH_SIZE H50) as Hn.
  assert (Hnn : 0 <= ceil_div (len chunks) EMBED_BATCH_SIZE).
  { unfold len in *. nia. }
  unfold batches. split; [|split].
  - rewrite <- (concat_fixed_width (Z.to_nat EMBED_BATCH_SIZE)
                 (Z.to_nat (ceil_div (len chunks) EMBED_BATCH_SIZE)) chunks)
      at 2 by (unfold len in *; nia).
    f_equal. apply list_fmap_ext. intros _ k _. by apply slice_at_offset.
  - unfold len at 1. rewrite length_fmap, length_seq. lia.
  - rewrite Forall_fmap. apply Forall_forall. intros k Hk.
    apply elem_of_seq in Hk. simpl. rewrite slice_at_offset by done.
    apply length_fixed_width; [done|lia].
Qed.

(** C5. The driver cuts the chunk sequence into [ceil(n/50)] consecutive
    batches of 1 to 50 chunks that concatenate to the sequence, and calls
    the store on the batches in order, each at most once. If no call fails,
    every batch is called exactly once, nothing is written to the error
    stream and the run returns. If the call on batch [k] fails, the calls
    made are exactly the first [k] batches, the last events are that call
    and the error line with the index [k] of [num_batches], the exception
    of the store is raised again, and the state of heap and services is the
    one those [k] calls left: no later batch is tried, nothing is undone or
    tried again. *)
Theorem batch_driver (World VectorStore : Type)
    (add_documents :
       VectorStore -> list Document -> heap -> World
       -> reply unit * heap * World)
    (vector_store : VectorStore) (chunks : list Document) (s : state World) :
  let total := len chunks in
  let num_batches := (total + EMBED_BATCH_SIZE - 1) / EMBED_BATCH_SIZE in
  let bs := batches chunks in
  concat bs = chunks
  /\ len bs = num_batches
  /\ EMBED_BATCH_SIZE * (num_batches - 1) < total
     <= EMBED_BATCH_SIZE * num_batches
  /\ Forall (fun b => 0 < len b <= EMBED_BATCH_SIZE) bs
  /\ exists evs failure h' w',
       store_in_order (add_documents vector_store) bs 0 num_batches total
         (st_heap s) (st_world s) = (evs, failure, h', w')
       /\ embed_and_store World VectorStore add_documents vector_store chunks s
          = (match failure with
             | None => Ok tt
             | Some e => Raise (CollaboratorError e)
             end,
             mkState h' w'
               (st_trace s
                ++ Stdout (MsgEmbedding EMBED_BATCH_SIZE num_batches)
                   :: evs
                ++ match failure with
                   | None => [Stdout MsgStored]
                   | Some _ => []
                   end))
       /\ let n := length (calls evs) in
          calls evs = take n bs
          /\ replay (add_documents vector_store) (take n bs)
               (st_heap s) (st_world s) = (h', w')
          /\ match failure with
             | None => n = length bs /\ forall m, Stderr m ∉ evs
             | Some e =>
                 (0 < n <= length bs)%nat
                 /\ exists evs0 b,
                      bs !! (n - 1)%nat = Some b
                      /\ evs = evs0 ++ [AddDocuments b;
                             Stderr (MsgBatchFailed (Z.of_nat n)
                                       num_batches e)]
                      /\ forall m, Stderr m ∉ evs0
             end.
Proof.
  intros total num_batches bs.
  destruct (batches_partition chunks) as (Hcat & Hlen & Hall).
  assert (H50 : 0 < EMBED_BATCH_SIZE) by done.
  pose proof (ceil_div_bounds total EMBED_BATCH_SIZE H50) as Hn.
  change (ceil_div total EMBED_BATCH_SIZE) with num_batches in Hn.
  split; [done|]. split; [done|]. split; [lia|]. split; [done|].
  destruct (store_in_order (add_documents vector_store) bs 0 num_batches
              total (st_heap s) (st_world s))
    as [[[evs failure] h'] w'] eqn:E.
  exists evs, failure, h', w'. split; [done|]. split.
  - unfold embed_and_store, print. unfold bind at 1.
    cbn [emit st_heap st_world st_trace]. unfold bind at 1.
    rewrite range_batches by (unfold len; lia). unfold lift.
    unfold bind at 1. unfold offsets.
    rewrite store_batches_in_order. cbn [st_heap st_world st_trace].
    unfold bs, batches, num_batches, total in E. rewrite E.
    destruct failure as [e|].
    + by rewrite <- app_assoc, app_nil_r.
    + unfold emit. cbn [st_heap st_world st_trace].
      rewrite <- !app_assoc. reflexivity.
  - pose proof (store_in_order_calls World (add_documents vector_store)
                  bs 0 num_batches total _ _ _ _ _ _ E) as [Hcalls Hf].
    pose proof (store_in_order_replay (add_documents vector_store)
                  bs 0 num_batches total _ _ _ _ _ _ E) as Hreplay.
    simpl. split; [done|]. split; [done|].
    destruct failure as [e|]; [|done].
    destruct Hf as (Hpos & Hle & evs0 & b & Hb & Hevs & Hno).
    split; [lia|]. exists evs0, b. by rewrite Z.add_0_l in Hevs.
Qed.

(** C9. When loading returns an empty document sequence, [run_pipeline]
    returns normally right after the report lines: the state is the one
    loading left, the trace gains five lines on standard output and no call
    of the store, so no batch is embedded or stored; and chunking an empty
    document sequence gives the empty chunk sequence. *)
Theorem empty_input_returns
    (World Embeddings VectorStore : Type) (max_chars : Z)
    (getenv : str -> option str) (hold : loc -> heap -> loc * heap)
    (split_documents :
       Splitter -> list Document -> heap -> reply (list Document) * heap)
    (load_all_documents :
       string -> heap -> World -> reply (list Document) * heap * World)
    (OpenAIEmbeddings : str -> World -> reply Embeddings * World)
    (OllamaEmbeddings : str -> str -> Z -> World -> reply Embeddings * World)
    (PGVector :
       str -> Embeddings -> str -> bool -> bool -> World
       -> reply VectorStore * World)
    (add_documents :
       VectorStore -> list Document -> heap -> World
       -> reply unit * heap * World)
    (config_path : string) (chunk_size chunk_overlap : option Z)
    (collection_name : str) (s : state World) (h' : heap) (w' : World) :
  load_all_documents config_path (st_heap s) (st_world s)
  = (Returns [], h', w') ->
  let size := default max_chars chunk_size in
  let overlap := default (Z.max 50 (size / 10)) chunk_overlap in
  let run :=
    run_pipeline World Embeddings VectorStore max_chars getenv hold
      split_documents load_all_documents OpenAIEmbeddings OllamaEmbeddings
      PGVector add_documents config_path chunk_size chunk_overlap
      collection_name s in
  run = (Ok tt,
         mkState h' w'
           (st_trace s
            ++ [Stdout MsgBanner; Stdout (MsgChunking size overlap max_chars);
                Stdout (MsgLoading config_path); Stdout (MsgLoaded 0);
                Stdout MsgNoDocuments]))
  /\ calls (st_trace run.2) = calls (st_trace s)
  /\ forall sz ov h,
       _chunk_documents_with_language_awareness max_chars split_documents
         [] sz ov h = (Ok [], h).
Proof.
  intros Hload size overlap run.
  assert (Hrun : run = (Ok tt,
         mkState h' w'
           (st_trace s
            ++ [Stdout MsgBanner; Stdout (MsgChunking size overlap max_chars);
                Stdout (MsgLoading config_path); Stdout (MsgLoaded 0);
                Stdout MsgNoDocuments]))).
  { unfold run, run_pipeline, print, bind, emit, call_heap, returned, ret.
    cbn [st_heap st_world st_trace]. rewrite Hload.
    cbn [st_heap st_world st_trace]. by rewrite <- !app_assoc. }
  split; [exact Hrun|]. split; [|done].
  rewrite Hrun. cbn [snd st_trace]. rewrite calls_app. simpl.
  by rewrite app_nil_r.
Qed.

Lemma empty_input_returns_witness :
  let load := fun (_ : string) (h : heap) (w : unit) =>
                (Returns (@nil Document), h, w) in
  load "config/doc_sources.yaml"%string [] tt = (Returns [], [], tt)
  /\ (run_pipeline unit unit unit 500 (fun _ => None) by_copy
        (fun _ docs h => (Returns docs, h)) load
        (fun _ w => (Fails "offline", w))
        (fun _ _ _ w => (Fails "offline", w))
        (fun _ _ _ _ _ w => (Fails "offline", w))
        (fun _ _ h w => (Fails "offline", h, w))
        "config/doc_sources.yaml" None None (lit "kb_engine_playground")
        (mkState [] tt [])).1 = Ok tt.
Proof.
  intros load. split; [reflexivity|].
  pose proof (empty_input_returns unit unit unit 500 (fun _ => None) by_copy
        (fun _ docs h => (Returns docs, h)) load
        (fun _ w => (Fails "offline", w))
        (fun _ _ _ w => (Fails "offline", w))
        (fun _ _ _ _ _ w => (Fails "offline", w))
        (fun _ _ h w => (Fails "offline", h, w))
        "config/doc_sources.yaml" None None (lit "kb_engine_playground")
        (mkState [] tt []) [] tt eq_refl) as [Hrun _].
  cbv zeta in Hrun. rewrite Hrun. reflexivity.
Defined.

(* ===================================================================== *)
(** * store.py: the language classifier                                    *)
(* ===================================================================== *)

Lemma split_nonempty (c : ascii) (s : str) : split c s <> [].
Proof.
  destruct s as [|x s]; [done|]. simpl.
  case_bool_decide; [done|]. by destruct (split c s).
Qed.

Lemma split_without (c : ascii) (s : str) : c ∉ s -> split c s = [s].
Proof.
  induction s as [|x s IH]; [done|].
  intros Hc. apply not_elem_of_cons in Hc as [Hx Hs]. simpl.
  case_bool_decide; [congruence|]. by rewrite (IH Hs).
Qed.

Lemma split_with (c : ascii) (s : str) :
  c ∈ s -> (2 <= length (split c s))%nat.
Proof.
  induction s as [|x s IH]; [by intros ?%elem_of_nil|].
  intros Hc. simpl. case_bool_decide as Hx.
  - pose proof (split_nonempty c s). destruct (split c s); [done|simpl; lia].
  - apply elem_of_cons in Hc as [->|Hc]; [done|].
    specialize (IH Hc). destruct (split c s) as [|f fs]; simpl in *; lia.
Qed.

(** [sep.join(s.split(sep))] is [s]. *)
Lemma join_split (c : ascii) (s : str) : join c (split c s) = s.
Proof.
  induction s as [|x s IH]; [done|]. simpl.
  pose proof (split_nonempty c s) as Hne.
  case_bool_decide as Hx.
  - subst x. destruct (split c s) as [|f fs] eqn:E; [done|].
    simpl in *. by rewrite IH.
  - destruct (split c s) as [|f fs] eqn:E; [done|].
    destruct fs as [|g fs]; simpl in *; by rewrite <- IH.
Qed.

(** [s.split(sep)[0]] is the part before the first [sep]. *)
Lemma first_split (c : ascii) (s : str) : first (split c s) = upto c s.
Proof.
  induction s as [|x s IH]; [done|]. simpl.
  case_bool_decide; [done|].
  pose proof (split_nonempty c s).
  destruct (split c s) as [|f fs]; [done|]. simpl in *. by rewrite IH.
Qed.

Lemma upto_snoc (c x : ascii) (l : str) :
  upto c (l ++ [x])
  = if bool_decide (c ∈ l) then upto c l
    else if bool_decide (x = c) then l else l ++ [x].
Proof.
  induction l as [|y l IH]; cbn [app upto].
  - rewrite (bool_decide_eq_false_2 (c ∈ [])) by apply not_elem_of_nil.
    by case_bool_decide.
  - destruct (decide (y = c)) as [->|Hy].
    + rewrite (bool_decide_eq_true_2 (c = c)) by done.
      rewrite (bool_decide_eq_true_2 (c ∈ c :: l)) by (by left). done.
    + rewrite (bool_decide_eq_false_2 (y = c)) by done. rewrite IH.
      destruct (decide (c ∈ l)) as [Hl|Hl].
      * rewrite (bool_decide_eq_true_2 (c ∈ l)) by done.
        rewrite (bool_decide_eq_true_2 (c ∈ y :: l)) by (by right). done.
      * rewrite (bool_decide_eq_false_2 (c ∈ l)) by done.
        rewrite (bool_decide_eq_false_2 (c ∈ y :: l)).
        { destruct (bool_decide (x = c)); reflexivity. }
        intros [->|?]%elem_of_cons; done.
Qed.

Lemma last_cons_nonempty (f : str) (fs : list str) :
  fs <> [] -> last (f :: fs) = last fs.
Proof. unfold last. by destruct fs. Qed.

(** [s.split(sep)[-1]] is the part after the last [sep]. *)
Lemma last_split (c : ascii) (s : str) : last (split c s) = after_last c s.
Proof.
  unfold after_last. induction s as [|x s IH]; [done|].
  rewrite reverse_cons, upto_snoc. simpl split.
  pose proof (split_nonempty c s) as Hne.
  destruct (decide (c ∈ s)) as [Hin|Hout].
  - rewrite (bool_decide_eq_true_2 (c ∈ reverse s))
      by (by apply elem_of_reverse).
    pose proof (split_with c s Hin) as Hlen.
    case_bool_decide.
    + by rewrite last_cons_nonempty.
    + destruct (split c s) as [|f fs]; [done|].
      destruct fs as [|g fs]; [simpl in Hlen; lia|].
      rewrite <- IH. reflexivity.
  - rewrite (bool_decide_eq_false_2 (c ∈ reverse s))
      by (by rewrite elem_of_reverse).
    rewrite (split_without c s Hout).
    case_bool_decide.
    + by rewrite reverse_involutive.
    + by rewrite reverse_app, reverse_involutive.
Qed.

(** [s.rsplit(sep, 1)[-1]] is the part after the last [sep], too. *)
Lemma last_rsplit1 (c : ascii) (s : str) :
  last (rsplit1 c s) = after_last c s.
Proof.
  rewrite <- last_split. unfold rsplit1.
  destruct (reverse (split c s)) as [|a before] eqn:E.
  - apply (f_equal reverse) in E. rewrite reverse_involutive in E.
    by destruct (split_nonempty c s).
  - apply (f_equal reverse) in E. rewrite reverse_involutive in E.
    rewrite reverse_cons in E. destruct before as [|b before].
    + simpl in E. rewrite E. rewrite <- (join_split c s), E. done.
    + rewrite E. unfold last. by rewrite List.last_last.
Qed.

(** The table, read as a function. *)
Lemma EXT_TO_LANGUAGE_lookup (ext : str) :
  _EXT_TO_LANGUAGE !! ext
  = if decide (ext = lit ".md" \/ ext = lit ".markdown") then Some MARKDOWN
    else if decide (ext = lit ".rst") then Some RST
    else None.
Proof.
  unfold _EXT_TO_LANGUAGE. rewrite !lookup_insert, lookup_empty.
  destruct (decide (ext = lit ".md" \/ ext = lit ".markdown")) as [[->| ->]|Hmd].
  - by rewrite decide_True.
  - rewrite decide_False by done. by rewrite decide_True.
  - rewrite decide_False by (intros <-; apply Hmd; by left).
    rewrite decide_False by (intros <-; apply Hmd; by right).
    destruct (decide (ext = lit ".rst")) as [->|Hrst].
    + by rewrite decide_True.
    + by rewrite decide_False by congruence.
Qed.

Lemma truthy_nonempty (s : str) : truthy s = true <-> s <> [].
Proof. by destruct s. Qed.

(** [strip] on what [get(key) or ""] gives, by the value of the field. *)
Lemma strip_get_or_empty (metadata : pydict) (key : str) :
  strip_method (get_or_empty metadata key)
  = match read_text metadata key with
    | Some text => Ok (strip text)
    | None => Raise no_strip
    end.
Proof.
  unfold get_or_empty, dict_get, read_text, py_or.
  destruct (metadata !! key) as [[|[|c s]|n]|]; simpl; try done.
  destruct (decide (n = 0)) as [->|Hn]; [done|].
  by destruct (Z.eqb_spec n 0).
Qed.

Lemma classifier_fields (metadata : pydict) :
  get_language_from_metadata metadata
  = match read_text metadata (lit "file_extension") with
    | None => Raise no_strip
    | Some file_extension =>
        if decide (lower (strip file_extension) <> [])
        then Ok (language_of (lower (strip file_extension)))
        else match read_text metadata (lit "source") with
             | None => Raise no_strip
             | Some source => Ok (language_of (derived_extension source))
             end
    end.
Proof.
  unfold get_language_from_metadata. rewrite !strip_get_or_empty.
  destruct (read_text metadata (lit "file_extension")) as [fe|]; [|done].
  destruct (decide (lower (strip fe) <> [])) as [Hfe|Hfe].
  - destruct (lower (strip fe)) as [|c ext] eqn:E; [done|].
    cbn [truthy negb]. unfold language_of.
    by rewrite EXT_TO_LANGUAGE_lookup.
  - assert (lower (strip fe) = []) as ->
      by (by destruct (lower (strip fe)); [|destruct Hfe]).
    cbn [truthy negb].
    destruct (read_text metadata (lit "source")) as [src|]; [|done].
    unfold derived_extension, contains, language_of.
    destruct (decide ("."%char ∈ strip src)) as [Hdot|Hdot].
    + rewrite bool_decide_eq_true_2 by done.
      rewrite last_rsplit1, !first_split. cbn [truthy].
      by rewrite EXT_TO_LANGUAGE_lookup.
    + rewrite bool_decide_eq_false_2 by done. reflexivity.
Qed.

(** C8, as stated, fails in two ways. The classifier is not total: with
    the number 5 as [file_extension] the [strip] call raises
    [AttributeError]. And a [file_extension] that is present and not empty
    but blank is not used: the classifier answers [MARKDOWN] from the
    [source] field, where the field itself names no language. *)
Lemma classifier_counterexamples :
  get_language_from_metadata number_extension_metadata = Raise no_strip
  /\ get_language_from_metadata blank_extension_metadata = Ok (Some MARKDOWN)
  /\ _EXT_TO_LANGUAGE !! extension_as_specified blank_extension_metadata = None
  /\ get_language_from_metadata blank_extension_metadata
     <> Ok (_EXT_TO_LANGUAGE !! extension_as_specified
                                 blank_extension_metadata).
Proof.
  assert (H0 : get_language_from_metadata number_extension_metadata
               = Raise no_strip) by reflexivity.
  assert (H1 : get_language_from_metadata blank_extension_metadata
               = Ok (Some MARKDOWN)) by reflexivity.
  assert (H2 : _EXT_TO_LANGUAGE !! extension_as_specified
                 blank_extension_metadata = None) by reflexivity.
  split; [exact H0|]. split; [exact H1|]. split; [exact H2|].
  rewrite H1, H2. discriminate.
Qed.

(** C8, amended. The classifier is a function of the metadata dict alone.
    It reads [file_extension] and [source] with [get(key) or ""]: a string
    reads as its text; an absent field, [None] and any other false value
    read as the empty string. It strips and lower-cases the
    [file_extension] text and uses it when that leaves something (a blank
    text counts as absent, and [source] is then not read at all);
    otherwise, when the stripped [source] text has a ['.'], it takes the
    part after the last ['.'], cuts it at the first ['/'] and at the first
    ['?'], lower-cases it and puts a ['.'] in front. [.md] and [.markdown]
    give [MARKDOWN], [.rst] gives [RST], and every other case gives [None].
    It returns whenever the fields it reads hold strings or false values.
    It is not total: a true value without a [strip] method (a number other
    than 0) in [file_extension], or in [source] when [source] is read,
    makes the [strip] call raise [AttributeError]. *)
Theorem classifier_total (metadata : pydict) :
  get_language_from_metadata metadata
  = match read_text metadata (lit "file_extension") with
    | None => Raise no_strip
    | Some file_extension =>
        let fe := lower (strip file_extension) in
        if decide (fe <> []) then
          Ok (if decide (fe = lit ".md" \/ fe = lit ".markdown")
              then Some MARKDOWN
              else if decide (fe = lit ".rst") then Some RST else None)
        else
          match read_text metadata (lit "source") with
          | None => Raise no_strip
          | Some source_text =>
              let source := strip source_text in
              let ext :=
                if decide ("."%char ∈ source)
                then "."%char
                     :: lower (upto "?" (upto "/" (after_last "." source)))
                else [] in
              Ok (if decide (ext = lit ".md" \/ ext = lit ".markdown")
                  then Some MARKDOWN
                  else if decide (ext = lit ".rst") then Some RST else None)
          end
    end.
Proof. exact (classifier_fields metadata). Qed.

(* ===================================================================== *)
(** * The re-split step: metadata of the slices                            *)
(* ===================================================================== *)

Lemma by_reference_stores_pairs : stores_pairs by_reference.
Proof. by split. Qed.

Lemma by_copy_stores_pairs : stores_pairs by_copy.
Proof.
  split; unfold by_copy, alloc; simpl.
  - intros m h _. rewrite length_app. simpl. lia.
  - intros m h l0 Hl. by rewrite lookup_app_l.
  - intros m h Hm. rewrite list_lookup_middle by done.
    apply lookup_lt_is_Some_2 in Hm as [d ->]. done.
Qed.

Lemma by_copy_stores_copy : stores_copy by_copy.
Proof. intros m h. unfold by_copy, alloc. simpl. lia. Qed.

Section MetadataTheory.

Variable hold : loc -> heap -> loc * heap.
Hypothesis Hpairs : stores_pairs hold.

Lemma hold_grows m h : (length h <= length (hold m h).2)%nat.
Proof.
  destruct (length h) as [|n] eqn:E; [lia|].
  assert (Hn : (n < length h)%nat) by lia.
  pose proof (hold_frame hold Hpairs m h n Hn) as Hf.
  apply lookup_lt_is_Some_2 in Hn as [d Hd]. rewrite Hd in Hf.
  apply lookup_lt_Some in Hf. lia.
Qed.

(** The documents built for the slices of one chunk: the heap only grows,
    the dicts that were there stay, and every new document holds the pairs
    of the dict at [m]. *)
Lemma new_Documents_heap pieces m h ds h' :
  (m < length h)%nat ->
  new_Documents hold pieces m h = (ds, h') ->
  (length h <= length h')%nat
  /\ (forall l0, (l0 < length h)%nat -> h' !! l0 = h !! l0)
  /\ Forall (fun d => (metadata d < length h')%nat
                      /\ h' !! metadata d = h !! m) ds.
Proof.
  revert h ds h'. induction pieces as [|p pieces IH]; intros h ds h' Hm.
  - simpl. intros [= <- <-]. by repeat split.
  - cbn [new_Documents]. unfold new_Document.
    pose proof (hold_valid hold Hpairs m h Hm) as Hv.
    pose proof (hold_frame hold Hpairs m h) as Hf.
    pose proof (hold_pairs hold Hpairs m h Hm) as Hp.
    pose proof (hold_grows m h) as Hg.
    destruct (hold m h) as [l h1]. simpl in *.
    destruct (new_Documents hold pieces m h1) as [ds1 h2] eqn:E.
    intros [= <- <-].
    destruct (IH h1 ds1 h2 ltac:(lia) E) as (Hg1 & Hf1 & Hall).
    split; [lia|]. split.
    { intros l0 Hl0. rewrite Hf1 by lia. by apply Hf. }
    constructor.
    + simpl. split; [lia|]. by rewrite Hf1.
    + eapply Forall_impl; [exact Hall|]. intros d [Hd1 Hd2].
      split; [done|]. rewrite Hd2. by apply Hf.
Qed.

(** With a constructor that stores a dict of its own, the new documents
    hold locations that were not in the heap, each a later one. *)
Lemma new_Documents_fresh pieces m h ds h' :
  stores_copy hold ->
  (m < length h)%nat ->
  new_Documents hold pieces m h = (ds, h') ->
  Forall (fun d => (length h <= metadata d)%nat) ds
  /\ (forall (i j : nat) di dj,
        ds !! i = Some di -> ds !! j = Some dj -> (i < j)%nat ->
        (metadata di < metadata dj)%nat).
Proof.
  intros Hcopy. revert h ds h'.
  induction pieces as [|p pieces IH]; intros h ds h' Hm.
  - simpl. intros [= <- <-]. split; [constructor|]. intros i j di dj Hi.
    by rewrite lookup_nil in Hi.
  - cbn [new_Documents]. unfold new_Document.
    pose proof (hold_valid hold Hpairs m h Hm) as Hv.
    pose proof (hold_grows m h) as Hg. pose proof (Hcopy m h) as Hc.
    destruct (hold m h) as [l h1]. simpl in *.
    destruct (new_Documents hold pieces m h1) as [ds1 h2] eqn:E.
    intros [= <- <-].
    destruct (IH h1 ds1 h2 ltac:(lia) E) as (Hall & Hinc).
    split.
    + constructor; [done|]. eapply Forall_impl; [exact Hall|].
      intros d Hd. simpl in *. lia.
    + intros [|i] [|j] di dj Hi Hj Hij; try lia; simpl in *.
      * injection Hi as <-. simpl.
        apply list_elem_of_lookup_2 in Hj.
        rewrite Forall_forall in Hall. specialize (Hall dj Hj). lia.
      * apply (Hinc i j); [done|done|lia].
Qed.

(** What the re-split step does to the heap around one chunk. *)
Lemma resplit_chunk_heap max_chars doc h ds h' :
  (metadata doc < length h)%nat ->
  resplit_chunk hold max_chars doc h = (Ok ds, h') ->
  (length h <= length h')%nat
  /\ (forall l0, (l0 < length h)%nat -> h' !! l0 = h !! l0)
  /\ Forall (fun d => (metadata d < length h')%nat
                      /\ h' !! metadata d = h !! metadata doc) ds.
Proof.
  intros Hm. unfold resplit_chunk.
  destruct (len (page_content doc) <=? max_chars).
  - intros [= <- <-]. split; [done|]. split; [done|].
    by apply Forall_singleton.
  - destruct (range 0 _ max_chars) as [starts|e]; [|done].
    destruct (new_Documents hold _ (metadata doc) h) as [ds0 h0] eqn:E.
    intros [= <- <-]. by eapply new_Documents_heap.
Qed.

Lemma resplit_heap chunks max_chars h r h' :
  Forall (fun d => (metadata d < length h)%nat) chunks ->
  _resplit_oversize_chunks hold chunks max_chars h = (Ok r, h') ->
  (length h <= length h')%nat
  /\ (forall l0, (l0 < length h)%nat -> h' !! l0 = h !! l0).
Proof.
  rewrite resplit_flat_mapM. revert h r h'.
  induction chunks as [|doc chunks IH]; intros h r h' Hv.
  - simpl. by intros [= <- <-].
  - apply Forall_cons in Hv as [Hd Hv]. cbn [flat_mapM].
    destruct (resplit_chunk hold max_chars doc h) as [[ds|e] h1] eqn:Ed;
      [|done].
    destruct (resplit_chunk_heap max_chars doc h ds h1 Hd Ed) as (Hg & Hf & _).
    destruct (flat_mapM _ chunks h1) as [[r1|e] h2] eqn:Er; [|done].
    intros [= <- <-].
    assert (Hv1 : Forall (fun d => (metadata d < length h1)%nat) chunks).
    { eapply Forall_impl; [exact Hv|]. intros d Hdl. simpl in *. lia. }
    destruct (IH h1 r1 h2 Hv1 Er) as (Hg1 & Hf1).
    split; [lia|]. intros l0 Hl0. rewrite Hf1 by lia. by apply Hf.
Qed.

End MetadataTheory.

Lemma resplit_chunk_fresh hold max_chars doc h ds h' :
  stores_pairs hold -> stores_copy hold ->
  (metadata doc < length h)%nat ->
  max_chars < len (page_content doc) ->
  resplit_chunk hold max_chars doc h = (Ok ds, h') ->
  Forall (fun d => (length h <= metadata d)%nat) ds
  /\ (forall (i j : nat) di dj,
        ds !! i = Some di -> ds !! j = Some dj -> (i < j)%nat ->
        (metadata di < metadata dj)%nat).
Proof.
  intros Hpairs Hcopy Hm Hgt. unfold resplit_chunk.
  destruct (Z.leb_spec (len (page_content doc)) max_chars); [lia|].
  destruct (range 0 _ max_chars) as [starts|e]; [|done].
  destruct (new_Documents hold _ (metadata doc) h) as [ds0 h0] eqn:E.
  intros [= <- <-]. by eapply new_Documents_fresh.
Qed.

(** Every chunk of a result is a chunk of the input or refers to a dict
    that the step allocated. *)
Lemma resplit_result_locations hold chunks max_chars h r h' :
  stores_pairs hold -> stores_copy hold ->
  Forall (fun d => (metadata d < length h)%nat) chunks ->
  _resplit_oversize_chunks hold chunks max_chars h = (Ok r, h') ->
  Forall (fun d => d ∈ chunks
                   \/ (length h <= metadata d < length h')%nat) r.
Proof.
  intros Hpairs Hcopy. rewrite resplit_flat_mapM. revert h r h'.
  induction chunks as [|doc chunks IH]; intros h r h' Hv.
  - simpl. intros [= <- <-]. constructor.
  - apply Forall_cons in Hv as [Hd Hv]. cbn [flat_mapM].
    destruct (resplit_chunk hold max_chars doc h) as [[ds|e] h1] eqn:Ed;
      [|done].
    destruct (resplit_chunk_heap hold Hpairs max_chars doc h ds h1 Hd Ed)
      as (Hg & Hf & Hall).
    destruct (flat_mapM _ chunks h1) as [[r1|e] h2] eqn:Er; [|done].
    intros [= <- <-].
    assert (Hv1 : Forall (fun d => (metadata d < length h1)%nat) chunks).
    { eapply Forall_impl; [exact Hv|]. intros d Hdl. simpl in *. lia. }
    pose proof (IH h1 r1 h2 Hv1 Er) as Hr1.
    rewrite <- resplit_flat_mapM in Er.
    destruct (resplit_heap hold Hpairs chunks max_chars h1 r1 h2 Hv1 Er)
      as (Hg1 & _).
    apply Forall_app. split.
    + destruct (Z.leb_spec (len (page_content doc)) max_chars) as [Hle|Hgt].
      * rewrite resplit_chunk_within in Ed by done.
        injection Ed as <- <-. apply Forall_singleton. left. by left.
      * destruct (resplit_chunk_fresh hold max_chars doc h ds h1 Hpairs Hcopy
                    Hd Hgt Ed) as (Hfresh & _).
        rewrite Forall_forall in Hall, Hfresh. apply Forall_forall.
        intros d Hin. right. destruct (Hall d Hin) as [Hlt _].
        pose proof (Hfresh d Hin). simpl in *. lia.
    + eapply Forall_impl; [exact Hr1|]. intros d [Hin|Hnew]; simpl in *.
      * left. by right.
      * right. lia.
Qed.

(** C2. The re-split step hands [doc.metadata] to the constructor of
    [Document], and that constructor stores a dict of its own with the same
    pairs ([by_copy]). So every slice cut from an oversize parent carries
    its own copy of the parent's metadata: after the step its dict has the
    key/value pairs of the parent's dict, at a location that no input chunk
    and no other chunk of the result refers to, and the dicts of the input
    chunks are as they were. Changing in place the metadata of one slice
    afterwards changes that slice's dict and nothing else: the dicts of the
    other slices of the parent, of the parent, of every other input chunk
    and of every other chunk of the result stay as they were. *)
Theorem resplit_metadata_by_value
    (pre post : list Document) (parent : Document) (max_chars : Z)
    (h : heap) (r : list Document) (h' : heap) :
  Forall (fun d => (metadata d < length h)%nat) (pre ++ parent :: post) ->
  max_chars < len (page_content parent) ->
  _resplit_oversize_chunks by_copy (pre ++ parent :: post) max_chars h
  = (Ok r, h') ->
  exists r_pre slices r_post h1 h2,
    r = r_pre ++ slices ++ r_post
    /\ _resplit_oversize_chunks by_copy pre max_chars h = (Ok r_pre, h1)
    /\ _resplit_oversize_chunks by_copy [parent] max_chars h1 = (Ok slices, h2)
    /\ _resplit_oversize_chunks by_copy post max_chars h2 = (Ok r_post, h')
    /\ (forall c, c ∈ pre ++ parent :: post ->
          metadata_of h' c = metadata_of h c)
    /\ (forall d, d ∈ slices ->
          metadata_of h' d = metadata_of h parent
          /\ is_Some (metadata_of h' d)
          /\ (forall c, c ∈ pre ++ parent :: post -> metadata d <> metadata c)
          /\ (forall c, c ∈ r_pre ++ r_post -> metadata d <> metadata c))
    /\ (forall (i j : nat) di dj,
          i <> j -> slices !! i = Some di -> slices !! j = Some dj ->
          metadata di <> metadata dj)
    /\ (forall (i j : nat) di dj f,
          i <> j -> slices !! i = Some di -> slices !! j = Some dj ->
          let hm := metadata_mutate di f h' in
          metadata_of hm di = f <$> metadata_of h' di
          /\ metadata_of hm dj = metadata_of h' dj
          /\ (forall c, c ∈ pre ++ parent :: post ->
                metadata_of hm c = metadata_of h' c)
          /\ (forall c, c ∈ r_pre ++ r_post ->
                metadata_of hm c = metadata_of h' c)).
Proof.
  intros Hvalid Hgt Hr.
  pose proof by_copy_stores_pairs as Hpairs.
  pose proof by_copy_stores_copy as Hcopy.
  destruct (resplit_decompose by_copy pre parent post max_chars h r h' Hr)
    as (r_pre & slices & r_post & h1 & h2 & Hpre & Hdoc & Hpost & ->).
  exists r_pre, slices, r_post, h1, h2.
  apply Forall_app in Hvalid as [Hvpre Hvrest].
  apply Forall_cons in Hvrest as [Hvparent Hvpost].
  destruct (resplit_heap by_copy Hpairs pre max_chars h r_pre h1 Hvpre Hpre)
    as (Hg1 & Hf1).
  destruct (resplit_chunk_heap by_copy Hpairs max_chars parent h1 slices h2
              ltac:(lia) Hdoc) as (Hg2 & Hf2 & Hall).
  assert (Hvpost2 : Forall (fun d => (metadata d < length h2)%nat) post).
  { eapply Forall_impl; [exact Hvpost|]. intros d Hd. simpl in *. lia. }
  destruct (resplit_heap by_copy Hpairs post max_chars h2 r_post h' Hvpost2
              Hpost) as (Hg3 & Hf3).
  destruct (resplit_chunk_fresh by_copy max_chars parent h1 slices h2 Hpairs
              Hcopy ltac:(lia) Hgt Hdoc) as (Hfresh & Hinc).
  pose proof (resplit_result_locations by_copy pre max_chars h r_pre h1
                Hpairs Hcopy Hvpre Hpre) as Hlpre.
  pose proof (resplit_result_locations by_copy post max_chars h2 r_post h'
                Hpairs Hcopy Hvpost2 Hpost) as Hlpost.
  rewrite Forall_forall in Hall, Hfresh, Hlpre, Hlpost, Hvpost.
  assert (Hframe : forall l0, (l0 < length h)%nat -> h' !! l0 = h !! l0).
  { intros l0 Hl0. rewrite Hf3 by lia. rewrite Hf2 by lia. by apply Hf1. }
  assert (Hinput : forall c, c ∈ pre ++ parent :: post ->
                     (metadata c < length h)%nat).
  { intros c Hc. apply elem_of_app in Hc as [Hc|Hc].
    - rewrite Forall_forall in Hvpre. by apply Hvpre.
    - apply elem_of_cons in Hc as [->|Hc]; [done|]. by apply Hvpost. }
  assert (Hslice : forall d, d ∈ slices ->
                     (length h1 <= metadata d < length h2)%nat).
  { intros d Hd. destruct (Hall d Hd) as [Hlt _].
    pose proof (Hfresh d Hd). simpl in *. lia. }
  assert (Hother : forall d c, d ∈ slices -> c ∈ r_pre ++ r_post ->
                     metadata d <> metadata c).
  { intros d c Hd Hc. pose proof (Hslice d Hd).
    apply elem_of_app in Hc as [Hc|Hc].
    - destruct (Hlpre c Hc) as [Hin|Hnew]; simpl in *; [|lia].
      rewrite Forall_forall in Hvpre. pose proof (Hvpre c Hin). lia.
    - destruct (Hlpost c Hc) as [Hin|Hnew]; simpl in *; [|lia].
      pose proof (Hvpost c Hin). lia. }
  assert (Hdistinct : forall (i j : nat) di dj,
            i <> j -> slices !! i = Some di -> slices !! j = Some dj ->
            metadata di <> metadata dj).
  { intros i j di dj Hij Hi Hj.
    destruct (Nat.lt_total i j) as [Hlt|[->|Hlt]]; [|done|].
    - pose proof (Hinc i j di dj Hi Hj Hlt). lia.
    - pose proof (Hinc j i dj di Hj Hi Hlt). lia. }
  split; [done|]. split; [done|]. split.
  { rewrite resplit_flat_mapM. cbn [flat_mapM]. rewrite Hdoc.
    by rewrite app_nil_r. }
  split; [done|]. split.
  { intros c Hc. unfold metadata_of. apply Hframe. by apply Hinput. }
  split.
  { intros d Hd. destruct (Hall d Hd) as [Hd1 Hd2].
    pose proof (Hslice d Hd) as Hloc. split; [|split; [|split]].
    - unfold metadata_of. rewrite Hf3 by done. rewrite Hd2. by apply Hf1.
    - unfold metadata_of. apply lookup_lt_is_Some. lia.
    - intros c Hc. pose proof (Hinput c Hc). lia.
    - intros c Hc. by apply Hother. }
  split; [exact Hdistinct|].
  intros i j di dj f Hij Hi Hj hm.
  unfold hm, metadata_mutate, metadata_of.
  pose proof (list_elem_of_lookup_2 _ _ _ Hi) as Hdi.
  split; [apply list_lookup_alter_eq|]. split; [|split].
  - apply list_lookup_alter_ne. by apply (Hdistinct i j).
  - intros c Hc. apply list_lookup_alter_ne.
    pose proof (Hslice di Hdi). pose proof (Hinput c Hc). lia.
  - intros c Hc. apply list_lookup_alter_ne. by apply Hother.
Qed.

Lemma resplit_metadata_by_value_witness :
  Forall (fun d => (metadata d < length sample_heap)%nat)
    ([sample_short] ++ sample_long :: [])
  /\ 4 < len (page_content sample_long)
  /\ _resplit_oversize_chunks by_copy ([sample_short] ++ sample_long :: []) 4
       sample_heap
     = (Ok [sample_short; sample_slice1; sample_slice2],
        sample_heap ++ sample_heap ++ sample_heap)
  /\ metadata_of (sample_heap ++ sample_heap ++ sample_heap) sample_slice1
     = metadata_of sample_heap sample_long
  /\ metadata sample_slice1 <> metadata sample_slice2
  /\ metadata_of
       (metadata_setitem sample_slice1 (lit "note") (PyStr (lit "edited"))
          (sample_heap ++ sample_heap ++ sample_heap)) sample_slice2
     = metadata_of (sample_heap ++ sample_heap ++ sample_heap) sample_slice2
  /\ metadata_of
       (metadata_setitem sample_slice1 (lit "note") (PyStr (lit "edited"))
          (sample_heap ++ sample_heap ++ sample_heap)) sample_long
     = metadata_of (sample_heap ++ sample_heap ++ sample_heap) sample_long.
Proof.
  assert (H1 : Forall (fun d => (metadata d < length sample_heap)%nat)
                 ([sample_short] ++ sample_long :: [])).
  { repeat constructor. }
  assert (H2 : 4 < len (page_content sample_long)) by (vm_compute; reflexivity).
  assert (H3 : _resplit_oversize_chunks by_copy
                 ([sample_short] ++ sample_long :: []) 4 sample_heap
               = (Ok [sample_short; sample_slice1; sample_slice2],
                  sample_heap ++ sample_heap ++ sample_heap))
    by reflexivity.
  assert (Epre : _resplit_oversize_chunks by_copy [sample_short] 4 sample_heap
                 = (Ok [sample_short], sample_heap)) by reflexivity.
  assert (Edoc : _resplit_oversize_chunks by_copy [sample_long] 4 sample_heap
                 = (Ok [sample_slice1; sample_slice2],
                    sample_heap ++ sample_heap ++ sample_heap))
    by reflexivity.
  split; [exact H1|]. split; [exact H2|]. split; [exact H3|].
  destruct (resplit_metadata_by_value [sample_short] [] sample_long 4
              sample_heap _ _ H1 H2 H3)
    as (r_pre & slices & r_post & h1 & h2 & _ & Hpre & Hdoc & _ & _
        & Hpairs & Hlocs & Hmut).
  rewrite Epre in Hpre. injection Hpre as <- <-.
  rewrite Edoc in Hdoc. injection Hdoc as <- <-.
  split; [apply (Hpairs sample_slice1); left|].
  split; [exact (Hlocs 0%nat 1%nat sample_slice1 sample_slice2
                   ltac:(discriminate) eq_refl eq_refl)|].
  destruct (Hmut 0%nat 1%nat sample_slice1 sample_slice2
              (fun m : pydict => <[lit "note" := PyStr (lit "edited")]> m)
              ltac:(discriminate) eq_refl eq_refl)
    as (_ & Hsib & Hin & _).
  split; [exact Hsib|]. apply Hin. right. left.
Defined.

(* ===================================================================== *)
(** * The splitter of the library on a text without whitespace             *)
(* ===================================================================== *)

Module LangChainTheory.

Import LangChain.

Lemma bind_all_nil {A B} (l : list A) (g : A -> list B) :
  (forall a, g a = []) -> l ≫= g = [].
Proof.
  intros Hg. induction l as [|a l IH]; [done|].
  by rewrite bind_cons, Hg, IH.
Qed.

(** A pattern that needs a character of [P] matches nowhere at the start
    of a text without one. *)
Lemma match_lengths_needs (P : ascii -> bool) (r : regex) (s : str) :
  Forall (fun c => P c = false) s -> needs P r = true ->
  match_lengths r s = [].
Proof.
  revert s. induction r as [c| |r1 IH1 r2 IH2|r1 IH1 lo hi]; intros s Hs Hn.
  - destruct s as [|x s]; [done|]. simpl in *.
    apply Forall_cons in Hs as [Hx _].
    case_bool_decide; [subst; congruence|done].
  - done.
  - cbn [match_lengths]. cbn [needs] in Hn.
    apply orb_true_iff in Hn as [Hn|Hn].
    + by rewrite (IH1 s Hs Hn).
    + apply bind_all_nil. intros n1.
      by rewrite (IH2 (drop n1 s) (Forall_drop _ _ _ Hs) Hn).
  - cbn [match_lengths]. cbn [needs] in Hn.
    apply andb_true_iff in Hn as [Hlo Hn].
    apply Nat.ltb_lt in Hlo.
    destruct (length s) as [|fuel]; cbn [rep_lengths];
      destruct (Nat.leb_spec lo 0); try lia; try done.
    rewrite (IH1 s Hs Hn).
    destruct hi as [n|]; [destruct (0 <? n)%nat|]; reflexivity.
Qed.

Lemma search_needs (P : ascii -> bool) (r : regex) (s : str) :
  Forall (fun c => P c = false) s -> needs P r = true ->
  search r s = false.
Proof.
  intros Hs Hn. induction s as [|x s IH].
  - cbn [search]. unfold match_here.
    by rewrite (match_lengths_needs P r [] Hs Hn).
  - cbn [search]. unfold match_here.
    rewrite (match_lengths_needs P r (x :: s) Hs Hn).
    apply IH. by apply Forall_cons in Hs as [_ Hs].
Qed.

(** With separators that all need a character of [P], followed by the empty
    separator, a text without such a character is cut into its
    characters. *)
Lemma split_text_singles (P : ascii -> bool) (chunk_size chunk_overlap : Z)
    (seps : list separator) (text : str) :
  Forall (fun sep => needs P (regex_of sep) = true) seps ->
  Forall (fun c => P c = false) text ->
  _split_text chunk_size chunk_overlap (seps ++ [Literal []]) text
  = split_pieces chunk_size chunk_overlap None (singles text) [] [].
Proof.
  intros Hseps Htext. induction seps as [|sep seps IH].
  - cbn [app _split_text]. unfold _split_text_with_regex. f_equal.
    unfold singles. clear. induction text as [|c text IH]; [done|].
    rewrite fmap_cons, filter_cons_True by done. by rewrite IH.
  - apply Forall_cons in Hseps as [Hsep Hseps].
    rewrite <- app_comm_cons. cbn [_split_text].
    rewrite (search_needs P _ _ Htext Hsep). specialize (IH Hseps).
    destruct sep as [[|c sep]|r]; [done| |];
      (destruct (seps ++ [Literal []]) as [|s0 rest] eqn:E;
       [by destruct seps|exact IH]).
Qed.

(** All the Markdown separators before the last need white space; the last
    one is the empty separator. *)
Lemma markdown_separators_need_space :
  exists seps,
    markdown_separators = seps ++ [Literal []]
    /\ Forall (fun sep => needs isspace (regex_of sep) = true) seps.
Proof.
  exists (take 8 markdown_separators). split; [reflexivity|].
  repeat constructor.
Qed.

Lemma concat_singles (text : str) : concat (singles text) = text.
Proof. induction text as [|c text IH]; [done|]. simpl. by rewrite IH. Qed.

Lemma singles_app (s t : str) : singles (s ++ t) = singles s ++ singles t.
Proof. unfold singles. apply fmap_app. Qed.

(** Pieces of one character are all collected and merged at the end. *)
Lemma split_pieces_singles (chunk_size chunk_overlap : Z) (text : str)
    (good final : list str) :
  1 < chunk_size ->
  split_pieces chunk_size chunk_overlap None (singles text) good final
  = match good ++ singles text with
    | [] => final
    | _ :: _ =>
        final ++ _merge_splits chunk_size chunk_overlap (good ++ singles text)
    end.
Proof.
  intros Hsize. revert good.
  induction text as [|c text IH]; intros good.
  - cbn [singles fmap list_fmap split_pieces]. rewrite app_nil_r.
    by destruct good.
  - unfold singles. rewrite fmap_cons. fold (singles text).
    cbn [split_pieces].
    destruct (Z.ltb_spec (len [c]) chunk_size) as [_|Hge];
      [|unfold len in Hge; simpl in Hge; lia].
    rewrite IH. by rewrite <- app_assoc.
Qed.

(** A text without white space at its ends is its own [strip]. *)
Lemma strip_nonspace (s : str) :
  Forall (fun c => isspace c = false) s -> strip s = s.
Proof.
  intros Hs. unfold strip, rstrip.
  assert (Hl : forall t : str,
            Forall (fun c => isspace c = false) t -> lstrip t = t).
  { intros [|c t] Ht; [done|]. apply Forall_cons in Ht as [Hc _].
    simpl. by rewrite Hc. }
  rewrite (Hl s Hs), Hl by (by apply Forall_reverse).
  apply reverse_involutive.
Qed.

Lemma join_docs_singles (cur : str) :
  cur <> [] -> Forall (fun c => isspace c = false) cur ->
  _join_docs (singles cur) = Some cur.
Proof.
  intros Hne Hs. unfold _join_docs.
  rewrite concat_singles, strip_nonspace by done. by destruct cur.
Qed.

(** The front of the current pieces is dropped down to the overlap. *)
Lemma pop_front_singles (cur : str) :
  (length cur <= 500)%nat ->
  pop_front 500 50 1 (singles cur) (len cur)
  = (singles (drop (length cur - 50) cur),
     Z.of_nat (Nat.min (length cur) 50)).
Proof.
  induction cur as [|c cur IH]; intros Hlen; [done|].
  unfold singles. rewrite fmap_cons. fold (singles cur).
  cbn [pop_front]. cbn [length] in Hlen.
  destruct (Z.ltb_spec 50 (len (c :: cur))) as [Hgt|Hle].
  - cbn [orb]. unfold len in Hgt. cbn [length] in Hgt.
    replace (len (c :: cur) - len [c]) with (len cur)
      by (unfold len; cbn [length]; lia).
    rewrite IH by lia. cbn [length].
    replace (S (length cur) - 50)%nat with (S (length cur - 50)) by lia.
    cbn [drop]. f_equal. lia.
  - cbn [orb]. unfold len in Hle. cbn [length] in Hle.
    destruct (Z.ltb_spec 500 (len (c :: cur) + 1)) as [Hbig|_];
      [unfold len in Hbig; cbn [length] in Hbig; lia|].
    cbn [andb length].
    replace (S (length cur) - 50)%nat with 0%nat by lia.
    rewrite drop_0. unfold singles. rewrite fmap_cons. f_equal.
    unfold len. cbn [length]. lia.
Qed.

(** While the current pieces have room, the next characters are added. *)
Lemma merge_loop_fill (pre cur rest : str) (docs : list str) :
  (length cur + length pre <= 500)%nat ->
  merge_loop 500 50 (singles (pre ++ rest)) docs (singles cur) (len cur)
  = merge_loop 500 50 (singles rest) docs (singles (cur ++ pre))
      (len (cur ++ pre)).
Proof.
  revert cur. induction pre as [|c pre IH]; intros cur Hlen.
  - by rewrite app_nil_r.
  - cbn [length] in Hlen. rewrite <- app_comm_cons.
    unfold singles at 1. rewrite fmap_cons. fold (singles (pre ++ rest)).
    cbn [merge_loop].
    destruct (Z.ltb_spec 500 (len cur + len [c])) as [Hbig|_];
      [unfold len in Hbig; cbn [length] in Hbig; lia|].
    replace (singles cur ++ [[c]]) with (singles (cur ++ [c]))
      by (by rewrite singles_app).
    replace (len cur + len [c]) with (len (cur ++ [c]))
      by (unfold len; rewrite length_app; cbn [length]; lia).
    rewrite IH by (rewrite length_app; cbn [length]; lia).
    by rewrite <- app_assoc.
Qed.

(** When the current pieces are full, they are joined into a chunk and its
    last 50 characters are kept as the start of the next one. *)
Lemma merge_loop_flush (c : ascii) (cur rest : str) (docs : list str) :
  length cur = 500%nat ->
  Forall (fun c => isspace c = false) cur ->
  merge_loop 500 50 (singles (c :: rest)) docs (singles cur) (len cur)
  = merge_loop 500 50 (singles rest) (docs ++ [cur])
      (singles (drop 450 cur ++ [c])) (len (drop 450 cur ++ [c])).
Proof.
  intros Hlen Hs. unfold singles at 1. rewrite fmap_cons.
  fold (singles rest). cbn [merge_loop].
  destruct (Z.ltb_spec 500 (len cur + len [c])) as [_|Hsmall];
    [|unfold len in Hsmall; cbn [length] in Hsmall; lia].
  assert (Hne : cur <> []) by (intros ->; discriminate Hlen).
  destruct (singles cur) as [|s0 ss] eqn:E.
  { destruct cur; [done|discriminate E]. }
  rewrite <- E. rewrite join_docs_singles by done. cbn [append_doc].
  change (len [c]) with 1.
  rewrite pop_front_singles by lia. rewrite Hlen.
  change (500 - 50)%nat with 450%nat.
  change (Z.of_nat (Nat.min 500 50)) with 50.
  rewrite singles_app. f_equal.
  unfold len. rewrite length_app, length_drop, Hlen. cbn [length]. lia.
Qed.

Lemma merge_loop_end (cur : str) (docs : list str) (total : Z) :
  cur <> [] -> Forall (fun c => isspace c = false) cur ->
  merge_loop 500 50 [] docs (singles cur) total = docs ++ [cur].
Proof.
  intros Hne Hs. cbn [merge_loop]. by rewrite join_docs_singles.
Qed.

(** The characters of a text of 1200 characters without white space are
    merged into three chunks: characters 0 to 499, 450 to 949 and 900 to
    1199. *)
Lemma merge_splits_1200 (u v m z y : str) :
  length u = 450%nat -> length v = 50%nat -> length m = 400%nat ->
  length z = 50%nat -> length y = 250%nat ->
  Forall (fun c => isspace c = false) (u ++ v ++ m ++ z ++ y) ->
  _merge_splits 500 50 (singles (u ++ v ++ m ++ z ++ y))
  = [u ++ v; v ++ m ++ z; z ++ y].
Proof.
  intros Hu Hv Hm Hz Hy Hs.
  rewrite !Forall_app in Hs. destruct Hs as (Hsu & Hsv & Hsm & Hsz & Hsy).
  unfold _merge_splits.
  change (@nil str) with (singles []) at 2. change 0 with (len (@nil ascii)).
  replace (u ++ v ++ m ++ z ++ y) with ((u ++ v) ++ m ++ z ++ y)
    by (by rewrite <- app_assoc).
  rewrite merge_loop_fill by (rewrite length_app; cbn [length]; lia).
  rewrite app_nil_l.
  destruct m as [|c m]; [discriminate Hm|]. cbn [length] in Hm.
  rewrite <- app_comm_cons.
  rewrite merge_loop_flush
    by (rewrite ?length_app, ?Forall_app; (lia || done)).
  rewrite drop_app_length' by done.
  apply Forall_cons in Hsm as [Hc Hsm].
  replace (m ++ z ++ y) with ((m ++ z) ++ y) by (by rewrite <- app_assoc).
  rewrite merge_loop_fill by (rewrite !length_app; cbn [length]; lia).
  destruct y as [|c' y]; [discriminate Hy|]. cbn [length] in Hy.
  apply Forall_cons in Hsy as [Hc' Hsy].
  assert (Hcur : (v ++ [c]) ++ m ++ z = (v ++ c :: m) ++ z)
    by (by rewrite <- !app_assoc).
  rewrite Hcur.
  rewrite merge_loop_flush.
  2:{ rewrite !length_app. cbn [length]. lia. }
  2:{ rewrite !Forall_app, Forall_cons. done. }
  rewrite drop_app_length' by (rewrite length_app; cbn [length]; lia).
  rewrite <- (app_nil_r y) at 1.
  rewrite merge_loop_fill by (rewrite !length_app; cbn [length]; lia).
  rewrite merge_loop_end.
  - cbn [app]. by rewrite <- !app_assoc.
  - by destruct z.
  - rewrite !Forall_app, Forall_cons, Forall_nil. done.
Qed.

(** The same with the chunks as slices of the text. *)
Lemma merge_splits_whitespace_free (text : str) :
  length text = 1200%nat ->
  Forall (fun c => isspace c = false) text ->
  _merge_splits 500 50 (singles text)
  = [take 500 text; take 500 (drop 450 text); drop 900 text].
Proof.
  intros Hlen Hs.
  set (u := take 450 text). set (v := take 50 (drop 450 text)).
  set (m := take 400 (drop 500 text)). set (z := take 50 (drop 900 text)).
  set (y := drop 950 text).
  assert (Htext : text = u ++ v ++ m ++ z ++ y).
  { unfold u, v, m, z, y.
    rewrite <- (take_drop 450 text) at 1. f_equal.
    rewrite <- (take_drop 50 (drop 450 text)) at 1. f_equal.
    rewrite drop_drop. change (450 + 50)%nat with 500%nat.
    rewrite <- (take_drop 400 (drop 500 text)) at 1. f_equal.
    rewrite drop_drop. change (500 + 400)%nat with 900%nat.
    rewrite <- (take_drop 50 (drop 900 text)) at 1. f_equal.
    by rewrite drop_drop. }
  assert (Hu : length u = 450%nat) by (unfold u; rewrite length_take; lia).
  assert (Hv : length v = 50%nat)
    by (unfold v; rewrite length_take, length_drop; lia).
  assert (Hm : length m = 400%nat)
    by (unfold m; rewrite length_take, length_drop; lia).
  assert (Hz : length z = 50%nat)
    by (unfold z; rewrite length_take, length_drop; lia).
  assert (Hy : length y = 250%nat) by (unfold y; rewrite length_drop; lia).
  clearbody u v m z y. subst text.
  rewrite merge_splits_1200 by done. f_equal; [|f_equal; [|f_equal]].
  - rewrite app_assoc.
    by rewrite take_app_length' by (rewrite length_app; lia).
  - rewrite drop_app_length' by done.
    replace (v ++ m ++ z ++ y) with ((v ++ m ++ z) ++ y)
      by (by rewrite <- !app_assoc).
    by rewrite take_app_length' by (rewrite !length_app; lia).
  - replace (u ++ v ++ m ++ z ++ y) with ((u ++ v ++ m) ++ z ++ y)
      by (by rewrite <- !app_assoc).
    by rewrite drop_app_length' by (rewrite !length_app; lia).
Qed.

Lemma create_documents_texts (hold : loc -> heap -> loc * heap)
    (chunks : list str) (m : loc) (h : heap) :
  texts (create_documents hold chunks m h).1 = chunks.
Proof.
  revert h. induction chunks as [|c chunks IH]; intros h; [done|].
  cbn [create_documents]. unfold alloc, new_Document.
  destruct (hold _ _) as [l h2].
  specialize (IH h2). destruct (create_documents hold chunks m h2) as [ds h3].
  simpl in *. by rewrite IH.
Qed.

(** The Markdown splitter of the scenario on a text of 1200 characters
    without white space. *)
Lemma split_documents_whitespace_free (hold : loc -> heap -> loc * heap)
    (doc : Document) (h : heap) :
  length (page_content doc) = 1200%nat ->
  Forall (fun c => isspace c = false) (page_content doc) ->
  exists chunks h1,
    split_documents hold (from_language MARKDOWN 500 50) [doc] h
    = (Returns chunks, h1)
    /\ texts chunks = [take 500 (page_content doc);
                       take 500 (drop 450 (page_content doc));
                       drop 900 (page_content doc)].
Proof.
  intros Hlen Hs. cbn [split_documents]. unfold split_text.
  cbn [chunk_size_of chunk_overlap_of separators_of].
  change (500 <=? 0) with false. change (50 <? 0) with false.
  change (500 <? 50) with false. cbv iota.
  destruct markdown_separators_need_space as (seps & -> & Hseps).
  rewrite (split_text_singles isspace) by done.
  rewrite split_pieces_singles by lia. rewrite app_nil_l.
  destruct (singles (page_content doc)) as [|s0 ss] eqn:E.
  { destruct (page_content doc); [discriminate Hlen|discriminate E]. }
  rewrite <- E, app_nil_l, merge_splits_whitespace_free by done.
  pose proof (create_documents_texts hold
                [take 500 (page_content doc);
                 take 500 (drop 450 (page_content doc));
                 drop 900 (page_content doc)] (metadata doc) h) as Ht.
  destruct (create_documents hold _ (metadata doc) h) as [ds h1].
  exists (ds ++ []), h1. split; [done|]. by rewrite app_nil_r.
Qed.

End LangChainTheory.

(** C4, as stated, fails at its first step: the separator table of the
    Markdown splitter ends with the empty separator, so a text without any
    other separator is cut into single characters and packed again up to
    [chunk_size]. The splitting step gives three chunks of 500, 500 and 300
    characters, not one chunk of 1200. *)
Lemma scenario_step2_three_chunks :
  exists chunks h1,
    scenario_step2 by_copy = (Ok chunks, h1)
    /\ length <$> texts chunks = [500; 500; 300]%nat
    /\ ~ (exists c, chunks = [c] /\ length (page_content c) = 1200%nat).
Proof.
  assert (Hv : match (scenario_step2 by_copy).1 with
               | Ok r => length <$> texts r
               | Raise _ => []
               end = [500; 500; 300]%nat) by (vm_compute; reflexivity).
  destruct (scenario_step2 by_copy) as [[chunks|e] h1]; [|discriminate Hv].
  exists chunks, h1. split; [reflexivity|]. split; [exact Hv|].
  intros (c & -> & _). discriminate Hv.
Qed.

Lemma resplit_whitespace_free_1200 (hold : loc -> heap -> loc * heap)
    (doc : Document) (h : heap) :
  length (page_content doc) = 1200%nat ->
  Forall (fun c => isspace c = false) (page_content doc) ->
  exists r h',
    _resplit_oversize_chunks hold [doc] 500 h = (Ok r, h')
    /\ length <$> texts r = [500; 500; 200]%nat
    /\ concat (texts r) = page_content doc
    /\ oversize_indices r 500 = [].
Proof.
  intros Hlen Hns.
  destruct (resplit_positive hold [doc] 500 h ltac:(lia)) as (r & h' & Hr & Ht).
  exists r, h'. split; [exact Hr|].
  pose proof (resplit_compliant hold [doc] 500 h r h' Hr) as Hc.
  assert (Hrep : texts r
                 = [take 500 (page_content doc);
                    take 500 (drop 500 (page_content doc));
                    take 500 (drop 1000 (page_content doc))]).
  { rewrite Ht. unfold texts. rewrite fmap_cons, bind_cons. simpl.
    rewrite app_nil_r. unfold replacement.
    destruct (Z.leb_spec (len (page_content doc)) 500) as [Hle|_];
      [unfold len in Hle; lia|].
    unfold len. rewrite Hlen.
    change (offsets (Z.of_nat 1200) 500) with [0; 500; 1000].
    unfold cut. rewrite !fmap_cons, fmap_nil.
    rewrite !slice_nonneg by lia.
    change (Z.to_nat (0 + 500) - Z.to_nat 0)%nat with 500%nat.
    change (Z.to_nat (500 + 500) - Z.to_nat 500)%nat with 500%nat.
    change (Z.to_nat (1000 + 500) - Z.to_nat 1000)%nat with 500%nat.
    change (Z.to_nat 0) with 0%nat. change (Z.to_nat 500) with 500%nat.
    change (Z.to_nat 1000) with 1000%nat. rewrite drop_0.
    rewrite kept_nonblank.
    assert (Hkeep : forall p : str,
              p <> [] -> Forall (fun c => isspace c = false) p ->
              blank p = false).
    { intros [|c p] Hp Hall; [done|]. apply Forall_cons in Hall as [Hcs _].
      simpl. by rewrite Hcs. }
    assert (Hp1 : blank (take 500 (page_content doc)) = false).
    { apply Hkeep; [|by apply Forall_take]. intros Hnil.
      apply (f_equal length) in Hnil. rewrite length_take, Hlen in Hnil.
      cbn [length] in Hnil. lia. }
    assert (Hp2 : blank (take 500 (drop 500 (page_content doc))) = false).
    { apply Hkeep; [|by apply Forall_take, Forall_drop]. intros Hnil.
      apply (f_equal length) in Hnil.
      rewrite length_take, length_drop, Hlen in Hnil.
      cbn [length] in Hnil. lia. }
    assert (Hp3 : blank (take 500 (drop 1000 (page_content doc))) = false).
    { apply Hkeep; [|by apply Forall_take, Forall_drop]. intros Hnil.
      apply (f_equal length) in Hnil.
      rewrite length_take, length_drop, Hlen in Hnil.
      cbn [length] in Hnil. lia. }
    rewrite (filter_cons_True (fun p : str => blank p = false) _ _ Hp1),
      (filter_cons_True (fun p : str => blank p = false) _ _ Hp2),
      (filter_cons_True (fun p : str => blank p = false) _ _ Hp3).
    by rewrite filter_nil. }
  split.
  { rewrite Hrep. simpl. rewrite !length_take, !length_drop, Hlen. done. }
  split.
  { rewrite Hrep. simpl. rewrite app_nil_r.
    rewrite (take_ge (drop 1000 (page_content doc)))
      by (rewrite length_drop; lia).
    rewrite <- (take_drop 500 (page_content doc)) at 4.
    f_equal. rewrite <- (take_drop 500 (drop 500 (page_content doc))) at 2.
    by rewrite drop_drop. }
  by apply oversize_from_compliant.
Qed.

(** C4, amended. Given one document with [file_extension=".md"] whose
    text is a run of 1200 characters without whitespace, with
    [MAX_CHARS = chunk_size = 500] (and the overlap 50 that
    [run_pipeline] derives): none of the separators of the library's
    Markdown splitter occurs in the text except the last, empty one, so the
    splitting step cuts the text into characters and packs them again up to
    [chunk_size] and gives, with any constructor, three chunks, the
    characters 0 to 499, 450 to 949 and 900 to 1199 of the text: 500, 500
    and 300 characters. The re-split step returns them as they are and the
    invariant check finds nothing oversize. And whenever the re-split step
    is handed one chunk of 1200 characters without whitespace, it gives
    exactly three chunks of 500, 500 and 200 characters, in that order,
    that concatenate to the text, and the invariant check finds nothing
    oversize. *)
Theorem scenario_pipeline (hold : loc -> heap -> loc * heap)
    (doc : Document) (h : heap) :
  length (page_content doc) = 1200%nat ->
  Forall (fun c => isspace c = false) (page_content doc) ->
  (deref h (metadata doc) !! lit "file_extension" = Some (PyStr (lit ".md")) ->
   exists chunks h1,
     _chunk_documents_with_language_awareness 500
       (LangChain.split_documents hold) [doc] 500 (Z.max 50 (500 / 10)) h
     = (Ok chunks, h1)
     /\ texts chunks = [take 500 (page_content doc);
                        take 500 (drop 450 (page_content doc));
                        drop 900 (page_content doc)]
     /\ length <$> texts chunks = [500; 500; 300]%nat
     /\ _resplit_oversize_chunks hold chunks 500 h1 = (Ok chunks, h1)
     /\ oversize_indices chunks 500 = [])
  /\ exists r h',
       _resplit_oversize_chunks hold [doc] 500 h = (Ok r, h')
       /\ length <$> texts r = [500; 500; 200]%nat
       /\ concat (texts r) = page_content doc
       /\ oversize_indices r 500 = [].
Proof.
  intros Hlen Hns. split; [|by apply resplit_whitespace_free_1200].
  intros Hmd.
  assert (Hlang : get_language_from_metadata (deref h (metadata doc))
                  = Ok (Some MARKDOWN)).
  { rewrite classifier_fields. unfold read_text at 1. rewrite Hmd.
    reflexivity. }
  destruct (LangChainTheory.split_documents_whitespace_free hold doc h
              Hlen Hns) as (chunks & h1 & Hsplit & Htexts).
  exists chunks, h1.
  assert (Hl : length <$> texts chunks = [500; 500; 300]%nat).
  { rewrite Htexts. rewrite !fmap_cons, fmap_nil.
    rewrite !length_take, !length_drop, Hlen. reflexivity. }
  assert (Hc : Forall (compliant 500) chunks).
  { unfold texts in Hl. rewrite <- list_fmap_compose in Hl.
    apply Forall_forall. intros d Hd. unfold compliant, len.
    apply (list_elem_of_fmap_2 (length ∘ page_content)) in Hd.
    rewrite Hl in Hd. simpl in Hd.
    repeat (apply elem_of_cons in Hd as [->|Hd]; [lia|]).
    by apply elem_of_nil in Hd. }
  split.
  { unfold _chunk_documents_with_language_awareness.
    cbn [group_by_language]. rewrite Hlang.
    cbn [setdefault_append split_groups].
    change (get_text_splitter_for_language 500 (Some MARKDOWN) (Some 500)
              (Some (Z.max 50 (500 / 10))))
      with (from_language MARKDOWN 500 50).
    by rewrite Hsplit. }
  split; [exact Htexts|]. split; [exact Hl|].
  split; [by apply resplit_identity|].
  by apply oversize_from_compliant.
Qed.

Lemma scenario_pipeline_witness :
  length (page_content scenario_doc) = 1200%nat
  /\ Forall (fun c => isspace c = false) (page_content scenario_doc)
  /\ deref scenario_heap (metadata scenario_doc) !! lit "file_extension"
     = Some (PyStr (lit ".md"))
  /\ (exists chunks h1,
        scenario_step2 by_copy = (Ok chunks, h1)
        /\ length <$> texts chunks = [500; 500; 300]%nat
        /\ oversize_indices chunks 500 = [])
  /\ exists r h',
       _resplit_oversize_chunks by_copy [scenario_doc] 500 scenario_heap
       = (Ok r, h')
       /\ length <$> texts r = [500; 500; 200]%nat.
Proof.
  assert (H1 : length (page_content scenario_doc) = 1200%nat)
    by apply length_replicate.
  assert (H2 : Forall (fun c => isspace c = false) (page_content scenario_doc)).
  { apply Forall_replicate. reflexivity. }
  assert (H3 : deref scenario_heap (metadata scenario_doc)
                 !! lit "file_extension" = Some (PyStr (lit ".md")))
    by reflexivity.
  split; [exact H1|]. split; [exact H2|]. split; [exact H3|].
  destruct (scenario_pipeline by_copy scenario_doc scenario_heap H1 H2)
    as [Hstep2 (r & h' & Hr & Hl & _)].
  split.
  - destruct (Hstep2 H3) as (chunks & h1 & Hrun & _ & Hlen & _ & Hover).
    exists chunks, h1. split; [exact Hrun|]. split; [exact Hlen|exact Hover].
  - exists r, h'. split; [exact Hr|exact Hl].
Defined.

(* ===================================================================== *)
(** * Further properties of the re-split step                              *)
(* ===================================================================== *)

Lemma resplit_chunk_negative hold max_chars doc h :
  max_chars < 0 -> resplit_chunk hold max_chars doc h = (Ok [], h).
Proof.
  intros Hneg. unfold resplit_chunk.
  destruct (Z.leb_spec (len (page_content doc)) max_chars) as [Hle|_];
    [unfold len in Hle; lia|].
  by rewrite range_negative_step by (unfold len; lia).
Qed.

(** X1. With a negative limit the re-split step returns the empty sequence
    for every input: no chunk is within the limit, [range] with a negative
    step yields no offset, so every chunk is replaced by nothing, and no
    document is built. *)
Theorem resplit_negative_limit (hold : loc -> heap -> loc * heap)
    (chunks : list Document) (max_chars : Z) (h : heap) :
  max_chars < 0 ->
  _resplit_oversize_chunks hold chunks max_chars h = (Ok [], h).
Proof.
  intros Hneg. rewrite resplit_flat_mapM.
  induction chunks as [|doc chunks IH]; [done|].
  cbn [flat_mapM]. rewrite resplit_chunk_negative by done. by rewrite IH.
Qed.

Lemma resplit_negative_limit_witness :
  -1 < 0
  /\ _resplit_oversize_chunks by_copy [sample_short; sample_long] (-1)
       sample_heap = (Ok [], sample_heap).
Proof.
  assert (H : -1 < 0) by lia. split; [exact H|].
  exact (resplit_negative_limit by_copy [sample_short; sample_long] (-1)
           sample_heap H).
Defined.

(** X2. With the limit 0 the re-split step returns a sequence of empty
    chunks as it is, and raises the [ValueError] of [range] (a zero step) as
    soon as one chunk has a character, without building any document. *)
Theorem resplit_zero_limit (hold : loc -> heap -> loc * heap)
    (chunks : list Document) (h : heap) :
  (Forall (fun d => page_content d = []) chunks ->
   _resplit_oversize_chunks hold chunks 0 h = (Ok chunks, h))
  /\ (Exists (fun d => page_content d <> []) chunks ->
      _resplit_oversize_chunks hold chunks 0 h
      = (Raise (ValueError "range() arg 3 must not be zero"), h)).
Proof.
  split.
  - intros Hall. apply resplit_identity.
    eapply Forall_impl; [exact Hall|]. intros d Hd. unfold compliant.
    by rewrite Hd.
  - intros Hex. rewrite resplit_flat_mapM.
    induction chunks as [|doc chunks IH]; [by apply Exists_nil in Hex|].
    cbn [flat_mapM]. unfold resplit_chunk at 1.
    destruct (Z.leb_spec (len (page_content doc)) 0) as [Hle|Hgt].
    + apply Exists_cons in Hex as [Hd|Hex].
      { destruct (page_content doc); [done|]. unfold len in Hle.
        simpl in Hle. lia. }
      by rewrite (IH Hex).
    + by rewrite range_zero_step.
Qed.

Lemma resplit_zero_limit_witness :
  Exists (fun d => page_content d <> []) [sample_short]
  /\ _resplit_oversize_chunks by_copy [sample_short] 0 sample_heap
     = (Raise (ValueError "range() arg 3 must not be zero"), sample_heap).
Proof.
  assert (H : Exists (fun d => page_content d <> []) [sample_short]).
  { apply Exists_cons_hd. discriminate. }
  split; [exact H|].
  exact (proj2 (resplit_zero_limit by_copy [sample_short] sample_heap) H).
Defined.

Lemma nonspace_concat_replacement max_chars content :
  0 < max_chars ->
  nonspace (concat (replacement max_chars content)) = nonspace content.
Proof.
  intros Hm. unfold replacement.
  destruct (len content <=? max_chars).
  - simpl. by rewrite app_nil_r.
  - by rewrite nonspace_concat_kept, concat_cut_offsets.
Qed.

Lemma length_concat_kept (pieces : list str) :
  (length (concat (kept pieces)) <= length (concat pieces))%nat.
Proof.
  rewrite kept_nonblank. induction pieces as [|p pieces IH]; [done|].
  simpl concat at 2. rewrite length_app.
  destruct (blank p) eqn:B.
  - rewrite filter_cons_False by congruence. lia.
  - rewrite filter_cons_True by done. simpl. rewrite length_app. lia.
Qed.

Lemma length_concat_replacement max_chars content :
  0 < max_chars ->
  (length (concat (replacement max_chars content)) <= length content)%nat.
Proof.
  intros Hm. unfold replacement.
  destruct (len content <=? max_chars).
  - simpl. by rewrite app_nil_r.
  - etransitivity; [apply length_concat_kept|].
    by rewrite concat_cut_offsets.
Qed.

(** X3. For a positive limit the re-split step keeps, over the whole
    sequence, every character that is not whitespace, in order: the
    non-whitespace characters of the concatenated result texts are those of
    the concatenated input texts; and it adds no character: the result
    texts are together no longer than the input texts. *)
Theorem resplit_keeps_nonspace (hold : loc -> heap -> loc * heap)
    (chunks : list Document) (max_chars : Z) (h : heap) :
  0 < max_chars ->
  exists r h',
    _resplit_oversize_chunks hold chunks max_chars h = (Ok r, h')
    /\ nonspace (concat (texts r)) = nonspace (concat (texts chunks))
    /\ (length (concat (texts r)) <= length (concat (texts chunks)))%nat.
Proof.
  intros Hm.
  destruct (resplit_positive hold chunks max_chars h Hm) as (r & h' & Hr & Ht).
  exists r, h'. split; [exact Hr|]. rewrite Ht. clear Hr Ht.
  induction (texts chunks) as [|c cs [IH1 IH2]]; [done|].
  rewrite bind_cons. simpl concat. rewrite concat_app.
  rewrite !nonspace_app, !length_app.
  rewrite nonspace_concat_replacement by done.
  pose proof (length_concat_replacement max_chars c Hm).
  split; [by rewrite IH1|lia].
Qed.

Lemma resplit_keeps_nonspace_witness :
  0 < 4
  /\ exists r h',
       _resplit_oversize_chunks by_copy [sample_long; sample_short] 4
         sample_heap = (Ok r, h')
       /\ nonspace (concat (texts r)) = lit "abcdefghxyz".
Proof.
  assert (H : 0 < 4) by lia. split; [exact H|].
  destruct (resplit_keeps_nonspace by_copy [sample_long; sample_short] 4
              sample_heap H) as (r & h' & Hr & Hn & _).
  exists r, h'. split; [exact Hr|]. rewrite Hn. vm_compute. reflexivity.
Defined.

Lemma new_Documents_by_reference pieces m h :
  new_Documents by_reference pieces m h
  = ((fun p => mkDocument p m) <$> pieces, h).
Proof.
  induction pieces as [|p pieces IH]; [done|].
  cbn [new_Documents]. unfold new_Document, by_reference at 1.
  by rewrite IH.
Qed.

(** X4. With a constructor that keeps the reference it is given, the
    re-split step allocates nothing, whether it returns or raises, and
    every chunk of its result points to the metadata dict of an input
    chunk: the slices of a parent all hold the parent's dict. *)
Theorem resplit_by_reference_shares (chunks : list Document) (max_chars : Z)
    (h : heap) :
  (_resplit_oversize_chunks by_reference chunks max_chars h).2 = h
  /\ forall r h',
       _resplit_oversize_chunks by_reference chunks max_chars h = (Ok r, h') ->
       Forall (fun d => metadata d ∈ metadata <$> chunks) r.
Proof.
  rewrite resplit_flat_mapM.
  assert (Hchunk : forall doc h0,
            (resplit_chunk by_reference max_chars doc h0).2 = h0
            /\ forall ds h1,
                 resplit_chunk by_reference max_chars doc h0 = (Ok ds, h1) ->
                 Forall (fun d => metadata d = metadata doc) ds).
  { intros doc h0. unfold resplit_chunk.
    destruct (len (page_content doc) <=? max_chars).
    - split; [done|]. intros ds h1 [= <- <-]. by apply Forall_singleton.
    - destruct (range 0 _ max_chars) as [starts|e]; [|by split].
      rewrite new_Documents_by_reference. split; [done|].
      intros ds h1 [= <- <-]. rewrite Forall_fmap. by apply Forall_true. }
  revert h. induction chunks as [|doc chunks IH]; intros h.
  - split; [done|]. intros r h' [= <- <-]. constructor.
  - cbn [flat_mapM]. destruct (Hchunk doc h) as [Hh Hds].
    destruct (resplit_chunk by_reference max_chars doc h) as [[ds|e] h1];
      simpl in Hh; subst h1; [|by split].
    destruct (IH h) as [Hh2 Hr].
    destruct (flat_mapM _ chunks h) as [[r1|e] h2]; simpl in Hh2; subst h2;
      [|by split].
    split; [done|]. intros r h' [= <- <-]. apply Forall_app. split.
    + eapply Forall_impl; [exact (Hds ds h eq_refl)|].
      intros d ->. rewrite fmap_cons. by left.
    + eapply Forall_impl; [exact (Hr r1 h eq_refl)|].
      intros d Hd. rewrite fmap_cons. by right.
Qed.

(* ===================================================================== *)
(** * Further properties of [run_pipeline]                                 *)
(* ===================================================================== *)

Section PipelineRuns.

Variable World : Type.
Variable Embeddings : Type.
Variable VectorStore : Type.
Variable EMBED_MODEL_MAX_CHARS : Z.
Variable getenv : str -> option str.
Variable hold : loc -> heap -> loc * heap.
Variable split_documents :
  Splitter -> list Document -> heap -> reply (list Document) * heap.
Variable load_all_documents :
  string -> heap -> World -> reply (list Document) * heap * World.
Variable OpenAIEmbeddings : str -> World -> reply Embeddings * World.
Variable OllamaEmbeddings :
  str -> str -> Z -> World -> reply Embeddings * World.
Variable PGVector :
  str -> Embeddings -> str -> bool -> bool -> World
  -> reply VectorStore * World.
Variable add_documents :
  VectorStore -> list Document -> heap -> World -> reply unit * heap * World.

#[local] Abbreviation state := (state World).
#[local] Abbreviation M := (M World).
#[local] Abbreviation ok := (stores_ok EMBED_MODEL_MAX_CHARS).

Lemma ok_bind {A B} (m : M A) (k : A -> M B) (s : state) :
  ok m s ->
  (forall a s', m s = (Ok a, s') -> ok (k a) s') ->
  ok (bind m k) s.
Proof.
  unfold stores_ok, bind. intros (evs1 & Ht1 & Hc1) Hk.
  destruct (m s) as [[a|e] s1] eqn:E; simpl in Ht1.
  - destruct (Hk a s1 eq_refl) as (evs2 & Ht2 & Hc2).
    exists (evs1 ++ evs2). split.
    + by rewrite Ht2, Ht1, app_assoc.
    + rewrite calls_app. by apply Forall_app.
  - by exists evs1.
Qed.

Lemma ok_silent {A} (m : M A) (s : state) :
  st_trace (m s).2 = st_trace s -> ok m s.
Proof.
  intros Ht. exists []. split; [by rewrite app_nil_r|constructor].
Qed.

Lemma ok_ret {A} (a : A) (s : state) : ok (ret a) s.
Proof. by apply ok_silent. Qed.

Lemma ok_raise {A} e (s : state) : ok (raise (A:=A) e) s.
Proof. by apply ok_silent. Qed.

Lemma ok_print msg (s : state) : ok (print msg) s.
Proof. exists [Stdout msg]. split; [done|constructor]. Qed.

Lemma ok_print_stderr msg (s : state) : ok (print_stderr msg) s.
Proof. exists [Stderr msg]. split; [done|constructor]. Qed.

Lemma ok_call {A} (f : World -> reply A * World) (s : state) : ok (call f) s.
Proof. apply ok_silent. unfold call. by destruct (f (st_world s)). Qed.

Lemma ok_call_heap {A} (f : heap -> World -> reply A * heap * World)
    (s : state) : ok (call_heap f) s.
Proof.
  apply ok_silent. unfold call_heap.
  by destruct (f (st_heap s) (st_world s)) as [[r h] w].
Qed.

Lemma ok_on_heap {A} (f : heap -> res A * heap) (s : state) :
  ok (on_heap f) s.
Proof. apply ok_silent. unfold on_heap. by destruct (f (st_heap s)). Qed.

Lemma ok_returned {A} (r : reply A) (s : state) : ok (returned r) s.
Proof. destruct r; [apply ok_ret|apply ok_raise]. Qed.

Lemma ok_get_embedding_model (s : state) :
  ok (get_embedding_model World Embeddings getenv OpenAIEmbeddings
        OllamaEmbeddings) s.
Proof.
  unfold get_embedding_model.
  repeat case_bool_decide;
    try (apply ok_bind; [apply ok_call|intros; apply ok_returned]).
  apply ok_raise.
Qed.

Lemma ok_get_vector_store conn name emb (s : state) :
  ok (get_vector_store World Embeddings VectorStore getenv OpenAIEmbeddings
        OllamaEmbeddings PGVector conn name emb) s.
Proof.
  unfold get_vector_store.
  repeat case_match; try apply ok_raise;
    (apply ok_bind;
     [first [apply ok_ret|apply ok_get_embedding_model]
     |intros; apply ok_bind; [apply ok_call|intros; apply ok_returned]]).
Qed.

(** The batches of chunks within the limit are fit for the store. *)
Lemma batches_ok (chunks : list Document) :
  Forall (compliant EMBED_MODEL_MAX_CHARS) chunks ->
  Forall (batch_ok EMBED_MODEL_MAX_CHARS) (batches chunks).
Proof.
  intros Hc. destruct (batches_partition chunks) as (Hcat & _ & Hlen).
  apply Forall_forall. intros b Hb. split.
  - rewrite Forall_forall in Hlen. by apply Hlen.
  - apply Forall_forall. intros d Hd. rewrite Forall_forall in Hc.
    apply (Hc d). rewrite <- Hcat. apply list_elem_of_In, in_concat.
    exists b. by rewrite <- !list_elem_of_In.
Qed.

Lemma ok_embed_and_store vs chunks (s : state) :
  Forall (compliant EMBED_MODEL_MAX_CHARS) chunks ->
  ok (embed_and_store World VectorStore add_documents vs chunks) s.
Proof.
  intros Hc. unfold embed_and_store.
  apply ok_bind; [apply ok_print|]. intros _ s1 _.
  apply ok_bind; [by apply ok_silent|]. intros starts s2 Hstarts.
  unfold lift in Hstarts. rewrite range_batches in Hstarts
    by (unfold len; lia).
  injection Hstarts as <- <-.
  apply ok_bind; [|intros; apply ok_print].
  unfold stores_ok, offsets. rewrite store_batches_in_order.
  fold (batches chunks).
  destruct (store_in_order _ (batches chunks) 0 _ _ (st_heap s1) (st_world s1))
    as [[[evs failure] h'] w'] eqn:E.
  exists evs. split; [done|].
  destruct (store_in_order_calls World _ _ _ _ _ _ _ _ _ _ _ E) as [-> _].
  apply Forall_take. by apply batches_ok.
Qed.

(** X5. Whatever the collaborators do and however the run ends,
    [run_pipeline] only adds events to the trace, and every batch it hands
    to [vector_store.add_documents] has between 1 and 50 chunks, each with a
    text of at most [EMBED_MODEL_MAX_CHARS] characters: the store, and the
    embedding model behind it, never see a chunk over the limit. *)
Theorem store_sees_only_compliant config_path chunk_size chunk_overlap
    collection_name (s : state) :
  exists evs,
    st_trace
      (run_pipeline World Embeddings VectorStore EMBED_MODEL_MAX_CHARS getenv
         hold split_documents load_all_documents OpenAIEmbeddings
         OllamaEmbeddings PGVector add_documents
         config_path chunk_size chunk_overlap collection_name s).2
    = st_trace s ++ evs
    /\ Forall (fun b =>
                 0 < len b <= EMBED_BATCH_SIZE
                 /\ Forall (fun d => len (page_content d)
                                     <= EMBED_MODEL_MAX_CHARS) b)
         (calls evs).
Proof.
  change (ok (run_pipeline World Embeddings VectorStore EMBED_MODEL_MAX_CHARS
                getenv hold split_documents load_all_documents
                OpenAIEmbeddings OllamaEmbeddings PGVector add_documents
                config_path chunk_size chunk_overlap collection_name) s).
  unfold run_pipeline.
  apply ok_bind; [apply ok_print|]. intros _ s1 _.
  apply ok_bind; [apply ok_print|]. intros _ s2 _.
  apply ok_bind; [apply ok_print|]. intros _ s3 _.
  apply ok_bind; [apply ok_call_heap|]. intros loaded s4 _.
  apply ok_bind; [apply ok_returned|]. intros docs s5 _.
  apply ok_bind; [apply ok_print|]. intros _ s6 _.
  destruct docs as [|d docs]; [apply ok_print|].
  apply ok_bind; [apply ok_on_heap|]. intros chunks s7 _.
  apply ok_bind; [apply ok_print|]. intros _ s8 _.
  apply ok_bind; [apply ok_on_heap|]. intros chunks' s9 Hre.
  apply on_heap_Ok in Hre as [h' Hre]. apply resplit_compliant in Hre.
  apply ok_bind.
  { case_bool_decide; [apply ok_print|apply ok_ret]. }
  intros _ s10 _. unfold oversize_indices.
  rewrite oversize_from_compliant by done.
  apply ok_bind; [apply ok_get_embedding_model|]. intros emb s11 _.
  apply ok_bind; [apply ok_get_vector_store|]. intros vs s12 _.
  by apply ok_embed_and_store.
Qed.

(** X6. When loading the documents fails, [run_pipeline] stops there: it
    raises the loader's exception after the three opening lines, with the
    heap and the services as the loader left them; nothing is chunked and no
    embedding model, vector store or store call is made. *)
Theorem load_failure_stops config_path chunk_size chunk_overlap
    collection_name (s : state) msg h' w' :
  load_all_documents config_path (st_heap s) (st_world s)
  = (Fails msg, h', w') ->
  run_pipeline World Embeddings VectorStore EMBED_MODEL_MAX_CHARS getenv
    hold split_documents load_all_documents OpenAIEmbeddings
    OllamaEmbeddings PGVector add_documents
    config_path chunk_size chunk_overlap collection_name s
  = (Raise (CollaboratorError msg),
     mkState h' w'
       (st_trace s
        ++ [Stdout MsgBanner;
            Stdout (MsgChunking
                      (default EMBED_MODEL_MAX_CHARS chunk_size)
                      (default
                         (Z.max 50
                            (default EMBED_MODEL_MAX_CHARS chunk_size / 10))
                         chunk_overlap)
                      EMBED_MODEL_MAX_CHARS);
            Stdout (MsgLoading config_path)])).
Proof.
  intros Hload.
  unfold run_pipeline, print, bind, emit, call_heap, returned, raise.
  cbn [st_heap st_world st_trace]. rewrite Hload.
  cbn [st_heap st_world st_trace]. by rewrite <- !app_assoc.
Qed.

End PipelineRuns.

Lemma load_failure_stops_witness :
  (fun (_ : string) (h : heap) (w : unit) =>
     (@Fails (list Document) "no network", h, w))
    "config/doc_sources.yaml"%string [] tt
  = (Fails "no network", [], tt)
  /\ (run_pipeline unit unit unit 500 (fun _ => None) by_copy
        (fun _ docs h => (Returns docs, h))
        (fun _ h w => (Fails "no network", h, w))
        (fun _ w => (Fails "offline", w))
        (fun _ _ _ w => (Fails "offline", w))
        (fun _ _ _ _ _ w => (Fails "offline", w))
        (fun _ _ h w => (Fails "offline", h, w))
        "config/doc_sources.yaml" None None (lit "kb_engine_playground")
        (mkState [] tt [])).1
     = Raise (CollaboratorError "no network").
Proof.
  split; [reflexivity|].
  rewrite (load_failure_stops unit unit unit 500 (fun _ => None) by_copy
        (fun _ docs h => (Returns docs, h))
        (fun _ h w => (Fails "no network", h, w))
        (fun _ w => (Fails "offline", w))
        (fun _ _ _ w => (Fails "offline", w))
        (fun _ _ _ _ _ w => (Fails "offline", w))
        (fun _ _ h w => (Fails "offline", h, w))
        "config/doc_sources.yaml" None None (lit "kb_engine_playground")
        (mkState [] tt []) "no network" [] tt eq_refl).
  reflexivity.
Defined.

(* ===================================================================== *)
(** * Further properties of store.py and of the chunking step              *)
(* ===================================================================== *)



(** X8. [get_vector_store] checks the connection string first: without an
    argument and without a non-empty [DATABASE_URL] it raises [ValueError]
    and touches nothing, even when it was given no embedding, so no
    embedding model is built for a store that cannot be reached. *)
Theorem vector_store_needs_url (World Embeddings VectorStore : Type)
    (getenv : str -> option str)
    (OpenAIEmbeddings : str -> World -> reply Embeddings * World)
    (OllamaEmbeddings : str -> str -> Z -> World -> reply Embeddings * World)
    (PGVector :
       str -> Embeddings -> str -> bool -> bool -> World
       -> reply VectorStore * World)
    (connection_string : option str) (collection_name : str)
    (embedding : option Embeddings) (s : state World) :
  connection_string = None \/ connection_string = Some [] ->
  getenv (lit "DATABASE_URL") = None
  \/ getenv (lit "DATABASE_URL") = Some [] ->
  get_vector_store World Embeddings VectorStore getenv OpenAIEmbeddings
    OllamaEmbeddings PGVector connection_string collection_name embedding s
  = (Raise (ValueError "DATABASE_URL or connection_string required"), s).
Proof.
  intros Hc Hurl. unfold get_vector_store.
  destruct Hc as [-> | ->]; destruct Hurl as [-> | ->]; reflexivity.
Qed.

Lemma vector_store_needs_url_witness :
  (@None str = None \/ @None str = Some [])
  /\ ((fun _ : str => @None str) (lit "DATABASE_URL") = None
      \/ (fun _ : str => @None str) (lit "DATABASE_URL") = Some [])
  /\ get_vector_store unit unit unit (fun _ => None)
       (fun _ w => (Returns tt, w)) (fun _ _ _ w => (Returns tt, w))
       (fun _ _ _ _ _ w => (Returns tt, w))
       None (lit "kb_engine_playground") None (mkState [] tt [])
     = (Raise (ValueError "DATABASE_URL or connection_string required"),
        mkState [] tt []).
Proof.
  assert (H1 : @None str = None \/ @None str = Some []) by (by left).
  assert (H2 : (fun _ : str => @None str) (lit "DATABASE_URL") = None
               \/ (fun _ : str => @None str) (lit "DATABASE_URL") = Some [])
    by (by left).
  split; [exact H1|]. split; [exact H2|].
  exact (vector_store_needs_url unit unit unit (fun _ => None)
           (fun _ w => (Returns tt, w)) (fun _ _ _ w => (Returns tt, w))
           (fun _ _ _ _ _ w => (Returns tt, w))
           None (lit "kb_engine_playground") None (mkState [] tt []) H1 H2).
Defined.

(** X9. The overlap that the splitter functions derive when none is given,
    [max(50, size // 10)], fits in the chunk size exactly when the size is
    at least 50; a smaller size gives a splitter whose overlap exceeds its
    chunk size. And [get_text_splitter_for_language] without a language is
    [get_text_splitter] with the same size and overlap, given or derived. *)
Theorem default_overlap_fits (EMBED_MODEL_MAX_CHARS : Z)
    (chunk_size chunk_overlap : option Z) :
  let size := default EMBED_MODEL_MAX_CHARS chunk_size in
  get_text_splitter EMBED_MODEL_MAX_CHARS chunk_size None
  = RecursiveCharacterTextSplitter size (Z.max 50 (size / 10))
      [[newline; newline]; [newline]; lit " "; lit ""]
  /\ (Z.max 50 (size / 10) <= size <-> 50 <= size)
  /\ get_text_splitter_for_language EMBED_MODEL_MAX_CHARS None
       chunk_size chunk_overlap
     = get_text_splitter EMBED_MODEL_MAX_CHARS chunk_size chunk_overlap.
Proof.
  intros size. split; [done|]. split; [|done].
  assert (0 <= size -> size / 10 <= size).
  { intros Hs. apply Z.div_le_upper_bound; lia. }
  lia.
Qed.

Section GroupingTheory.

Variable h : heap.

#[local] Abbreviation key := (language_key h).
#[local] Abbreviation grouped := (grouped h).

Lemma setdefault_append_spec k d by_lang :
  NoDup (fst <$> by_lang) ->
  setdefault_append k d by_lang
  = if decide (k ∈ fst <$> by_lang)
    then (fun kg : lang_key * list Document =>
            (kg.1, if decide (kg.1 = k) then kg.2 ++ [d] else kg.2))
           <$> by_lang
    else by_lang ++ [(k, [d])].
Proof.
  induction by_lang as [|[k0 g0] bl IH]; intros Hnd.
  - cbn [setdefault_append]. by rewrite decide_False by apply not_elem_of_nil.
  - rewrite fmap_cons in Hnd. apply NoDup_cons in Hnd as [Hk0 Hnd].
    cbn [setdefault_append fst] in *. rewrite !fmap_cons. cbn [fst snd].
    destruct (decide (k0 = k)) as [->|Hne].
    + rewrite decide_True by (by left). f_equal.
      rewrite <- (list_fmap_id bl) at 1. apply list_fmap_ext.
      intros i [k1 g1] Hi. cbn [fst snd]. rewrite decide_False; [done|].
      intros ->. apply Hk0. apply list_elem_of_lookup_2 in Hi.
      by apply (list_elem_of_fmap_2 fst) in Hi.
    + rewrite (IH Hnd). destruct (decide (k ∈ fst <$> bl)) as [Hin|Hout].
      * by rewrite decide_True by (by right).
      * rewrite decide_False; [done|].
        intros [?|?]%elem_of_cons; [congruence|done].
Qed.

Lemma grouped_step seen by_lang d k :
  key d = Ok k ->
  grouped seen by_lang ->
  grouped (seen ++ [d]) (setdefault_append k d by_lang).
Proof.
  intros Hkd (Hnd & Hg & Hk). rewrite setdefault_append_spec by done.
  destruct (decide (k ∈ fst <$> by_lang)) as [Hin|Hout].
  - split; [|split].
    + rewrite <- list_fmap_compose.
      by rewrite (list_fmap_ext _ fst by_lang) by done.
    + intros k1 g Hkg.
      apply list_elem_of_fmap in Hkg as ([k0 g0] & Heq & Hin0).
      cbn [fst snd] in Heq. injection Heq as -> ->.
      destruct (Hg k0 g0 Hin0) as [Hne ->].
      rewrite filter_app. destruct (decide (k0 = k)) as [->|Hdiff].
      * split; [by destruct (filter _ seen)|].
        by rewrite (filter_cons_True _ d) by done.
      * split; [done|].
        rewrite (filter_cons_False _ d) by (rewrite Hkd; congruence).
        by rewrite app_nil_r.
    + intros d0 Hd0. rewrite <- list_fmap_compose.
      rewrite (list_fmap_ext _ fst by_lang) by done.
      apply elem_of_app in Hd0 as [Hd0|Hd0]; [by apply Hk|].
      apply list_elem_of_singleton in Hd0 as ->. by exists k.
  - split; [|split].
    + rewrite fmap_app. apply NoDup_app. split; [done|].
      split; [|apply NoDup_singleton].
      intros k1 Hin ->%list_elem_of_singleton. done.
    + intros k1 g Hkg. rewrite filter_app.
      apply elem_of_app in Hkg as [Hkg|Heq];
        [|apply list_elem_of_singleton in Heq; injection Heq as -> ->].
      * destruct (Hg k1 g Hkg) as [Hne ->]. split; [done|].
        rewrite (filter_cons_False _ d).
        { by rewrite app_nil_r. }
        rewrite Hkd. intros [= Heq]. apply Hout. rewrite Heq.
        by apply (list_elem_of_fmap_2 fst) in Hkg.
      * split; [done|]. rewrite (filter_cons_True _ d) by done.
        rewrite filter_nil.
        destruct (filter (fun d0 => key d0 = Ok k) seen) as [|x l] eqn:E;
          [done|].
        exfalso. assert (Hx : x ∈ filter (fun d0 => key d0 = Ok k) seen)
          by (rewrite E; by left).
        apply list_elem_of_filter in Hx as [Hkx Hx]. apply Hout.
        destruct (Hk x Hx) as (k' & Hk' & Hin').
        rewrite Hkx in Hk'. by injection Hk' as ->.
    + intros d0 Hd0. rewrite fmap_app.
      apply elem_of_app in Hd0 as [Hd0|Hd0].
      * destruct (Hk d0 Hd0) as (k' & Hk' & Hin'). exists k'.
        split; [done|]. apply elem_of_app. by left.
      * apply list_elem_of_singleton in Hd0 as ->. exists k.
        split; [done|]. apply elem_of_app. right. by left.
Qed.

Lemma language_key_Ok d lang :
  get_language_from_metadata (deref h (metadata d)) = Ok lang ->
  key d = Ok match lang with
             | Some l => KeyLanguage l
             | None => KeyDefault
             end.
Proof. unfold language_key. intros ->. by destruct lang. Qed.

Lemma group_by_language_grouped docs seen by_lang groups :
  grouped seen by_lang ->
  group_by_language docs h by_lang = Ok groups ->
  grouped (seen ++ docs) groups.
Proof.
  revert seen by_lang. induction docs as [|d docs IH]; intros seen by_lang Hg.
  - simpl. intros [= <-]. by rewrite app_nil_r.
  - cbn [group_by_language].
    destruct (get_language_from_metadata (deref h (metadata d)))
      as [lang|e] eqn:E; [|done].
    intros Hr.
    replace (seen ++ d :: docs) with ((seen ++ [d]) ++ docs)
      by (by rewrite <- app_assoc).
    eapply IH; [|exact Hr]. apply grouped_step; [|done].
    by apply language_key_Ok.
Qed.

Lemma setdefault_append_concat k d by_lang :
  concat (snd <$> setdefault_append k d by_lang)
  ≡ₚ d :: concat (snd <$> by_lang).
Proof.
  induction by_lang as [|[k0 g0] bl IH]; [done|].
  cbn [setdefault_append]. case_decide.
  - rewrite !fmap_cons. cbn [snd concat]. rewrite <- app_assoc.
    symmetry. apply Permutation_middle.
  - rewrite !fmap_cons. cbn [snd concat]. rewrite IH.
    symmetry. apply Permutation_middle.
Qed.

Lemma group_by_language_concat docs by_lang groups :
  group_by_language docs h by_lang = Ok groups ->
  concat (snd <$> groups) ≡ₚ concat (snd <$> by_lang) ++ docs.
Proof.
  revert by_lang. induction docs as [|d docs IH]; intros by_lang.
  - simpl. intros [= <-]. by rewrite app_nil_r.
  - cbn [group_by_language].
    destruct (get_language_from_metadata (deref h (metadata d)))
      as [lang|e]; [|done].
    intros Hr. rewrite (IH _ Hr), setdefault_append_concat.
    apply Permutation_middle.
Qed.

(** The loop stops at the first document that the classifier raises on. *)
Lemma group_by_language_fails docs by_lang e :
  group_by_language docs h by_lang = Raise e ->
  exists pre d post,
    docs = pre ++ d :: post
    /\ get_language_from_metadata (deref h (metadata d)) = Raise e
    /\ Forall (fun d0 => exists k, key d0 = Ok k) pre.
Proof.
  revert by_lang. induction docs as [|d docs IH]; intros by_lang; [done|].
  cbn [group_by_language].
  destruct (get_language_from_metadata (deref h (metadata d)))
    as [lang|e0] eqn:E.
  - intros Hr. destruct (IH _ Hr) as (pre & d1 & post & -> & Hd1 & Hpre).
    exists (d :: pre), d1, post. split; [done|]. split; [done|].
    constructor; [|done]. eexists. by apply language_key_Ok.
  - intros [= <-]. exists [], d, docs. by repeat split.
Qed.

(** X10. Grouping by language is a stable partition of the documents: when
    the classifier returns on every document, the groups have distinct
    keys, none is empty, the group of a key holds exactly the documents
    that the classifier gives that key, in their input order, and the
    groups together are a permutation of the input; so two documents with
    the same inferred language are split by the same splitter, in one call.
    And when the grouping raises, it is with the exception of the
    classifier on the first document on which the classifier raises. *)
Theorem grouping_is_stable_partition (docs : list Document) :
  (forall groups,
     group_by_language docs h [] = Ok groups ->
     NoDup (fst <$> groups)
     /\ (forall k g, (k, g) ∈ groups ->
           g <> [] /\ g = filter (fun d => language_key h d = Ok k) docs)
     /\ (forall d, d ∈ docs ->
           exists k, language_key h d = Ok k /\ k ∈ fst <$> groups)
     /\ concat (snd <$> groups) ≡ₚ docs)
  /\ (forall e,
        group_by_language docs h [] = Raise e ->
        exists pre d post,
          docs = pre ++ d :: post
          /\ get_language_from_metadata (deref h (metadata d)) = Raise e
          /\ Forall (fun d0 => exists k, language_key h d0 = Ok k) pre).
Proof.
  split; [|apply group_by_language_fails].
  intros groups Hr.
  assert (H0 : grouped [] []).
  { split; [constructor|]. split.
    - intros k g Hin. by apply elem_of_nil in Hin.
    - intros d Hd. by apply elem_of_nil in Hd. }
  destruct (group_by_language_grouped docs [] [] groups H0 Hr)
    as (Hnd & Hg & Hk).
  split; [done|]. split; [exact Hg|]. split; [exact Hk|].
  by rewrite (group_by_language_concat _ _ _ Hr).
Qed.

End GroupingTheory.

Section ChunkingErrors.

Variable EMBED_MODEL_MAX_CHARS : Z.
Variable split_documents :
  Splitter -> list Document -> heap -> reply (list Document) * heap.



End ChunkingErrors.


(** The classifier raises exactly the [AttributeError] of [strip] on an
    [int]. *)
Lemma get_language_raises_no_strip (metadata : pydict) (e : exn) :
  get_language_from_metadata metadata = Raise e -> e = no_strip.
Proof.
  rewrite classifier_fields.
  destruct (read_text metadata (lit "file_extension")) as [fe|];
    [|by intros [= <-]].
  case_decide; [done|].
  destruct (read_text metadata (lit "source")) as [src|]; [done|].
  by intros [= <-].
Qed.

Lemma group_by_language_unreadable (docs : list Document) (h : heap)
    (by_lang : list (lang_key * list Document)) (d : Document) :
  d ∈ docs ->
  read_text (deref h (metadata d)) (lit "file_extension") = None ->
  group_by_language docs h by_lang = Raise no_strip.
Proof.
  intros Hin Hd. revert by_lang.
  induction docs as [|d0 docs IH]; intros by_lang.
  - by apply elem_of_nil in Hin.
  - cbn [group_by_language].
    destruct (get_language_from_metadata (deref h (metadata d0)))
      as [lang|e] eqn:E.
    + apply elem_of_cons in Hin as [->|Hin]; [|by apply IH].
      rewrite classifier_fields, Hd in E. discriminate E.
    + by rewrite (get_language_raises_no_strip _ _ E).
Qed.

Section UnreadableMetadata.

Variable World : Type.
Variable Embeddings : Type.
Variable VectorStore : Type.
Variable EMBED_MODEL_MAX_CHARS : Z.
Variable getenv : str -> option str.
Variable hold : loc -> heap -> loc * heap.
Variable split_documents :
  Splitter -> list Document -> heap -> reply (list Document) * heap.
Variable load_all_documents :
  string -> heap -> World -> reply (list Document) * heap * World.
Variable OpenAIEmbeddings : str -> World -> reply Embeddings * World.
Variable OllamaEmbeddings :
  str -> str -> Z -> World -> reply Embeddings * World.
Variable PGVector :
  str -> Embeddings -> str -> bool -> bool -> World
  -> reply VectorStore * World.
Variable add_documents :
  VectorStore -> list Document -> heap -> World -> reply unit * heap * World.

(** X18. One loaded document whose [file_extension] is a true value
    without a [strip] method (a number other than 0) stops the whole run: the
    classifier's [AttributeError] leaves [run_pipeline] right after the
    line that counts the loaded documents, with the heap and the services
    as the loader left them; no splitter, embedding model, vector store or
    store call is made, whatever the other documents are. *)
Theorem unreadable_metadata_stops config_path chunk_size chunk_overlap
    collection_name (s : state World) docs h1 w1 d :
  load_all_documents config_path (st_heap s) (st_world s)
  = (Returns docs, h1, w1) ->
  d ∈ docs ->
  read_text (deref h1 (metadata d)) (lit "file_extension") = None ->
  run_pipeline World Embeddings VectorStore EMBED_MODEL_MAX_CHARS getenv
    hold split_documents load_all_documents OpenAIEmbeddings
    OllamaEmbeddings PGVector add_documents
    config_path chunk_size chunk_overlap collection_name s
  = (Raise no_strip,
     mkState h1 w1
       (st_trace s
        ++ [Stdout MsgBanner;
            Stdout (MsgChunking
                      (default EMBED_MODEL_MAX_CHARS chunk_size)
                      (default
                         (Z.max 50
                            (default EMBED_MODEL_MAX_CHARS chunk_size / 10))
                         chunk_overlap)
                      EMBED_MODEL_MAX_CHARS);
            Stdout (MsgLoading config_path);
            Stdout (MsgLoaded (len docs))])).
Proof.
  intros Hload Hin Hd.
  unfold run_pipeline, print, bind, emit, call_heap, returned, ret, on_heap.
  cbn [st_heap st_world st_trace]. rewrite Hload.
  cbn [st_heap st_world st_trace].
  destruct docs as [|d0 docs]; [by apply elem_of_nil in Hin|].
  unfold _chunk_documents_with_language_awareness.
  cbn [st_heap st_world st_trace].
  rewrite (group_by_language_unreadable (d0 :: docs) h1 [] d Hin Hd).
  cbn [st_heap st_world st_trace]. by rewrite <- !app_assoc.
Qed.

End UnreadableMetadata.

Lemma unreadable_metadata_stops_witness :
  (fun (_ : string) (h : heap) (w : unit) =>
     (Returns [readme], [number_extension_metadata], w))
    "config/doc_sources.yaml"%string [] tt
  = (Returns [readme], [number_extension_metadata], tt)
  /\ readme ∈ [readme]
  /\ read_text (deref [number_extension_metadata] (metadata readme))
       (lit "file_extension") = None
  /\ (run_pipeline unit unit unit 500 (fun _ => None) by_copy
        (fun _ docs h => (Returns docs, h))
        (fun _ h w => (Returns [readme], [number_extension_metadata], w))
        (fun _ w => (Fails "offline", w))
        (fun _ _ _ w => (Fails "offline", w))
        (fun _ _ _ _ _ w => (Fails "offline", w))
        (fun _ _ h w => (Fails "offline", h, w))
        "config/doc_sources.yaml" None None (lit "kb_engine_playground")
        (mkState [] tt [])).1
     = Raise no_strip.
Proof.
  assert (Hin : readme ∈ [readme]) by left.
  assert (Hd : read_text (deref [number_extension_metadata] (metadata readme))
                 (lit "file_extension") = None) by reflexivity.
  split; [reflexivity|]. split; [exact Hin|]. split; [exact Hd|].
  rewrite (unreadable_metadata_stops unit unit unit 500 (fun _ => None)
        by_copy
        (fun _ docs h => (Returns docs, h))
        (fun _ h w => (Returns [readme], [number_extension_metadata], w))
        (fun _ w => (Fails "offline", w))
        (fun _ _ _ w => (Fails "offline", w))
        (fun _ _ _ _ _ w => (Fails "offline", w))
        (fun _ _ h w => (Fails "offline", h, w))
        "config/doc_sources.yaml" None None (lit "kb_engine_playground")
        (mkState [] tt []) [readme] [number_extension_metadata] tt readme
        eq_refl Hin Hd).
  reflexivity.
Defined.

(* --------------------------------------------------------------------- *)
(** ** loaders.py: the GitHub file filter                                  *)
(* --------------------------------------------------------------------- *)

Lemma lstrip_char_suffix (c : ascii) (s : str) :
  lstrip_char c s `suffix_of` s.
Proof.
  induction s as [|x s IH]; [done|]. simpl. case_bool_decide; [|done].
  by apply suffix_cons_r.
Qed.

(** [p.rstrip(c)] is a prefix of [p]. *)
Lemma rstrip_char_prefix (c : ascii) (p : str) :
  rstrip_char c p `prefix_of` p.
Proof.
  unfold rstrip_char. apply prefix_suffix_reverse.
  rewrite reverse_involutive. apply lstrip_char_suffix.
Qed.

Lemma endswith_any (path : str) (exts : list str) :
  existsb (endswith path) exts = true
  <-> exists ext, ext ∈ exts /\ ext `suffix_of` path.
Proof.
  rewrite existsb_exists. unfold endswith. split.
  - intros (ext & Hin & Hs). exists ext. split; [by apply list_elem_of_In|].
    by apply bool_decide_eq_true in Hs.
  - intros (ext & Hin & Hs). exists ext. split; [by apply list_elem_of_In|].
    by apply bool_decide_eq_true.
Qed.

Lemma include_loop_exists (path : str) (ps : list str) :
  include_loop path ps = true
  <-> exists p, p ∈ ps /\ include_match path p = true.
Proof.
  induction ps as [|p ps IH]; simpl.
  - split; [done|]. intros (p & Hin & _). by apply elem_of_nil in Hin.
  - destruct (include_match path p) eqn:E.
    + split; [|done]. intros _. exists p. split; [left|done].
    + rewrite IH. split.
      * intros (q & Hin & Hq). exists q. split; [by right|done].
      * intros (q & Hin & Hq). apply elem_of_cons in Hin as [->|Hin].
        -- congruence.
        -- by exists q.
Qed.

(** What one include path accepts. *)
Lemma include_match_spec (path p : str) :
  include_match path p = true
  <-> path = p
      \/ (if decide (lit "/" `suffix_of` p \/ "/"%char ∈ rstrip_char "/" p)
          then rstrip_char "/" p ++ lit "/" `prefix_of` path
          else p `prefix_of` path).
Proof.
  unfold include_match, endswith, contains, startswith.
  case_bool_decide as Heq; [split; [by left|done]|].
  destruct (decide (lit "/" `suffix_of` p \/ "/"%char ∈ rstrip_char "/" p))
    as [Hdir|Hdir].
  - assert (bool_decide (lit "/" `suffix_of` p)
            || bool_decide ("/"%char ∈ rstrip_char "/" p) = true) as ->.
    { apply orb_true_iff. destruct Hdir; [left|right];
        by apply bool_decide_eq_true. }
    rewrite bool_decide_eq_true. split; [by right|by intros [?|?]].
  - assert (bool_decide (lit "/" `suffix_of` p)
            || bool_decide ("/"%char ∈ rstrip_char "/" p) = false) as ->.
    { apply orb_false_iff. split; apply bool_decide_eq_false; tauto. }
    rewrite bool_decide_eq_true. split; [by right|by intros [?|?]].
Qed.

(** X12. The GitHub file filter accepts a path only if the path ends with
    one of the configured extensions; with no include paths (absent or an
    empty list) it accepts exactly those paths. *)
Theorem github_filter_extensions (extensions : list str)
    (include_paths : option (list str)) (path : str) :
  (_make_github_file_filter extensions include_paths path = true
   -> exists ext, ext ∈ extensions /\ ext `suffix_of` path)
  /\ (list_or_empty include_paths = []
      -> (_make_github_file_filter extensions include_paths path = true
          <-> exists ext, ext ∈ extensions /\ ext `suffix_of` path)).
Proof.
  unfold _make_github_file_filter. rewrite <- endswith_any.
  destruct (existsb (endswith path) extensions); simpl.
  - split; [done|]. intros Hnone.
    destruct include_paths as [[|p ps]|]; simpl in Hnone; done.
  - split; [done|]. intros _. done.
Qed.

Lemma github_filter_extensions_witness :
  _make_github_file_filter [lit ".md"; lit ".rst"] None (lit "docs/a.rst")
  = true
  /\ (exists ext, ext ∈ [lit ".md"; lit ".rst"]
                  /\ ext `suffix_of` lit "docs/a.rst")
  /\ _make_github_file_filter [lit ".md"; lit ".rst"] (Some [])
       (lit "docs/a.py") = false.
Proof.
  pose proof (github_filter_extensions [lit ".md"; lit ".rst"] None
                (lit "docs/a.rst")) as [Hsound _].
  assert (H : _make_github_file_filter [lit ".md"; lit ".rst"] None
                (lit "docs/a.rst") = true) by (vm_compute; reflexivity).
  split; [exact H|]. split; [exact (Hsound H)|]. vm_compute; reflexivity.
Defined.

(** X13. With a non-empty list of include paths the filter accepts a path
    exactly when it ends with a configured extension and some include path
    [p] matches it: [p] is the path itself; or [p] is a directory (it ends
    with ['/'] or has a ['/'] inside) and the path lies under it; or [p] has
    no ['/'] and is a prefix of the path. So every accepted path starts
    with one of the include paths, its trailing ['/'] characters removed. *)
Theorem github_filter_include_paths (extensions : list str)
    (include_paths : list str) (path : str) :
  include_paths <> [] ->
  (_make_github_file_filter extensions (Some include_paths) path = true
   <-> (exists ext, ext ∈ extensions /\ ext `suffix_of` path)
       /\ exists p, p ∈ include_paths
            /\ (path = p
                \/ (if decide (lit "/" `suffix_of` p
                               \/ "/"%char ∈ rstrip_char "/" p)
                    then rstrip_char "/" p ++ lit "/" `prefix_of` path
                    else p `prefix_of` path)))
  /\ (_make_github_file_filter extensions (Some include_paths) path = true
      -> exists p, p ∈ include_paths
                   /\ rstrip_char "/" p `prefix_of` path).
Proof.
  intros Hne.
  assert (Hiff : _make_github_file_filter extensions (Some include_paths) path
                 = true
            <-> (exists ext, ext ∈ extensions /\ ext `suffix_of` path)
                /\ exists p, p ∈ include_paths
                     /\ (path = p
                         \/ (if decide (lit "/" `suffix_of` p
                                        \/ "/"%char ∈ rstrip_char "/" p)
                             then rstrip_char "/" p ++ lit "/"
                                    `prefix_of` path
                             else p `prefix_of` path))).
  { unfold _make_github_file_filter. rewrite <- endswith_any.
    destruct include_paths as [|p0 ps]; [done|].
    destruct (existsb (endswith path) extensions); simpl negb; cbv iota.
    - rewrite include_loop_exists. split.
      + intros (p & Hin & Hm). split; [done|]. exists p. split; [done|].
        by apply include_match_spec.
      + intros [_ (p & Hin & Hm)]. exists p. split; [done|].
        by apply include_match_spec.
    - split; [done|]. by intros [? _]. }
  split; [exact Hiff|].
  intros Hacc. apply Hiff in Hacc as [_ (p & Hin & Hm)].
  exists p. split; [done|]. destruct Hm as [->|Hm].
  - apply rstrip_char_prefix.
  - destruct (decide _) as [_|_].
    + by apply prefix_app_l in Hm.
    + etrans; [apply rstrip_char_prefix|done].
Qed.

Lemma github_filter_include_paths_witness :
  _make_github_file_filter [lit ".md"] (Some [lit "docs/"; lit "README"])
    (lit "docs/guide/a.md") = true
  /\ exists p, p ∈ [lit "docs/"; lit "README"]
               /\ rstrip_char "/" p `prefix_of` lit "docs/guide/a.md".
Proof.
  assert (Hne : [lit "docs/"; lit "README"] <> []) by discriminate.
  pose proof (github_filter_include_paths [lit ".md"]
                [lit "docs/"; lit "README"] (lit "docs/guide/a.md") Hne)
    as [_ Hunder].
  assert (H : _make_github_file_filter [lit ".md"]
                (Some [lit "docs/"; lit "README"]) (lit "docs/guide/a.md")
              = true) by (vm_compute; reflexivity).
  split; [exact H|exact (Hunder H)].
Defined.

(* --------------------------------------------------------------------- *)
(** ** loaders.py: the source loaders                                      *)
(* --------------------------------------------------------------------- *)

Lemma metadata_setitem_length (d : Document) (k : str) (v : pyval)
    (h : heap) :
  length (metadata_setitem d k v h) = length h.
Proof. apply length_alter. Qed.

(** The dict at [l] after [d.metadata[k] = v]. *)
Lemma deref_setitem (d : Document) (k : str) (v : pyval) (h : heap)
    (l : loc) :
  deref (metadata_setitem d k v h) l
  = if decide (l = metadata d /\ (metadata d < length h)%nat)
    then <[k := v]> (deref h l) else deref h l.
Proof.
  unfold deref, metadata_setitem.
  destruct (decide (l = metadata d)) as [->|Hne].
  - rewrite list_lookup_alter_eq.
    destruct (h !! metadata d) as [m|] eqn:E; simpl.
    + apply lookup_lt_Some in E. by rewrite decide_True.
    + apply lookup_ge_None in E. rewrite decide_False by lia. done.
  - rewrite list_lookup_alter_ne by done.
    rewrite decide_False by tauto. done.
Qed.

Lemma setitem_other_key (d : Document) (k k' : str) (v : pyval) (h : heap)
    (l : loc) :
  k' <> k ->
  deref (metadata_setitem d k v h) l !! k' = deref h l !! k'.
Proof.
  intros Hk. rewrite deref_setitem. case_decide; [|done].
  by rewrite lookup_insert_ne.
Qed.

Lemma set_all_length (docs : list Document) (k : str) (v : pyval)
    (h : heap) :
  length (set_all docs k v h) = length h.
Proof.
  revert h. induction docs as [|d docs IH]; intros h; simpl; [done|].
  by rewrite IH, metadata_setitem_length.
Qed.

Lemma set_all_other_key (docs : list Document) (k k' : str) (v : pyval)
    (h : heap) (l : loc) :
  k' <> k -> deref (set_all docs k v h) l !! k' = deref h l !! k'.
Proof.
  intros Hk. revert h. induction docs as [|d docs IH]; intros h; simpl.
  - done.
  - by rewrite IH, setitem_other_key.
Qed.

Lemma set_all_keeps (docs : list Document) (k : str) (v : pyval) (h : heap)
    (l : loc) :
  deref h l !! k = Some v -> deref (set_all docs k v h) l !! k = Some v.
Proof.
  revert h. induction docs as [|d docs IH]; intros h Hl; simpl; [done|].
  apply IH. rewrite deref_setitem. case_decide; [|done].
  by rewrite lookup_insert_eq.
Qed.

(** After the loop every document of the list has the key. *)
Lemma set_all_lookup (docs : list Document) (k : str) (v : pyval) (h : heap)
    (d : Document) :
  d ∈ docs -> (metadata d < length h)%nat ->
  deref (set_all docs k v h) (metadata d) !! k = Some v.
Proof.
  revert h. induction docs as [|d0 docs IH]; intros h Hin Hlt.
  - by apply elem_of_nil in Hin.
  - simpl. apply elem_of_cons in Hin as [->|Hin].
    + apply set_all_keeps. rewrite deref_setitem.
      rewrite decide_True by done. by rewrite lookup_insert_eq.
    + apply IH; [done|]. by rewrite metadata_setitem_length.
Qed.

Lemma metadata_of_is_Some (h : heap) (d : Document) :
  is_Some (metadata_of h d) <-> (metadata d < length h)%nat.
Proof. unfold metadata_of. apply lookup_lt_is_Some. Qed.

Lemma isspace_lower_char (c : ascii) : isspace (lower_char c) = isspace c.
Proof. destruct c as [[] [] [] [] [] [] [] []]; reflexivity. Qed.

Lemma lower_char_idem (c : ascii) : lower_char (lower_char c) = lower_char c.
Proof. destruct c as [[] [] [] [] [] [] [] []]; reflexivity. Qed.

Lemma lower_idem (s : str) : lower (lower s) = lower s.
Proof.
  unfold lower. rewrite map_map. apply map_ext. apply lower_char_idem.
Qed.

Lemma lower_lstrip (s : str) : lower (lstrip s) = lstrip (lower s).
Proof.
  induction s as [|c s IH]; [done|]. cbn [lstrip lower map].
  rewrite isspace_lower_char. destruct (isspace c); [exact IH|reflexivity].
Qed.

Lemma lower_reverse (s : str) : lower (reverse s) = reverse (lower s).
Proof.
  induction s as [|c s IH]; [done|].
  rewrite reverse_cons. unfold lower in *. rewrite map_app, IH. simpl.
  by rewrite reverse_cons.
Qed.

(** [lower] and [strip] commute. *)
Lemma lower_strip (s : str) : lower (strip s) = strip (lower s).
Proof.
  unfold strip, rstrip.
  by rewrite lower_reverse, lower_lstrip, lower_reverse, lower_lstrip.
Qed.

Lemma derived_extension_nonempty (text : str) :
  "."%char ∈ strip text ->
  exists e, derived_extension text = "."%char :: lower e.
Proof.
  intros Hdot. unfold derived_extension. rewrite decide_True by done.
  by eexists.
Qed.

Lemma read_text_ext (md md' : pydict) (key : str) :
  md !! key = md' !! key -> read_text md key = read_text md' key.
Proof. unfold read_text. by intros ->. Qed.

Lemma source_extension_ext (md md' : pydict) :
  md !! lit "source" = md' !! lit "source" ->
  source_extension md = source_extension md'.
Proof.
  intros H. unfold source_extension. by rewrite (read_text_ext _ _ _ H).
Qed.

(** One step of the loop stores the derived extension, or raises. *)
Lemma file_extension_step (d : Document) (h : heap) :
  set_file_extensions [d] h
  = match read_text (deref h (metadata d)) (lit "source") with
    | None => (Raise no_strip, h)
    | Some text =>
        (Ok tt,
         if decide ("."%char ∈ strip text)
         then metadata_setitem d (lit "file_extension")
                (PyStr (derived_extension text)) h
         else h)
    end.
Proof.
  cbn [set_file_extensions]. rewrite strip_get_or_empty.
  destruct (read_text (deref h (metadata d)) (lit "source")) as [text|];
    [|done].
  unfold contains, derived_extension.
  destruct (decide ("."%char ∈ strip text)) as [Hdot|Hdot].
  - rewrite bool_decide_eq_true_2 by done.
    by rewrite last_rsplit1, !first_split.
  - by rewrite bool_decide_eq_false_2.
Qed.

Lemma set_file_extensions_cons (d : Document) (docs : list Document)
    (h : heap) :
  set_file_extensions (d :: docs) h
  = match set_file_extensions [d] h with
    | (Ok _, h1) => set_file_extensions docs h1
    | (Raise e, h1) => (Raise e, h1)
    end.
Proof.
  cbn [set_file_extensions].
  by destruct (strip_method
                 (get_or_empty (deref h (metadata d)) (lit "source"))).
Qed.

Lemma set_file_extensions_length (docs : list Document) (h : heap) :
  length (set_file_extensions docs h).2 = length h.
Proof.
  revert h. induction docs as [|d docs IH]; intros h; [done|].
  rewrite set_file_extensions_cons, file_extension_step.
  destruct (read_text (deref h (metadata d)) (lit "source")) as [text|];
    [|done].
  rewrite IH. case_decide; [|done]. apply metadata_setitem_length.
Qed.

Lemma set_file_extensions_other_key (docs : list Document) (h : heap)
    (l : loc) (k : str) :
  k <> lit "file_extension" ->
  deref (set_file_extensions docs h).2 l !! k = deref h l !! k.
Proof.
  intros Hk. revert h. induction docs as [|d docs IH]; intros h; [done|].
  rewrite set_file_extensions_cons, file_extension_step.
  destruct (read_text (deref h (metadata d)) (lit "source")) as [text|];
    [|done].
  rewrite IH. case_decide; [|done]. by apply setitem_other_key.
Qed.

(** The loop raises nothing but the [AttributeError] of [strip]. *)
Lemma set_file_extensions_raises (docs : list Document) (h : heap)
    (e : exn) (h' : heap) :
  set_file_extensions docs h = (Raise e, h') -> e = no_strip.
Proof.
  revert h. induction docs as [|d docs IH]; intros h; [done|].
  rewrite set_file_extensions_cons, file_extension_step.
  destruct (read_text (deref h (metadata d)) (lit "source")) as [text|].
  - apply IH.
  - by intros [= <- <-].
Qed.

Lemma set_file_extensions_keeps (docs : list Document) (h : heap) (l : loc) :
  deref h l !! lit "file_extension"
  = Some (PyStr (source_extension (deref h l))) ->
  deref (set_file_extensions docs h).2 l !! lit "file_extension"
  = Some (PyStr (source_extension (deref h l))).
Proof.
  revert h. induction docs as [|d docs IH]; intros h Hl; [done|].
  rewrite set_file_extensions_cons, file_extension_step.
  destruct (read_text (deref h (metadata d)) (lit "source")) as [text|] eqn:Et;
    [|done].
  set (h1 := if decide ("."%char ∈ strip text)
             then metadata_setitem d (lit "file_extension")
                    (PyStr (derived_extension text)) h
             else h).
  assert (Hsrc : deref h1 l !! lit "source" = deref h l !! lit "source").
  { unfold h1. case_decide; [|done]. by apply setitem_other_key. }
  rewrite <- (source_extension_ext _ _ Hsrc). apply IH.
  rewrite (source_extension_ext _ _ Hsrc).
  unfold h1. case_decide; [|done].
  rewrite deref_setitem. case_decide as Hd; [|done].
  destruct Hd as [-> _]. rewrite lookup_insert_eq.
  unfold source_extension. by rewrite Et.
Qed.

(** After a loop that returned, the [source] of every document reads as a
    text, and every document whose text has a ['.'] carries the extension
    derived from it. *)
Lemma set_file_extensions_lookup (docs : list Document) (h : heap)
    (d : Document) :
  (set_file_extensions docs h).1 = Ok tt ->
  d ∈ docs -> (metadata d < length h)%nat ->
  exists text,
    read_text (deref h (metadata d)) (lit "source") = Some text
    /\ ("."%char ∈ strip text ->
        deref (set_file_extensions docs h).2 (metadata d)
          !! lit "file_extension"
        = Some (PyStr (derived_extension text))).
Proof.
  revert h. induction docs as [|d0 docs IH]; intros h Hok Hin Hlt.
  - by apply elem_of_nil in Hin.
  - rewrite set_file_extensions_cons, file_extension_step in Hok |- *.
    destruct (read_text (deref h (metadata d0)) (lit "source"))
      as [text0|] eqn:E0; [|discriminate Hok].
    set (h1 := if decide ("."%char ∈ strip text0)
               then metadata_setitem d0 (lit "file_extension")
                      (PyStr (derived_extension text0)) h
               else h) in *.
    assert (Hsrc : forall l,
              deref h1 l !! lit "source" = deref h l !! lit "source").
    { intros l. unfold h1. case_decide; [|done]. by apply setitem_other_key. }
    assert (Hlen : length h1 = length h).
    { unfold h1. case_decide; [|done]. apply metadata_setitem_length. }
    apply elem_of_cons in Hin as [->|Hin].
    + exists text0. split; [done|]. intros Hdot.
      assert (Hext : source_extension (deref h1 (metadata d0))
                     = derived_extension text0).
      { rewrite (source_extension_ext _ _ (Hsrc (metadata d0))).
        unfold source_extension. by rewrite E0. }
      rewrite <- Hext. apply set_file_extensions_keeps. rewrite Hext.
      unfold h1. rewrite decide_True by done.
      rewrite deref_setitem, decide_True by done.
      by rewrite lookup_insert_eq.
    + destruct (IH h1 Hok Hin ltac:(lia)) as (text & Ht & Hfe).
      exists text. split; [|done].
      by rewrite <- (read_text_ext _ _ _ (Hsrc (metadata d))).
Qed.

(** A source with a supported type and its field is not invalid. *)
Ltac valid_source :=
  let Hbad := fresh "Hbad" in
  intros Hbad; exfalso; simpl in Hbad;
  decompose [and or] Hbad; clear Hbad; simplify_eq.

Section LoadersTheory.

Variable World : Type.
Variable environ : str -> option str.
Variable WebBaseLoader :
  str + list str -> heap -> World -> reply (list Document) * heap * World.
Variable _load_pdf_from_url :
  str -> heap -> World -> reply (list Document) * heap * World.
Variable GithubFileLoader :
  str -> pyval -> option str -> (str -> bool) -> heap -> World
  -> reply (list Document) * heap * World.
Variable load_config :
  string -> World -> reply (list source_config) * World.

(** The functions at the collaborators of this section. *)
Local Abbreviation load_source :=
  (load_documents_for_source World environ WebBaseLoader _load_pdf_from_url
     GithubFileLoader).
Local Abbreviation load_of_type :=
  (load_documents_of_type World environ WebBaseLoader _load_pdf_from_url
     GithubFileLoader).
Local Abbreviation load_pdfs :=
  (load_pdf_urls World _load_pdf_from_url).
Local Abbreviation load_each :=
  (load_sources World environ WebBaseLoader _load_pdf_from_url
     GithubFileLoader).
Local Abbreviation load_all :=
  (load_all_documents World environ WebBaseLoader _load_pdf_from_url
     GithubFileLoader load_config).

Lemma load_pdf_urls_no_ValueError (urls : list str) (docs : list Document)
    (h : heap) (w : World) (msg : string) (h' : heap) (w' : World) :
  load_pdfs urls docs h w <> (Raise (ValueError msg), h', w').
Proof.
  revert docs h w. induction urls as [|url urls IH]; intros docs h w; simpl.
  - congruence.
  - destruct (_load_pdf_from_url url h w) as [[[part|m] h1] w1].
    + apply IH.
    + congruence.
Qed.

(** The branches raise [ValueError] exactly for a type that is not
    supported or that lacks its field, and then before any loader call. *)
Lemma load_of_type_validation (t : str) (source : source_config) (h : heap)
    (w : World) :
  (missing_for t source ->
   exists msg, load_of_type t source h w = (Raise (ValueError msg), h, w))
  /\ (forall msg h' w',
        load_of_type t source h w = (Raise (ValueError msg), h', w') ->
        missing_for t source).
Proof.
  unfold load_documents_of_type, missing_for. cbv zeta.
  unfold loader_types. rewrite !not_elem_of_cons.
  repeat case_bool_decide.
  - (* url *)
    destruct (cfg_url source) as [[|c url]|] eqn:Eurl.
    + split; [by eexists|]. intros _ _ _ _. right. left. by split; [left|].
    + split; [valid_source|]. intros msg h' w' Hr. exfalso.
      destruct (WebBaseLoader (inl (c :: url)) h w) as [[[docs|m] h1] w1];
        simpl in Hr; congruence.
    + split; [by eexists|]. intros _ _ _ _. right. left. by split; [left|].
  - (* urls *)
    destruct (list_or_empty (cfg_urls source)) as [|u urls] eqn:Eurls.
    + split; [by eexists|]. intros _ _ _ _. right. right. left.
      by split; [left|].
    + split; [valid_source|]. intros msg h' w' Hr. exfalso.
      destruct (WebBaseLoader (inr (u :: urls)) h w) as [[[docs|m] h1] w1];
        simpl in Hr; congruence.
  - (* pdf_url *)
    destruct (cfg_url source) as [[|c url]|] eqn:Eurl.
    + split; [by eexists|]. intros _ _ _ _. right. left. by split; [right|].
    + split; [valid_source|]. intros msg h' w' Hr. exfalso.
      destruct (_load_pdf_from_url (c :: url) h w) as [[[docs|m] h1] w1];
        simpl in Hr; congruence.
    + split; [by eexists|]. intros _ _ _ _. right. left. by split; [right|].
  - (* pdf_urls *)
    destruct (list_or_empty (cfg_urls source)) as [|u urls] eqn:Eurls.
    + split; [by eexists|]. intros _ _ _ _. right. right. left.
      by split; [right|].
    + split; [valid_source|]. intros msg h' w' Hr. exfalso.
      destruct (load_pdfs (u :: urls) [] h w) as [[[docs|e] h1] w1]
        eqn:E; [congruence|].
      injection Hr as -> -> ->.
      by apply load_pdf_urls_no_ValueError in E.
  - (* github_repo *)
    destruct (cfg_repo source) as [[|c repo]|] eqn:Erepo.
    + split; [by eexists|]. intros _ _ _ _. by repeat right.
    + split; [valid_source|]. intros msg h' w' Hr. exfalso.
      destruct (GithubFileLoader _ _ _ _ h w) as [[[docs|m] h1] w1];
        simpl in Hr; [|congruence].
      destruct (set_file_extensions docs h1) as [[u|e] h2] eqn:Es;
        [congruence|].
      injection Hr as -> -> ->.
      by apply set_file_extensions_raises in Es.
    + split; [by eexists|]. intros _ _ _ _. by repeat right.
  - (* anything else *)
    split; [by eexists|]. intros _ _ _ _. left.
    rewrite ?not_elem_of_cons. repeat split; try done.
    apply not_elem_of_nil.
Qed.

(** X14. A source is rejected with a [ValueError] exactly when its type is
    a string that names no supported loader type (after stripping and
    lower-casing; a missing, empty or otherwise false type counts as [url])
    or when it lacks the field its type needs ([url], a non-empty [urls]
    list, or [repo]). A true type without a [strip] method (a number) is
    rejected with the [AttributeError] of the [strip] call. Either
    rejection comes before any loader is called: the heap and the outside
    world are as before. *)
Theorem source_validation (source : source_config) (h : heap) (w : World) :
  (invalid_source source ->
   exists msg,
     load_source source h w = (Raise (ValueError msg), h, w))
  /\ (forall msg h' w',
        load_source source h w = (Raise (ValueError msg), h', w')
        -> invalid_source source)
  /\ (forall e,
        loader_type_of source = Raise e ->
        load_source source h w = (Raise e, h, w)
        /\ exists msg, e = AttributeError msg).
Proof.
  unfold load_documents_for_source, invalid_source, loader_type_of.
  destruct (strip_method (py_or (default PyNone (cfg_type source)) (lit "url")))
    as [stripped|e0] eqn:E.
  - destruct (load_of_type_validation (lower stripped) source h w)
      as [Hbad Hvalue].
    split; [|split].
    + intros (t & [= <-] & Hmiss). by apply Hbad.
    + intros msg h' w' Hr. exists (lower stripped). split; [done|].
      by eapply Hvalue.
    + by intros e [=].
  - destruct (strip_method_raises _ _ E) as [msg0 ->].
    split; [|split].
    + by intros (t & [=] & _).
    + by intros msg h' w' [=].
    + intros e [= <-]. split; [done|]. by eexists.
Qed.

(** The last step of a load that returns is the [source_id] loop. *)
Lemma load_result (source : source_config) (h : heap) (w : World)
    (docs : list Document) (h' : heap) (w' : World) :
  load_source source h w = (Ok docs, h', w') ->
  exists h1,
    h' = set_all docs (lit "source_id")
           (default (PyStr (lit "unknown")) (cfg_id source)) h1.
Proof.
  unfold load_documents_for_source.
  destruct (strip_method _) as [stripped|e0]; [|done].
  unfold load_documents_of_type. cbv zeta.
  match goal with
  | |- match ?r with _ => _ end = _ -> _ =>
      destruct r as [[[docs1|e] h1] w1]
  end; [|done].
  intros [= <- <- <-]. by exists h1.
Qed.

(** X15. When [load_documents_for_source] returns, the metadata of every
    returned document (every dict that exists on the heap) has [source_id]
    set to the source's [id], or to ["unknown"] when the source has none. *)
Theorem source_id_on_every_document (source : source_config) (h : heap)
    (w : World) (docs : list Document) (h' : heap) (w' : World) :
  load_source source h w = (Ok docs, h', w') ->
  forall d, d ∈ docs -> is_Some (metadata_of h' d) ->
    deref h' (metadata d) !! lit "source_id"
    = Some (default (PyStr (lit "unknown")) (cfg_id source)).
Proof.
  intros Hload d Hin Hsome.
  destruct (load_result source h w docs h' w' Hload) as [h1 ->].
  apply metadata_of_is_Some in Hsome. rewrite set_all_length in Hsome.
  by apply set_all_lookup.
Qed.

(** What a [github_repo] source that loads leaves on the heap. *)
Lemma load_github_heap (source : source_config) (h : heap) (w : World)
    (docs : list Document) (h' : heap) (w' : World) :
  loader_type_of source = Ok (lit "github_repo") ->
  load_source source h w = (Ok docs, h', w') ->
  exists h1,
    (set_file_extensions docs h1).1 = Ok tt
    /\ h' = set_all docs (lit "source_id")
              (default (PyStr (lit "unknown")) (cfg_id source))
              (set_file_extensions docs h1).2.
Proof.
  unfold load_documents_for_source, loader_type_of.
  destruct (strip_method _) as [stripped|e0]; [|done].
  intros [= ->] Hload.
  unfold load_documents_of_type in Hload. cbv zeta in Hload.
  rewrite !bool_decide_eq_false_2 in Hload by (intros ?; simplify_eq).
  rewrite bool_decide_eq_true_2 in Hload by done.
  destruct (cfg_repo source) as [[|c repo]|]; [congruence| |congruence].
  destruct (GithubFileLoader _ _ _ _ h w) as [[[docs1|m] h1] w1];
    simpl in Hload; [|congruence].
  destruct (set_file_extensions docs1 h1) as [[[]|e] h2] eqn:Es;
    [|congruence].
  injection Hload as <- <- <-. exists h1. by rewrite Es.
Qed.

(** X16. For a [github_repo] source that loads, the [source] field of
    every returned document reads as a text, and every returned document
    whose stripped text has a ['.'] carries as [file_extension] the
    extension derived from that text; the language classifier of the
    pipeline then answers with the table entry of that extension,
    stripped. *)
Theorem github_documents_classified (source : source_config) (h : heap)
    (w : World) (docs : list Document) (h' : heap) (w' : World) :
  loader_type_of source = Ok (lit "github_repo") ->
  load_source source h w = (Ok docs, h', w') ->
  forall d, d ∈ docs -> is_Some (metadata_of h' d) ->
    exists text,
      read_text (deref h' (metadata d)) (lit "source") = Some text
      /\ ("."%char ∈ strip text ->
          deref h' (metadata d) !! lit "file_extension"
          = Some (PyStr (derived_extension text))
          /\ get_language_from_metadata (deref h' (metadata d))
             = Ok (language_of (strip (derived_extension text)))).
Proof.
  intros Ht Hload d Hin Hsome.
  destruct (load_github_heap _ _ _ _ _ _ Ht Hload) as (h1 & Hok & ->).
  set (sid := default (PyStr (lit "unknown")) (cfg_id source)) in *.
  apply metadata_of_is_Some in Hsome.
  rewrite set_all_length, set_file_extensions_length in Hsome.
  destruct (set_file_extensions_lookup docs h1 d Hok Hin Hsome)
    as (text & Htext & Hfe).
  set (md := deref (set_all docs (lit "source_id") sid
                      (set_file_extensions docs h1).2) (metadata d)).
  assert (Hsrc : md !! lit "source" = deref h1 (metadata d) !! lit "source").
  { unfold md. rewrite set_all_other_key by done.
    by rewrite set_file_extensions_other_key. }
  exists text. split; [by rewrite (read_text_ext _ _ _ Hsrc)|].
  intros Hdot.
  assert (Hmd : md !! lit "file_extension"
                = Some (PyStr (derived_extension text))).
  { unfold md. rewrite set_all_other_key by done. by apply Hfe. }
  split; [exact Hmd|].
  rewrite classifier_fields. unfold read_text at 1. rewrite Hmd.
  destruct (derived_extension_nonempty _ Hdot) as [e He]. rewrite He.
  rewrite lower_strip. cbn [lower map]. fold (lower (lower e)).
  rewrite lower_idem. change (lower_char ".") with "."%char.
  rewrite decide_True; [done|].
  intros Hnil. apply strip_nil_blank in Hnil. discriminate Hnil.
Qed.

Lemma load_sources_invalid (sources : list source_config) :
  (exists s, s ∈ sources /\ invalid_source s) ->
  forall all_docs h w,
    exists e h' w', load_each sources all_docs h w = (Raise e, h', w').
Proof.
  induction sources as [|s0 sources IH]; intros (s & Hin & Hbad) all_docs h w.
  - by apply elem_of_nil in Hin.
  - simpl. destruct (load_source s0 h w) as [[[docs|e] h1] w1] eqn:E.
    + apply IH. exists s. split; [|done].
      apply elem_of_cons in Hin as [->|Hin]; [|done].
      apply (source_validation s0 h w) in Hbad as [msg Hmsg]. congruence.
    + by exists e, h1, w1.
Qed.

(** X17. Loading is all or nothing: when the configuration holds a source
    that names no supported type or lacks the field its type needs,
    [load_all_documents] raises and returns no document, whatever the other
    sources are and wherever the source stands in the list. *)
Theorem invalid_source_fails_the_load (config_path : string) (h : heap)
    (w : World) (sources : list source_config) (w1 : World) :
  load_config config_path w = (Returns sources, w1) ->
  (exists s, s ∈ sources /\ invalid_source s) ->
  exists e h' w', load_all config_path h w = (Raise e, h', w').
Proof.
  intros Hcfg Hbad. unfold load_all_documents. rewrite Hcfg.
  by apply load_sources_invalid.
Qed.

End LoadersTheory.

Lemma source_validation_witness :
  invalid_source source_without_url
  /\ exists msg,
       sample_load source_without_url plain_heap
       = (Raise (ValueError msg), plain_heap, tt).
Proof.
  assert (Hbad : invalid_source source_without_url).
  { exists (lit "url"). split; [reflexivity|]. right. left.
    split; [by left|reflexivity]. }
  split; [exact Hbad|].
  exact (proj1 (source_validation unit no_environ sample_web_loader
                  sample_pdf_loader sample_github_loader source_without_url
                  plain_heap tt) Hbad).
Defined.

Lemma source_id_on_every_document_witness :
  sample_load web_source plain_heap
  = (Ok [readme],
     set_all [readme] (lit "source_id") (PyStr (lit "site")) plain_heap, tt)
  /\ readme ∈ [readme]
  /\ is_Some (metadata_of
                (set_all [readme] (lit "source_id") (PyStr (lit "site"))
                   plain_heap) readme)
  /\ deref (set_all [readme] (lit "source_id") (PyStr (lit "site"))
              plain_heap) (metadata readme)
       !! lit "source_id"
     = Some (default (PyStr (lit "unknown")) (cfg_id web_source)).
Proof.
  assert (H : sample_load web_source plain_heap
              = (Ok [readme],
                 set_all [readme] (lit "source_id") (PyStr (lit "site"))
                   plain_heap, tt)) by reflexivity.
  assert (Hin : readme ∈ [readme]) by left.
  assert (Hsome : is_Some (metadata_of
                             (set_all [readme] (lit "source_id")
                                (PyStr (lit "site")) plain_heap) readme)).
  { apply metadata_of_is_Some. rewrite set_all_length. simpl. lia. }
  split; [exact H|]. split; [exact Hin|]. split; [exact Hsome|].
  exact (source_id_on_every_document unit no_environ sample_web_loader
           sample_pdf_loader sample_github_loader web_source plain_heap tt
           _ _ _ H readme Hin Hsome).
Defined.

Lemma github_documents_classified_witness :
  loader_type_of github_source = Ok (lit "github_repo")
  /\ sample_load github_source readme_heap
     = (Ok [readme],
        set_all [readme] (lit "source_id") (PyStr (lit "unknown"))
          (set_file_extensions [readme] readme_heap).2, tt)
  /\ exists text,
       read_text
         (deref (set_all [readme] (lit "source_id") (PyStr (lit "unknown"))
                   (set_file_extensions [readme] readme_heap).2)
            (metadata readme)) (lit "source") = Some text
       /\ ("."%char ∈ strip text ->
           deref (set_all [readme] (lit "source_id") (PyStr (lit "unknown"))
                    (set_file_extensions [readme] readme_heap).2)
             (metadata readme) !! lit "file_extension"
           = Some (PyStr (derived_extension text))
           /\ get_language_from_metadata
                (deref (set_all [readme] (lit "source_id")
                          (PyStr (lit "unknown"))
                          (set_file_extensions [readme] readme_heap).2)
                   (metadata readme))
              = Ok (language_of (strip (derived_extension text)))).
Proof.
  assert (Ht : loader_type_of github_source = Ok (lit "github_repo"))
    by reflexivity.
  assert (H : sample_load github_source readme_heap
              = (Ok [readme],
                 set_all [readme] (lit "source_id") (PyStr (lit "unknown"))
                   (set_file_extensions [readme] readme_heap).2, tt))
    by reflexivity.
  assert (Hin : readme ∈ [readme]) by left.
  assert (Hsome : is_Some (metadata_of
                             (set_all [readme] (lit "source_id")
                                (PyStr (lit "unknown"))
                                (set_file_extensions [readme] readme_heap).2)
                             readme)).
  { apply metadata_of_is_Some.
    rewrite set_all_length, set_file_extensions_length. simpl. lia. }
  split; [exact Ht|]. split; [exact H|].
  exact (github_documents_classified unit no_environ sample_web_loader
           sample_pdf_loader sample_github_loader github_source
           readme_heap tt _ _ _ Ht H readme Hin Hsome).
Defined.

Lemma invalid_source_fails_the_load_witness :
  exists e h' w',
    load_all_documents unit no_environ sample_web_loader sample_pdf_loader
      sample_github_loader (sample_config [web_source; source_without_url])
      "config/doc_sources.yaml" plain_heap tt
    = (Raise e, h', w').
Proof.
  assert (Hbad : invalid_source source_without_url).
  { exists (lit "url"). split; [reflexivity|]. right. left.
    split; [by left|reflexivity]. }
  apply (invalid_source_fails_the_load unit no_environ sample_web_loader
           sample_pdf_loader sample_github_loader
           (sample_config [web_source; source_without_url])
           "config/doc_sources.yaml" plain_heap tt
           [web_source; source_without_url] tt eq_refl).
  exists source_without_url. split; [right; left|exact Hbad].
Defined.

Lemma resplit_by_reference_shares_witness :
  _resplit_oversize_chunks by_reference [sample_long] 4 plain_heap
  = (Ok (returned_chunks
           (_resplit_oversize_chunks by_reference [sample_long] 4 plain_heap)),
     plain_heap)
  /\ Forall (fun d => metadata d ∈ metadata <$> [sample_long])
       (returned_chunks
          (_resplit_oversize_chunks by_reference [sample_long] 4 plain_heap)).
Proof.
  assert (H : _resplit_oversize_chunks by_reference [sample_long] 4 plain_heap
              = (Ok (returned_chunks
                       (_resplit_oversize_chunks by_reference [sample_long] 4
                          plain_heap)), plain_heap))
    by reflexivity.
  split; [exact H|].
  exact (proj2 (resplit_by_reference_shares [sample_long] 4 plain_heap)
           _ _ H).
Defined.

Lemma grouping_is_stable_partition_witness :
  group_by_language [sample_short; sample_long] sample_heap []
  = Ok [(KeyLanguage MARKDOWN, [sample_short; sample_long])]
  /\ [sample_short; sample_long] <> []
  /\ [sample_short; sample_long]
     = filter (fun d => language_key sample_heap d = Ok (KeyLanguage MARKDOWN))
         [sample_short; sample_long].
Proof.
  assert (H : group_by_language [sample_short; sample_long] sample_heap []
              = Ok [(KeyLanguage MARKDOWN, [sample_short; sample_long])])
    by reflexivity.
  split; [exact H|].
  destruct (proj1 (grouping_is_stable_partition sample_heap
                     [sample_short; sample_long]) _ H) as (_ & Hg & _).
  apply (Hg (KeyLanguage MARKDOWN) [sample_short; sample_long]). left.
Defined.
